(** * scoutfs inode items, inode index items, the free inode pool, orphan
    deletion and writeback tracking (src/inode.c)

    A shallow embedding of the parts of inode.c that maintain the inode
    index items, acquire the index locks, delete the items of an unlinked
    inode, hand out free inode numbers, refresh an inode under a lock and
    track inodes with dirty pages.

    C integers are [Z]; an [int] return value is [0] or a negated errno.
    Endian conversions ([le64_to_cpu] and friends) do not change a value and
    are not written.  Code that calls the item cache, the lock service or
    the transaction layer runs in a state monad over [world]; [BUG()] is an
    outcome of its own. *)

From stdpp Require Import gmap gmultiset list sorting.
From Stdlib Require Import ZArith Lia.

Set Default Proof Using "Type".
Local Open Scope Z_scope.

(** ** Error numbers (include/uapi/asm-generic/errno-base.h) *)

Definition ENOENT : Z := 2.
Definition EIO : Z := 5.
Definition ENOMEM : Z := 12.
Definition EEXIST : Z := 17.
Definition EINVAL : Z := 22.
Definition ENOSPC : Z := 28.
Definition ERESTARTSYS : Z := 512.

(** Failures that a call into another subsystem can report for reasons
    outside of the caller's control.  [ENOENT] and [EEXIST] are not among
    them: the item cache returns those only for what they mean. *)
Inductive fault := F_EIO | F_ENOMEM | F_EINVAL | F_ENOSPC | F_ERESTARTSYS.

Definition fault_errno (f : fault) : Z :=
  match f with
  | F_EIO => EIO
  | F_ENOMEM => ENOMEM
  | F_EINVAL => EINVAL
  | F_ENOSPC => ENOSPC
  | F_ERESTARTSYS => ERESTARTSYS
  end.

Lemma fault_errno_pos f : 0 < fault_errno f.
Proof. by destruct f. Qed.

(** ** Keys and items *)

(** Modelled from the spec: format.h is not part of the sources.  The three
    index kinds are an enumeration; [index_type_num] gives them increasing
    numbers in the order size, meta seq, data seq, which only
    [cmp_index_lock] looks at. *)
Inductive index_type :=
  | SCOUTFS_INODE_INDEX_SIZE_TYPE
  | SCOUTFS_INODE_INDEX_META_SEQ_TYPE
  | SCOUTFS_INODE_INDEX_DATA_SEQ_TYPE.

Definition index_type_num (t : index_type) : Z :=
  match t with
  | SCOUTFS_INODE_INDEX_SIZE_TYPE => 1
  | SCOUTFS_INODE_INDEX_META_SEQ_TYPE => 2
  | SCOUTFS_INODE_INDEX_DATA_SEQ_TYPE => 3
  end.

#[global] Instance index_type_eq_dec : EqDecision index_type.
Proof. solve_decision. Defined.

#[global] Instance index_type_countable : Countable index_type.
Proof.
  refine (inj_countable'
    (λ t, match t with
          | SCOUTFS_INODE_INDEX_SIZE_TYPE => 0%nat
          | SCOUTFS_INODE_INDEX_META_SEQ_TYPE => 1%nat
          | SCOUTFS_INODE_INDEX_DATA_SEQ_TYPE => 2%nat
          end)
    (λ n, match n with
          | 0%nat => SCOUTFS_INODE_INDEX_SIZE_TYPE
          | 1%nat => SCOUTFS_INODE_INDEX_META_SEQ_TYPE
          | _ => SCOUTFS_INODE_INDEX_DATA_SEQ_TYPE
          end) _).
  by intros [].
Defined.

(** The keys built by [scoutfs_inode_init_key], by the index key
    initialisers in [update_index_items] and [remove_index], and by
    [init_orphan_key]. *)
Inductive key :=
  | inode_key (ino : Z)
  | inode_index_key (type : index_type) (major minor ino : Z)
  | orphan_key (node_id ino : Z).

#[global] Instance key_eq_dec : EqDecision key.
Proof. solve_decision. Defined.

#[global] Instance key_countable : Countable key.
Proof.
  refine (inj_countable'
    (λ k, match k with
          | inode_key i => inl i
          | inode_index_key t ma mi i => inr (inl (t, ma, mi, i))
          | orphan_key n i => inr (inr (n, i))
          end)
    (λ s, match s with
          | inl i => inode_key i
          | inr (inl (t, ma, mi, i)) => inode_index_key t ma mi i
          | inr (inr (n, i)) => orphan_key n i
          end) _).
  by intros [].
Defined.

Record timespec := { tv_sec : Z; tv_nsec : Z }.

(** struct scoutfs_inode, the value of an inode item, with the fields that
    [load_inode] and [store_inode] copy. *)
Record scoutfs_inode := {
  size : Z;
  nlink : Z;
  uid : Z;
  gid : Z;
  mode : Z;
  rdev : Z;
  atime : timespec;
  ctime : timespec;
  mtime : timespec;
  meta_seq : Z;
  data_seq : Z;
  data_version : Z;
  next_readdir_pos : Z;
  flags : Z
}.

(** An array indexed by the index type ([item_majors], [item_minors]). *)
Record index_array := {
  at_size : Z;
  at_meta_seq : Z;
  at_data_seq : Z
}.

Definition idx (a : index_array) (t : index_type) : Z :=
  match t with
  | SCOUTFS_INODE_INDEX_SIZE_TYPE => at_size a
  | SCOUTFS_INODE_INDEX_META_SEQ_TYPE => at_meta_seq a
  | SCOUTFS_INODE_INDEX_DATA_SEQ_TYPE => at_data_seq a
  end.

(** struct scoutfs_inode_info together with the fields of the vfs inode
    embedded in it that this file reads and writes. *)
Record scoutfs_inode_info := {
  ino : Z;
  i_size : Z;
  i_nlink : Z;
  i_uid : Z;
  i_gid : Z;
  i_mode : Z;
  i_rdev : Z;
  i_atime : timespec;
  i_mtime : timespec;
  i_ctime : timespec;
  ci_meta_seq : Z;
  ci_data_seq : Z;
  ci_data_version : Z;
  ci_next_readdir_pos : Z;
  ci_flags : Z;
  have_item : bool;
  item_majors : index_array;
  item_minors : index_array;
  last_refreshed : Z
}.

(** ** Locks *)

Inductive lock_mode := DLM_LOCK_PR | DLM_LOCK_EX | DLM_LOCK_CW.

(** What a lock was asked for: an inode ([scoutfs_lock_ino]), a range of
    index items ([scoutfs_lock_inode_index]) or the node's own items. *)
Inductive lock_name :=
  | ino_lock (ino : Z)
  | index_lock_name (type : index_type) (major ino : Z)
  | node_id_lock.

#[global] Instance lock_name_eq_dec : EqDecision lock_name.
Proof. solve_decision. Defined.

#[global] Instance lock_name_countable : Countable lock_name.
Proof.
  refine (inj_countable'
    (λ l, match l with
          | ino_lock i => inl i
          | index_lock_name t ma i => inr (inl (t, ma, i))
          | node_id_lock => inr (inr ())
          end)
    (λ s, match s with
          | inl i => ino_lock i
          | inr (inl (t, ma, i)) => index_lock_name t ma i
          | inr (inr _) => node_id_lock
          end) _).
  by intros [].
Defined.

(** A granted lock, as the pointer to it is passed around. *)
Record scoutfs_lock := { lk_name : lock_name }.

(** ** The world outside of inode.c *)

Inductive call :=
  | c_item_lookup_exact (k : key)
  | c_item_create (k : key)
  | c_item_create_force (k : key)
  | c_item_delete (k : key)
  | c_item_delete_force (k : key)
  | c_lock (l : lock_name) (m : lock_mode)
  | c_unlock (l : lock_name) (m : lock_mode)
  | c_hold_trans
  | c_release_trans
  | c_kzalloc.

(** A call that was made and what it returned. *)
Record event := { ev_call : call; ev_ret : Z }.

#[global] Instance lock_mode_eq_dec : EqDecision lock_mode.
Proof. solve_decision. Defined.
#[global] Instance call_eq_dec : EqDecision call.
Proof. solve_decision. Defined.
#[global] Instance event_eq_dec : EqDecision event.
Proof. solve_decision. Defined.

(** - [items]: the items of the item cache; an index item and an orphan item
      have no value ([None]), an inode item has a [scoutfs_inode];
    - [trans_seq]: [sbi->trans_seq];
    - [node_id]: [sbi->node_id];
    - [holders]: how many times the transaction is held;
    - [held]: the cluster locks that are held;
    - [faults]: what the coming calls into other subsystems will do, in call
      order: [None] lets the call go ahead, [Some f] makes it fail with
      [f]; when the script is used up calls go ahead;
    - [commits]: for each coming blocking call (taking a lock, holding the
      transaction) whether a transaction commit finished while it waited,
      which advances [trans_seq]; when the script is used up none does;
    - [trace]: the calls made so far, oldest first. *)
Record world := {
  items : gmap key (option scoutfs_inode);
  trans_seq : Z;
  node_id : Z;
  holders : nat;
  held : gmultiset lock_name;
  faults : list (option fault);
  commits : list bool;
  trace : list event
}.

Definition set_items (f : gmap key (option scoutfs_inode) → gmap key (option scoutfs_inode))
    (w : world) : world :=
  {| items := f (items w); trans_seq := trans_seq w; node_id := node_id w;
     holders := holders w; held := held w; faults := faults w;
     commits := commits w; trace := trace w |}.

Definition set_trans_seq_of (f : Z → Z) (w : world) : world :=
  {| items := items w; trans_seq := f (trans_seq w); node_id := node_id w;
     holders := holders w; held := held w; faults := faults w;
     commits := commits w; trace := trace w |}.

Definition set_holders (f : nat → nat) (w : world) : world :=
  {| items := items w; trans_seq := trans_seq w; node_id := node_id w;
     holders := f (holders w); held := held w; faults := faults w;
     commits := commits w; trace := trace w |}.

Definition set_held (f : gmultiset lock_name → gmultiset lock_name) (w : world) : world :=
  {| items := items w; trans_seq := trans_seq w; node_id := node_id w;
     holders := holders w; held := f (held w); faults := faults w;
     commits := commits w; trace := trace w |}.

Definition set_faults (f : list (option fault) → list (option fault)) (w : world) : world :=
  {| items := items w; trans_seq := trans_seq w; node_id := node_id w;
     holders := holders w; held := held w; faults := f (faults w);
     commits := commits w; trace := trace w |}.

Definition set_commits (f : list bool → list bool) (w : world) : world :=
  {| items := items w; trans_seq := trans_seq w; node_id := node_id w;
     holders := holders w; held := held w; faults := faults w;
     commits := f (commits w); trace := trace w |}.

Definition set_trace (f : list event → list event) (w : world) : world :=
  {| items := items w; trans_seq := trans_seq w; node_id := node_id w;
     holders := holders w; held := held w; faults := faults w;
     commits := commits w; trace := f (trace w) |}.

(** ** The monad *)

(** A computation returns a value and a new world, hits a [BUG()], or is
    cut off because a retry loop was given too few iterations. *)
Inductive result (A : Type) :=
  | Ret (a : A) (w : world)
  | Bug (w : world)
  | OutOfFuel.
Arguments Ret {A} a w.
Arguments Bug {A} w.
Arguments OutOfFuel {A}.

Definition M (A : Type) : Type := world → result A.

Definition ret {A} (a : A) : M A := λ w, Ret a w.

Definition bind {A B} (m : M A) (k : A → M B) : M B :=
  λ w, match m w with
       | Ret a w' => k a w'
       | Bug w' => Bug w'
       | OutOfFuel => OutOfFuel
       end.

Notation "x <- m ;; k" := (bind m (λ x, k))
  (at level 100, m at next level, right associativity).
Notation "m ;;; k" := (bind m (λ _, k))
  (at level 100, right associativity).

Definition bug {A} : M A := λ w, Bug w.
Definition out_of_fuel {A} : M A := λ _, OutOfFuel.

Definition get {A} (f : world → A) : M A := λ w, Ret (f w) w.
Definition modify (f : world → world) : M unit := λ w, Ret () (f w).

Definition logged (c : call) (r : Z) (w : world) : world :=
  set_trace (λ t, t ++ [{| ev_call := c; ev_ret := r |}]) w.

Definition log (c : call) (r : Z) : M unit := modify (logged c r).

(** The next entry of the fault script. *)
Definition next_of (fl : list (option fault)) : option fault :=
  match fl with
  | f :: _ => f
  | [] => None
  end.

Definition hd_fault (w : world) : option fault := next_of (faults w).

Definition next_fault : M (option fault) :=
  λ w, Ret (hd_fault w) (set_faults tail w).

(** Whether a commit finishes during the next blocking call. *)
Definition hd_commit (w : world) : bool :=
  match commits w with
  | c :: _ => c
  | [] => false
  end.

(** A blocking call: a commit may finish while it waits, and [trans_seq]
    is one more then. *)
Definition committed (w : world) : world :=
  set_commits tail
    (set_trans_seq_of (λ s, if hd_commit w then s + 1 else s) w).

Definition may_commit : M unit := modify committed.

(** ** The item cache *)

(** item.c, lock.c and trans.c are not part of the sources.  What their
    functions do is taken from the spec's interfaces of the record store,
    the lock service and the transaction service; that any of them can fail
    for reasons of its own is what the fault script stands for. *)

(** One call into another subsystem: the fault script decides whether it
    fails; if it goes ahead [op] says what it does. *)
Definition external {A} (c : call) (dflt : A) (op : M (Z * A)) : M (Z * A) :=
  f <- next_fault ;;
  match f with
  | Some f => log c (- fault_errno f) ;;; ret (- fault_errno f, dflt)
  | None => p <- op ;; log c (fst p) ;;; ret p
  end.

(** Modelled from the spec: [lookup_exact(key) -> value | NotFound] of the
    record store (item.c is missing).  The callers ask for a
    [struct scoutfs_inode]; an item of another size is an I/O error.  The
    lock argument of this and the following functions is what the caller
    found to cover the key; the model does not look at it. *)
Definition scoutfs_item_lookup_exact (k : key) (lock : option scoutfs_lock)
    : M (Z * option scoutfs_inode) :=
  external (c_item_lookup_exact k) None
    (its <- get items ;;
     match its !! k with
     | None => ret (- ENOENT, None)
     | Some None => ret (- EIO, None)
     | Some (Some v) => ret (0, Some v)
     end).

(** A call that returns only its error code. *)
Definition unit_call (c : call) (op : M Z) : M Z :=
  p <- external c () (r <- op ;; ret (r, ())) ;; ret (fst p).

(** Modelled from the spec: [create(key,val) -> Ok | AlreadyExists] of the
    record store (item.c is missing). *)
Definition scoutfs_item_create (k : key) (val : option scoutfs_inode)
    (lock : option scoutfs_lock) : M Z :=
  unit_call (c_item_create k)
    (its <- get items ;;
     match its !! k with
     | Some _ => ret (- EEXIST)
     | None => modify (set_items (insert k val)) ;;; ret 0
     end).

(** Modelled from the spec: [create_force] of the record store (item.c is
    missing), which tolerates an item that is there already. *)
Definition scoutfs_item_create_force (k : key) (val : option scoutfs_inode)
    (lock : option scoutfs_lock) : M Z :=
  unit_call (c_item_create_force k)
    (modify (set_items (insert k val)) ;;; ret 0).

(** Modelled from the spec: [delete(key) -> Ok | NotFound] of the record
    store (item.c is missing). *)
Definition scoutfs_item_delete (k : key) (lock : option scoutfs_lock) : M Z :=
  unit_call (c_item_delete k)
    (its <- get items ;;
     match its !! k with
     | None => ret (- ENOENT)
     | Some _ => modify (set_items (delete k)) ;;; ret 0
     end).

(** Modelled from the spec: [delete_force] of the record store (item.c is
    missing), which tolerates an item that is gone already. *)
Definition scoutfs_item_delete_force (k : key) (lock : option scoutfs_lock) : M Z :=
  unit_call (c_item_delete_force k)
    (modify (set_items (delete k)) ;;; ret 0).

(** ** The lock service and the transaction *)

(** Modelled from the spec: [acquire(descriptor, mode) -> token | Err] of
    the lock service (lock.c is missing).  Acquiring a lock can block, so a
    commit can finish meanwhile. *)
Definition lock_acquire (l : lock_name) (m : lock_mode) : M (Z * option scoutfs_lock) :=
  may_commit ;;;
  external (c_lock l m) None
    (modify (set_held (λ h, h ⊎ {[+ l +]})) ;;;
     ret (0, Some {| lk_name := l |})).

(** Modelled from the spec: [acquire] for the lock of an inode. *)
Definition scoutfs_lock_ino (m : lock_mode) (ino : Z) : M (Z * option scoutfs_lock) :=
  lock_acquire (ino_lock ino) m.

(** Modelled from the spec: [acquire] for the lock that covers the index
    items of a type from a major and an inode number on. *)
Definition scoutfs_lock_inode_index (m : lock_mode) (type : index_type)
    (major ino : Z) : M (Z * option scoutfs_lock) :=
  lock_acquire (index_lock_name type major ino) m.

(** Modelled from the spec: [release(token)] of the lock service (lock.c is
    missing).  [scoutfs_inode_index_unlock] calls it with the NULL lock of
    an entry that was never locked; it does nothing then. *)
Definition scoutfs_unlock (lock : option scoutfs_lock) (m : lock_mode) : M unit :=
  match lock with
  | None => ret ()
  | Some l =>
      modify (set_held (λ h, h ∖ {[+ lk_name l +]})) ;;;
      log (c_unlock (lk_name l) m) 0
  end.

(** Modelled from the spec: [begin(expected_cost) -> Ok | Err] of the
    transaction service (trans.c is missing).  It can block until a commit
    has finished. *)
Definition scoutfs_hold_trans : M Z :=
  may_commit ;;;
  unit_call c_hold_trans (modify (set_holders S) ;;; ret 0).

(** Modelled from the spec: [commit/release] of the transaction service
    (trans.c is missing). *)
Definition scoutfs_release_trans : M unit :=
  modify (set_holders pred) ;;; log c_release_trans 0.

(** [kzalloc(..., GFP_NOFS)]: [0] if the allocation succeeded. *)
Definition kzalloc : M Z :=
  f <- next_fault ;;
  match f with
  | Some _ => log c_kzalloc (- ENOMEM) ;;; ret (- ENOMEM)
  | None => log c_kzalloc 0 ;;; ret 0
  end.

(** ** Inode index items *)

Definition S_IFMT : Z := 61440.   (* 0170000 *)
Definition S_IFREG : Z := 32768.  (* 0100000 *)
Definition S_ISREG (m : Z) : bool := Z.land m S_IFMT =? S_IFREG.

(** struct index_lock; [il_lock] is NULL until the lock is acquired. *)
Record index_lock := {
  il_lock : option scoutfs_lock;
  il_type : index_type;
  il_major : Z;
  il_minor : Z;
  il_ino : Z
}.

Definition will_del_index (si : option scoutfs_inode_info)
    (type : index_type) (major minor : Z) : bool :=
  match si with
  | None => false
  | Some si =>
      have_item si &&
      (negb (idx (item_majors si) type =? major) ||
       negb (idx (item_minors si) type =? minor))
  end.

Definition will_ins_index (si : option scoutfs_inode_info)
    (type : index_type) (major minor : Z) : bool :=
  match si with
  | None => true
  | Some si =>
      negb (have_item si) ||
      (negb (idx (item_majors si) type =? major) ||
       negb (idx (item_minors si) type =? minor))
  end.

Definition inode_has_index (mode : Z) (type : index_type) : bool :=
  match type with
  | SCOUTFS_INODE_INDEX_SIZE_TYPE
  | SCOUTFS_INODE_INDEX_META_SEQ_TYPE => true
  | SCOUTFS_INODE_INDEX_DATA_SEQ_TYPE => S_ISREG mode
  end.

(** Modelled from the spec: cmp.h is not part of the sources.  The spec
    sorts the descriptors by kind, major, minor and id; this is the
    three-way comparison of two u64s, [a < b ? -1 : a > b ? 1 : 0]. *)
Definition scoutfs_cmp_u64s (a b : Z) : Z :=
  if a <? b then -1 else if a >? b then 1 else 0.

(** [a ?: b] *)
Definition elvis (a b : Z) : Z := if a =? 0 then b else a.

Definition cmp_index_lock (a b : index_lock) : Z :=
  elvis (index_type_num (il_type a) - index_type_num (il_type b))
    (elvis (scoutfs_cmp_u64s (il_major a) (il_major b))
       (elvis (scoutfs_cmp_u64s (il_minor a) (il_minor b))
          (scoutfs_cmp_u64s (il_ino a) (il_ino b)))).

Section inode.

(** [scoutfs_lock_get_index_item_range] of lock.c, which is not part of the
    sources: the major, minor and ino of the first key of the lock range
    that covers the index item of the given type, major and ino. *)
Variable scoutfs_lock_get_index_item_range : index_type → Z → Z → Z * Z * Z.

Definition clamp_inode_index (type : index_type) (major minor ino : Z) : Z * Z * Z :=
  scoutfs_lock_get_index_item_range type major ino.

(** The walk of [find_index_lock] over the sorted list. *)
Fixpoint find_index_lock_walk (needle : index_lock) (lock_list : list index_lock)
    : option scoutfs_lock :=
  match lock_list with
  | [] => None
  | ind_lock :: rest =>
      let cmp := cmp_index_lock needle ind_lock in
      if cmp =? 0 then il_lock ind_lock
      else if cmp <? 0 then None
      else find_index_lock_walk needle rest
  end.

Definition find_index_lock (lock_list : list index_lock) (type : index_type)
    (major minor ino : Z) : option scoutfs_lock :=
  let '(major, minor, ino) := clamp_inode_index type major minor ino in
  let needle := {| il_lock := None; il_type := type; il_major := major;
                   il_minor := minor; il_ino := ino |} in
  find_index_lock_walk needle lock_list.

(** [si] is NULL when the index items of a new inode are created.  The old
    key is only built behind [will_del_index], which is false for a NULL
    [si]; that arm of the match is never run. *)
Definition update_index_items (si : option scoutfs_inode_info) (ino : Z)
    (type : index_type) (major minor : Z) (lock_list : list index_lock) : M Z :=
  if negb (will_ins_index si type major minor) then ret 0 else
  let ins := inode_index_key type major minor ino in
  let ins_lock := find_index_lock lock_list type major minor ino in
  r <- scoutfs_item_create_force ins None ins_lock ;;
  if negb (r =? 0) || negb (will_del_index si type major minor) then ret r else
  match si with
  | None => ret r
  | Some s =>
      let del := inode_index_key type (idx (item_majors s) type)
                   (idx (item_minors s) type) ino in
      let del_lock := find_index_lock lock_list type (idx (item_majors s) type)
                        (idx (item_minors s) type) ino in
      r <- scoutfs_item_delete_force del del_lock ;;
      if negb (r =? 0) then
        err <- scoutfs_item_delete ins ins_lock ;;
        if negb (err =? 0) then bug else ret r
      else ret r
  end.

(** The three updates of [update_indices], [prepare_indices] and
    [prepare_index_deletion]: type, major, minor. *)
Definition index_updates (sz ms ds : Z) : list (index_type * Z * Z) :=
  [ (SCOUTFS_INODE_INDEX_SIZE_TYPE, sz, 0);
    (SCOUTFS_INODE_INDEX_META_SEQ_TYPE, ms, 0);
    (SCOUTFS_INODE_INDEX_DATA_SEQ_TYPE, ds, 0) ].

(** The for loop of [update_indices]; [r] is [ret], which the first pass
    always assigns because every inode has a size index. *)
Fixpoint update_indices_loop (si : option scoutfs_inode_info) (ino mode : Z)
    (upds : list (index_type * Z * Z)) (lock_list : list index_lock) (r : Z) : M Z :=
  match upds with
  | [] => ret r
  | (type, major, minor) :: upds =>
      if negb (inode_has_index mode type)
      then update_indices_loop si ino mode upds lock_list r
      else
        r <- update_index_items si ino type major minor lock_list ;;
        if negb (r =? 0) then ret r
        else update_indices_loop si ino mode upds lock_list r
  end.

Definition update_indices (si : option scoutfs_inode_info) (ino mode : Z)
    (sinode : scoutfs_inode) (lock_list : list index_lock) : M Z :=
  update_indices_loop si ino mode
    (index_updates (size sinode) (meta_seq sinode) (data_seq sinode)) lock_list 0.

(** [set_item_info]: the inode info remembers the indexed values of the
    item that was just read or written. *)
Definition set_item_info (si : scoutfs_inode_info) (sinode : scoutfs_inode)
    : scoutfs_inode_info :=
  {| ino := ino si; i_size := i_size si; i_nlink := i_nlink si;
     i_uid := i_uid si; i_gid := i_gid si; i_mode := i_mode si;
     i_rdev := i_rdev si; i_atime := i_atime si; i_mtime := i_mtime si;
     i_ctime := i_ctime si; ci_meta_seq := ci_meta_seq si;
     ci_data_seq := ci_data_seq si; ci_data_version := ci_data_version si;
     ci_next_readdir_pos := ci_next_readdir_pos si; ci_flags := ci_flags si;
     have_item := true;
     item_majors := {| at_size := size sinode; at_meta_seq := meta_seq sinode;
                       at_data_seq := data_seq sinode |};
     item_minors := {| at_size := 0; at_meta_seq := 0; at_data_seq := 0 |};
     last_refreshed := last_refreshed si |}.

(** *** Preparing the index locks *)

Definition same_index_lock (type : index_type) (major minor ino : Z)
    (l : index_lock) : bool :=
  bool_decide (il_type l = type) && (il_major l =? major) &&
  (il_minor l =? minor) && (il_ino l =? ino).

(** [list_add] puts the new entry at the head of the list. *)
Definition add_index_lock (lst : list index_lock) (ino : Z) (type : index_type)
    (major minor : Z) : M (Z * list index_lock) :=
  let '(major, minor, ino) := clamp_inode_index type major minor ino in
  if existsb (same_index_lock type major minor ino) lst then ret (0, lst) else
  r <- kzalloc ;;
  if negb (r =? 0) then ret (- ENOMEM, lst) else
  ret (0, {| il_lock := None; il_type := type; il_major := major;
             il_minor := minor; il_ino := ino |} :: lst).

(** As in [update_index_items] the old values are read behind
    [will_del_index] only. *)
Definition prepare_index_items (si : option scoutfs_inode_info)
    (lst : list index_lock) (ino mode : Z) (type : index_type)
    (major minor : Z) : M (Z * list index_lock) :=
  p <- (if will_ins_index si type major minor
        then add_index_lock lst ino type major minor
        else ret (0, lst)) ;;
  if negb (fst p =? 0) then ret p else
  match si with
  | Some s =>
      if will_del_index si type major minor
      then add_index_lock (snd p) ino type (idx (item_majors s) type)
             (idx (item_minors s) type)
      else ret (0, snd p)
  | None => ret (0, snd p)
  end.

Definition upd_data_seq (si : option scoutfs_inode_info) (set_data_seq : bool) : M Z :=
  match si with
  | None => get trans_seq
  | Some s =>
      if negb (have_item s) || set_data_seq then get trans_seq
      else ret (idx (item_majors s) SCOUTFS_INODE_INDEX_DATA_SEQ_TYPE)
  end.

(** The for loop of [prepare_indices]; [r] is [ret] as in
    [update_indices_loop]. *)
Fixpoint prepare_indices_loop (si : option scoutfs_inode_info)
    (lst : list index_lock) (ino mode : Z) (upds : list (index_type * Z * Z))
    (r : Z) : M (Z * list index_lock) :=
  match upds with
  | [] => ret (r, lst)
  | (type, major, minor) :: upds =>
      if negb (inode_has_index mode type)
      then prepare_indices_loop si lst ino mode upds r
      else
        p <- prepare_index_items si lst ino mode type major minor ;;
        if negb (fst p =? 0) then ret p
        else prepare_indices_loop si (snd p) ino mode upds (fst p)
  end.

Definition prepare_indices (lst : list index_lock)
    (si : option scoutfs_inode_info) (ino mode new_size : Z)
    (set_data_seq : bool) : M (Z * list index_lock) :=
  seq <- get trans_seq ;;
  ds <- upd_data_seq si set_data_seq ;;
  prepare_indices_loop si lst ino mode (index_updates new_size seq ds) 0.

Definition scoutfs_inode_index_prepare (lst : list index_lock)
    (inode : scoutfs_inode_info) (new_size : Z) (set_data_seq : bool)
    : M (Z * list index_lock) :=
  prepare_indices lst (Some inode) (ino inode) (i_mode inode) new_size set_data_seq.

Definition scoutfs_inode_index_prepare_ino (lst : list index_lock)
    (ino mode new_size : Z) : M (Z * list index_lock) :=
  prepare_indices lst None ino mode new_size true.

Fixpoint prepare_index_deletion_loop (lst : list index_lock) (ino mode : Z)
    (inds : list (index_type * Z * Z)) (r : Z) : M (Z * list index_lock) :=
  match inds with
  | [] => ret (r, lst)
  | (type, major, minor) :: inds =>
      if negb (inode_has_index mode type)
      then prepare_index_deletion_loop lst ino mode inds r
      else
        p <- add_index_lock lst ino type major minor ;;
        if negb (fst p =? 0) then ret p
        else prepare_index_deletion_loop (snd p) ino mode inds (fst p)
  end.

Definition prepare_index_deletion (lst : list index_lock) (ino mode : Z)
    (sinode : scoutfs_inode) : M (Z * list index_lock) :=
  prepare_index_deletion_loop lst ino mode
    (index_updates (size sinode) (meta_seq sinode) (data_seq sinode)) 0.

(** [scoutfs_inode_index_start] returns 0 and stores the sample in [*seq]. *)
Definition scoutfs_inode_index_start : M Z := get trans_seq.

(** *** Acquiring the index locks *)

(** [list_sort] of the kernel is a stable sort. *)
Fixpoint list_sort_insert (x : index_lock) (l : list index_lock) : list index_lock :=
  match l with
  | [] => [x]
  | y :: l' =>
      if cmp_index_lock x y <=? 0 then x :: y :: l'
      else y :: list_sort_insert x l'
  end.

Definition list_sort (l : list index_lock) : list index_lock :=
  foldr list_sort_insert [] l.

Definition with_lock (il : index_lock) (lock : option scoutfs_lock) : index_lock :=
  {| il_lock := lock; il_type := il_type il; il_major := il_major il;
     il_minor := il_minor il; il_ino := il_ino il |}.

(** The first loop of [scoutfs_inode_index_try_lock_hold]: lock the entries
    in list order and stop at the first lock that is refused. *)
Fixpoint lock_index_locks (l : list index_lock) : M (Z * list index_lock) :=
  match l with
  | [] => ret (0, [])
  | ind_lock :: rest =>
      p <- scoutfs_lock_inode_index DLM_LOCK_CW (il_type ind_lock)
             (il_major ind_lock) (il_ino ind_lock) ;;
      if negb (fst p =? 0) then ret (fst p, ind_lock :: rest) else
      q <- lock_index_locks rest ;;
      ret (fst q, with_lock ind_lock (snd p) :: snd q)
  end.

(** Every entry is unlocked, unlinked and freed: the list ends up empty. *)
Fixpoint scoutfs_inode_index_unlock (l : list index_lock) : M unit :=
  match l with
  | [] => ret ()
  | ind_lock :: rest =>
      scoutfs_unlock (il_lock ind_lock) DLM_LOCK_CW ;;;
      scoutfs_inode_index_unlock rest
  end.

Definition scoutfs_inode_index_try_lock_hold (l : list index_lock) (seq : Z)
    : M (Z * list index_lock) :=
  p <- lock_index_locks (list_sort l) ;;
  r <- (if negb (fst p =? 0) then ret (fst p) else
        r <- scoutfs_hold_trans ;;
        cur <- get trans_seq ;;
        if (r =? 0) && negb (seq =? cur)
        then scoutfs_release_trans ;;; ret 1
        else ret r) ;;
  if negb (r =? 0)
  then scoutfs_inode_index_unlock (snd p) ;;; ret (r, [])
  else ret (r, snd p).

(** The do-while loop of [scoutfs_inode_index_lock_hold].  [fuel] bounds the
    number of passes. *)
Fixpoint scoutfs_inode_index_lock_hold (fuel : nat) (inode : scoutfs_inode_info)
    (lst : list index_lock) (size : Z) (set_data_seq : bool)
    : M (Z * list index_lock) :=
  match fuel with
  | O => out_of_fuel
  | S fuel =>
      seq <- scoutfs_inode_index_start ;;
      p <- scoutfs_inode_index_prepare lst inode size set_data_seq ;;
      p <- (if negb (fst p =? 0) then ret p
            else scoutfs_inode_index_try_lock_hold (snd p) seq) ;;
      if fst p >? 0
      then scoutfs_inode_index_lock_hold fuel inode (snd p) size set_data_seq
      else ret p
  end.

(** *** Deleting the items of an inode *)

Definition remove_index (ino : Z) (type : index_type) (major minor : Z)
    (ind_locks : list index_lock) : M Z :=
  let key := inode_index_key type major minor ino in
  let lock := find_index_lock ind_locks type major minor ino in
  r <- scoutfs_item_delete_force key lock ;;
  ret (if r =? - ENOENT then 0 else r).

Definition remove_index_items (ino : Z) (sinode : scoutfs_inode)
    (ind_locks : list index_lock) : M Z :=
  let mode := mode sinode in
  r <- remove_index ino SCOUTFS_INODE_INDEX_SIZE_TYPE (size sinode) 0 ind_locks ;;
  r <- (if negb (r =? 0) then ret r
        else remove_index ino SCOUTFS_INODE_INDEX_META_SEQ_TYPE
               (meta_seq sinode) 0 ind_locks) ;;
  if (r =? 0) && S_ISREG mode
  then remove_index ino SCOUTFS_INODE_INDEX_DATA_SEQ_TYPE (data_seq sinode) 0
         ind_locks
  else ret r.

(** [sbi->node_id_lock] *)
Definition sbi_node_id_lock : option scoutfs_lock := Some {| lk_name := node_id_lock |}.

(** [scoutfs_orphan_inode] creates the orphan item of an inode whose last
    link is removed. *)
Definition scoutfs_orphan_inode (inode : scoutfs_inode_info) : M Z :=
  nid <- get node_id ;;
  scoutfs_item_create (orphan_key nid (ino inode)) None sbi_node_id_lock.

Definition remove_orphan_item (ino : Z) : M Z :=
  nid <- get node_id ;;
  r <- scoutfs_item_delete (orphan_key nid ino) sbi_node_id_lock ;;
  ret (if r =? - ENOENT then 0 else r).

(** The [retry:] loop of [delete_inode_items]; [fuel] bounds the number of
    passes. *)
Fixpoint delete_inode_items_retry (fuel : nat) (ind_locks : list index_lock)
    (ino mode : Z) (sinode : scoutfs_inode) : M (Z * list index_lock) :=
  match fuel with
  | O => out_of_fuel
  | S fuel =>
      ind_seq <- scoutfs_inode_index_start ;;
      p <- prepare_index_deletion ind_locks ino mode sinode ;;
      p <- (if negb (fst p =? 0) then ret p
            else scoutfs_inode_index_try_lock_hold (snd p) ind_seq) ;;
      if fst p >? 0
      then delete_inode_items_retry fuel (snd p) ino mode sinode
      else ret p
  end.

(** The [out:] label of [delete_inode_items]. *)
Definition delete_inode_items_out (release : bool) (ind_locks : list index_lock)
    (lock : option scoutfs_lock) (r : Z) : M Z :=
  (if release then scoutfs_release_trans else ret ()) ;;;
  scoutfs_inode_index_unlock ind_locks ;;;
  scoutfs_unlock lock DLM_LOCK_EX ;;;
  ret r.

(** A lookup that returns 0 has filled [sinode]; the arm for a lookup that
    returns 0 without a value is never run. *)
Definition delete_inode_items (fuel : nat) (ino : Z) : M Z :=
  p <- scoutfs_lock_ino DLM_LOCK_EX ino ;;
  let lock := snd p in
  if negb (fst p =? 0) then ret (fst p) else
  let key := inode_key ino in
  p <- scoutfs_item_lookup_exact key lock ;;
  if fst p <? 0
  then delete_inode_items_out false [] lock
         (if fst p =? - ENOENT then 0 else fst p)
  else
  match snd p with
  | None => delete_inode_items_out false [] lock (fst p)
  | Some sinode =>
      if negb (nlink sinode =? 0)
      then delete_inode_items_out false [] lock (- EIO)
      else
      let mode := mode sinode in
      p <- delete_inode_items_retry fuel [] ino mode sinode ;;
      let ind_locks := snd p in
      if negb (fst p =? 0)
      then delete_inode_items_out false ind_locks lock (fst p)
      else
      r <- remove_index_items ino sinode ind_locks ;;
      if negb (r =? 0) then delete_inode_items_out true ind_locks lock r else
      r <- scoutfs_item_delete key lock ;;
      if negb (r =? 0) then delete_inode_items_out true ind_locks lock r else
      r <- remove_orphan_item ino ;;
      delete_inode_items_out true ind_locks lock r
  end.

(** *** Refreshing an inode *)

(** [scoutfs_lock_refresh_gen] of lock.c, which is not part of the sources:
    the refresh generation of a granted lock. *)
Variable scoutfs_lock_refresh_gen : scoutfs_lock → Z.

Definition load_inode (si : scoutfs_inode_info) (cinode : scoutfs_inode)
    : scoutfs_inode_info :=
  set_item_info
    {| ino := ino si;
       i_size := size cinode;
       i_nlink := nlink cinode;
       i_uid := uid cinode;
       i_gid := gid cinode;
       i_mode := mode cinode;
       i_rdev := rdev cinode;
       i_atime := atime cinode;
       i_mtime := mtime cinode;
       i_ctime := ctime cinode;
       ci_meta_seq := meta_seq cinode;
       ci_data_seq := data_seq cinode;
       ci_data_version := data_version cinode;
       ci_next_readdir_pos := next_readdir_pos cinode;
       ci_flags := flags cinode;
       have_item := have_item si;
       item_majors := item_majors si;
       item_minors := item_minors si;
       last_refreshed := last_refreshed si |}
    cinode.

Definition set_last_refreshed (gen : Z) (si : scoutfs_inode_info) : scoutfs_inode_info :=
  {| ino := ino si; i_size := i_size si; i_nlink := i_nlink si;
     i_uid := i_uid si; i_gid := i_gid si; i_mode := i_mode si;
     i_rdev := i_rdev si; i_atime := i_atime si; i_mtime := i_mtime si;
     i_ctime := i_ctime si; ci_meta_seq := ci_meta_seq si;
     ci_data_seq := ci_data_seq si; ci_data_version := ci_data_version si;
     ci_next_readdir_pos := ci_next_readdir_pos si; ci_flags := ci_flags si;
     have_item := have_item si; item_majors := item_majors si;
     item_minors := item_minors si; last_refreshed := gen |}.

(** The inode is passed in and handed back with the return value.  The
    second and third read of [last_refreshed] see what the first one saw:
    no other task refreshes the inode in between. *)
Definition scoutfs_inode_refresh (inode : scoutfs_inode_info)
    (lock : scoutfs_lock) (flags : Z) : M (Z * scoutfs_inode_info) :=
  let refresh_gen := scoutfs_lock_refresh_gen lock in
  if last_refreshed inode >? refresh_gen then bug else
  if last_refreshed inode =? refresh_gen then ret (0, inode) else
  if last_refreshed inode <? refresh_gen then
    p <- scoutfs_item_lookup_exact (inode_key (ino inode)) (Some lock) ;;
    match snd p with
    | Some sinode =>
        if fst p =? 0
        then ret (fst p, set_last_refreshed refresh_gen (load_inode inode sinode))
        else ret (fst p, inode)
    | None => ret (fst p, inode)
    end
  else ret (0, inode).

(** ** The pool of free inode numbers *)

Definition U64_MAX : Z := 2 ^ 64 - 1.   (* ~0ULL *)

(** struct free_ino_pool without its spin lock and wait queue, which the
    steps below stand for. *)
Record free_ino_pool := {
  pool_ino : Z;
  pool_nr : Z;
  in_flight : bool
}.

Definition scoutfs_inode_fill_pool (ino nr : Z) (pool : free_ino_pool)
    : free_ino_pool :=
  {| pool_ino := ino; pool_nr := nr; in_flight := false |}.

(** Where a task is in [scoutfs_alloc_ino]:
    - [at_lock]: about to take [pool->lock] and test the while condition,
      on entry and again after each wait;
    - [at_request]: it has set [in_flight], dropped the lock and is about to
      call [scoutfs_client_alloc_inodes];
    - [at_wait]: in [wait_event_interruptible];
    - [returned ret ino]: it has returned [ret] with [*ino = ino]. *)
Inductive alloc_pc :=
  | at_lock
  | at_request
  | at_wait
  | returned (ret : Z) (ino : Z).

(** What a task does between [spin_lock] and [spin_unlock]: the test of
    the while condition and then either the head of the loop body or the
    code behind the loop.  [pool->ino++] is a u64. *)
Definition alloc_locked (pool : free_ino_pool) : free_ino_pool * alloc_pc :=
  if (pool_nr pool =? 0) && negb (pool_ino pool =? U64_MAX) then
    if in_flight pool then (pool, at_wait)
    else ({| pool_ino := pool_ino pool; pool_nr := pool_nr pool;
             in_flight := true |}, at_request)
  else if pool_nr pool =? 0 then (pool, returned (- ENOSPC) 0)
  else ({| pool_ino := (pool_ino pool + 1) mod 2 ^ 64;
           pool_nr := pool_nr pool - 1;
           in_flight := in_flight pool |}, returned 0 (pool_ino pool)).

(** The pool, the tasks that are in [scoutfs_alloc_ino], how many requests
    [scoutfs_client_alloc_inodes] has sent and how many of them have not
    been answered yet. *)
Record pool_state := {
  pool : free_ino_pool;
  tasks : list alloc_pc;
  requests : nat;
  outstanding : nat
}.

(** What can happen next:
    - [run t]: task [t] runs up to its next unlock, its request is sent, or
      its wait ends because no request is in flight;
    - [request_fails t f]: the call of [scoutfs_client_alloc_inodes] by
      task [t] fails with [f];
    - [interrupt t]: a signal ends the wait of task [t];
    - [fill ino nr]: the reply to the request arrives and the net layer
      calls [scoutfs_inode_fill_pool]. *)
Inductive pool_event :=
  | run (t : nat)
  | request_fails (t : nat) (f : fault)
  | interrupt (t : nat)
  | fill (ino nr : Z).

Definition set_task (t : nat) (pc : alloc_pc) (p : free_ino_pool)
    (s : pool_state) : pool_state :=
  {| pool := p; tasks := <[t := pc]> (tasks s); requests := requests s;
     outstanding := outstanding s |}.

(** One step; [None] when the event cannot happen in this state: a task
    that has returned does not run, a wait does not end while a request is
    in flight, a signal only matters to a task that sleeps, and a reply
    answers a request. *)
Definition pool_step (e : pool_event) (s : pool_state) : option pool_state :=
  match e with
  | run t =>
      match tasks s !! t with
      | Some at_lock =>
          let '(p, pc) := alloc_locked (pool s) in Some (set_task t pc p s)
      | Some at_request =>
          Some {| pool := pool s; tasks := <[t := at_wait]> (tasks s);
                  requests := S (requests s);
                  outstanding := S (outstanding s) |}
      | Some at_wait =>
          if in_flight (pool s) then None
          else Some (set_task t at_lock (pool s) s)
      | _ => None
      end
  | request_fails t f =>
      match tasks s !! t with
      | Some at_request =>
          Some (set_task t (returned (- fault_errno f) 0)
                  {| pool_ino := pool_ino (pool s); pool_nr := pool_nr (pool s);
                     in_flight := false |} s)
      | _ => None
      end
  | interrupt t =>
      match tasks s !! t with
      | Some at_wait =>
          if in_flight (pool s)
          then Some (set_task t (returned (- ERESTARTSYS) 0) (pool s) s)
          else None
      | _ => None
      end
  | fill ino nr =>
      match outstanding s with
      | O => None
      | S n =>
          Some {| pool := scoutfs_inode_fill_pool ino nr (pool s);
                  tasks := tasks s; requests := requests s;
                  outstanding := n |}
      end
  end.

Fixpoint pool_run (es : list pool_event) (s : pool_state) : option pool_state :=
  match es with
  | [] => Some s
  | e :: es =>
      match pool_step e s with
      | Some s' => pool_run es s'
      | None => None
      end
  end.

(** [k] tasks enter [scoutfs_alloc_ino] with the pool [p]. *)
Definition pool_init (k : nat) (p : free_ino_pool) : pool_state :=
  {| pool := p; tasks := replicate k at_lock; requests := 0; outstanding := 0 |}.

(** ** Inodes with dirty pages *)

(** The rbtree [writeback_inodes] is keyed by inode number; it is kept as
    the list of the inodes in it, in key order, which is the order in which
    [rb_first] and [rb_next] walk it.  The vfs has one inode for an inode
    number, so an inode stands for its number; its [writeback_node] is
    linked when the inode is in the tree. *)
Definition RB_EMPTY_NODE (root : list Z) (ino : Z) : bool :=
  negb (bool_decide (ino ∈ root)).

Definition rb_first (root : list Z) : option Z := head root.

(** The inode after [ino] in key order. *)
Definition rb_next (root : list Z) (ino : Z) : option Z :=
  head (filter (λ x, ino < x) root).

(** The descent of [insert_writeback_inode] links the new inode left of the
    first greater one; [None] is the [BUG()] for an inode number that is in
    the tree already. *)
Fixpoint insert_writeback_inode (root : list Z) (ins : Z) : option (list Z) :=
  match root with
  | [] => Some [ins]
  | si :: rest =>
      if ins <? si then Some (ins :: si :: rest)
      else if ins >? si then cons si <$> insert_writeback_inode rest ins
      else None
  end.

Definition remove_writeback_inode (root : list Z) (ino : Z) : list Z :=
  if negb (RB_EMPTY_NODE root ino) then filter (λ x, x ≠ ino) root else root.

Definition scoutfs_inode_queue_writeback (root : list Z) (ino : Z)
    : option (list Z) :=
  if RB_EMPTY_NODE root ino then insert_writeback_inode root ino else Some root.

(** What the vfs does for the walk: whether [igrab] gets a reference to the
    inode (it does not when the inode is being freed), and what
    [filemap_fdatawrite] and [filemap_fdatawait] return for its pages. *)
Variable igrab : Z → bool.
Variable filemap_fdatawrite : Z → Z.
Variable filemap_fdatawait : Z → Z.

(** The while loop of [scoutfs_inode_walk_writeback].  No other task
    changes the tree while the lock is dropped around the vfs call.
    [node] is the cursor, [ret] is [None] as long as nothing was assigned to
    it, [visited] lists the inodes for which the vfs was called; [fuel]
    bounds the number of passes.  The result is the tree, [ret] and
    [visited] when the function returns. *)
Fixpoint walk_writeback (fuel : nat) (write : bool) (root : list Z)
    (node : option Z) (ret : option Z) (visited : list Z)
    : option (list Z * option Z * list Z) :=
  match fuel with
  | O => None
  | S fuel =>
      match node with
      | None => Some (root, ret, visited)
      | Some si =>
          let node := rb_next root si in
          if negb (igrab si) then walk_writeback fuel write root node ret visited
          else
            let r := if write then filemap_fdatawrite si
                     else filemap_fdatawait si in
            let visited := visited ++ [si] in
            if negb (r =? 0) then Some (root, Some r, visited)
            else
              let node := if RB_EMPTY_NODE root si then rb_first root
                          else rb_next root si in
              let root := if negb write then remove_writeback_inode root si
                          else root in
              walk_writeback fuel write root node (Some r) visited
      end
  end.

Definition scoutfs_inode_walk_writeback (fuel : nat) (write : bool)
    (root : list Z) : option (list Z * option Z * list Z) :=
  walk_writeback fuel write root (rb_first root) None [].

(** ** Writing the inode item *)

(** The value that a conversion to a 32 or 64 bit unsigned type keeps. *)
Definition u32 (x : Z) : Z := x mod 2 ^ 32.
Definition u64 (x : Z) : Z := x mod 2 ^ 64.

Definition set_ci_meta_seq (seq : Z) (si : scoutfs_inode_info) : scoutfs_inode_info :=
  {| ino := ino si; i_size := i_size si; i_nlink := i_nlink si;
     i_uid := i_uid si; i_gid := i_gid si; i_mode := i_mode si;
     i_rdev := i_rdev si; i_atime := i_atime si; i_mtime := i_mtime si;
     i_ctime := i_ctime si; ci_meta_seq := seq;
     ci_data_seq := ci_data_seq si; ci_data_version := ci_data_version si;
     ci_next_readdir_pos := ci_next_readdir_pos si; ci_flags := ci_flags si;
     have_item := have_item si; item_majors := item_majors si;
     item_minors := item_minors si; last_refreshed := last_refreshed si |}.

Definition set_ci_data_seq (seq : Z) (si : scoutfs_inode_info) : scoutfs_inode_info :=
  {| ino := ino si; i_size := i_size si; i_nlink := i_nlink si;
     i_uid := i_uid si; i_gid := i_gid si; i_mode := i_mode si;
     i_rdev := i_rdev si; i_atime := i_atime si; i_mtime := i_mtime si;
     i_ctime := i_ctime si; ci_meta_seq := ci_meta_seq si;
     ci_data_seq := seq; ci_data_version := ci_data_version si;
     ci_next_readdir_pos := ci_next_readdir_pos si; ci_flags := ci_flags si;
     have_item := have_item si; item_majors := item_majors si;
     item_minors := item_minors si; last_refreshed := last_refreshed si |}.

Definition set_ci_data_version (v : Z) (si : scoutfs_inode_info) : scoutfs_inode_info :=
  {| ino := ino si; i_size := i_size si; i_nlink := i_nlink si;
     i_uid := i_uid si; i_gid := i_gid si; i_mode := i_mode si;
     i_rdev := i_rdev si; i_atime := i_atime si; i_mtime := i_mtime si;
     i_ctime := i_ctime si; ci_meta_seq := ci_meta_seq si;
     ci_data_seq := ci_data_seq si; ci_data_version := v;
     ci_next_readdir_pos := ci_next_readdir_pos si; ci_flags := ci_flags si;
     have_item := have_item si; item_majors := item_majors si;
     item_minors := item_minors si; last_refreshed := last_refreshed si |}.

(** [set_trans_seq] with [*seq] passed in and handed back: it is written
    only when it differs from [sbi->trans_seq]. *)
Definition set_trans_seq (seq : Z) : M Z :=
  cur <- get trans_seq ;;
  ret (if negb (seq =? cur) then cur else seq).

Definition scoutfs_inode_set_meta_seq (inode : scoutfs_inode_info)
    : M scoutfs_inode_info :=
  seq <- set_trans_seq (ci_meta_seq inode) ;;
  ret (set_ci_meta_seq seq inode).

Definition scoutfs_inode_set_data_seq (inode : scoutfs_inode_info)
    : M scoutfs_inode_info :=
  seq <- set_trans_seq (ci_data_seq inode) ;;
  ret (set_ci_data_seq seq inode).

(** [si->data_version++] on a u64. *)
Definition scoutfs_inode_inc_data_version (inode : scoutfs_inode_info)
    : scoutfs_inode_info :=
  set_ci_data_version (u64 (ci_data_version inode + 1)) inode.

(** [read_seqcount_u64] reads again until no writer was in between; with
    one task at a time it returns the value. *)
Definition scoutfs_inode_meta_seq (inode : scoutfs_inode_info) : Z :=
  ci_meta_seq inode.
Definition scoutfs_inode_data_seq (inode : scoutfs_inode_info) : Z :=
  ci_data_seq inode.
Definition scoutfs_inode_data_version (inode : scoutfs_inode_info) : Z :=
  ci_data_version inode.

Definition store_timespec (t : timespec) : timespec :=
  {| tv_sec := u64 (tv_sec t); tv_nsec := u32 (tv_nsec t) |}.

(** [store_inode]: [i_size] is a signed [loff_t] and the times are a signed
    [tv_sec] and a [long tv_nsec]; they go into an le64 and an le32.  The
    other fields of the inode are unsigned and no wider than the fields of
    the item. *)
Definition store_inode (inode : scoutfs_inode_info) : scoutfs_inode :=
  {| size := u64 (i_size inode);
     nlink := i_nlink inode;
     uid := i_uid inode;
     gid := i_gid inode;
     mode := i_mode inode;
     rdev := i_rdev inode;
     atime := store_timespec (i_atime inode);
     ctime := store_timespec (i_ctime inode);
     mtime := store_timespec (i_mtime inode);
     meta_seq := scoutfs_inode_meta_seq inode;
     data_seq := scoutfs_inode_data_seq inode;
     data_version := scoutfs_inode_data_version inode;
     next_readdir_pos := ci_next_readdir_pos inode;
     flags := ci_flags inode |}.

(** Modelled from the spec: [update(key,val) -> Ok] of the record store
    (item.c is missing): the value of the item is replaced.  The call is
    not put on the trace. *)
Definition scoutfs_item_update (k : key) (val : option scoutfs_inode)
    (lock : option scoutfs_lock) : M Z :=
  f <- next_fault ;;
  match f with
  | Some f => ret (- fault_errno f)
  | None => modify (set_items (insert k val)) ;;; ret 0
  end.

(** The inode is passed in and handed back; [BUG_ON] is [bug]. *)
Definition scoutfs_update_inode_item (inode : scoutfs_inode_info)
    (lock : option scoutfs_lock) (lock_list : list index_lock)
    : M scoutfs_inode_info :=
  inode <- scoutfs_inode_set_meta_seq inode ;;
  let sinode := store_inode inode in
  r <- update_indices (Some inode) (ino inode) (i_mode inode) sinode lock_list ;;
  if negb (r =? 0) then bug else
  err <- scoutfs_item_update (inode_key (ino inode)) (Some sinode) lock ;;
  if negb (err =? 0) then bug else
  ret (set_item_info inode sinode).

(** [scoutfs_destroy_inode] takes the inode out of the tree before it is
    freed; [call_rcu] frees it later. *)
Definition scoutfs_destroy_inode (root : list Z) (ino : Z) : list Z :=
  remove_writeback_inode root ino.

(** ** Concrete inputs *)

Definition example_range (type : index_type) (major ino : Z) : Z * Z * Z :=
  (Z.shiftl (Z.shiftr major 4) 4, 0, 0).

Definition zero_time : timespec := {| tv_sec := 0; tv_nsec := 0 |}.

(** A regular file of size [sz] with [n] links, both seqs 3. *)
Definition example_sinode (sz n : Z) : scoutfs_inode :=
  {| size := sz; nlink := n; uid := 0; gid := 0; mode := 33188; rdev := 0;
     atime := zero_time; ctime := zero_time; mtime := zero_time;
     meta_seq := 3; data_seq := 3; data_version := 0;
     next_readdir_pos := 0; flags := 0 |}.

(** Inode 5 as it is cached after its item [example_sinode sz 1] was read
    with a lock of refresh generation [gen]. *)
Definition example_inode (sz gen : Z) : scoutfs_inode_info :=
  {| ino := 5; i_size := sz; i_nlink := 1; i_uid := 0; i_gid := 0;
     i_mode := 33188; i_rdev := 0; i_atime := zero_time;
     i_mtime := zero_time; i_ctime := zero_time; ci_meta_seq := 3;
     ci_data_seq := 3; ci_data_version := 0; ci_next_readdir_pos := 0;
     ci_flags := 0; have_item := true;
     item_majors := {| at_size := sz; at_meta_seq := 3; at_data_seq := 3 |};
     item_minors := {| at_size := 0; at_meta_seq := 0; at_data_seq := 0 |};
     last_refreshed := gen |}.

(** A world with the given items and scripts, transaction seq 7, node 1,
    nothing held and nothing called yet. *)
Definition example_world (its : gmap key (option scoutfs_inode))
    (fl : list (option fault)) (cm : list bool) : world :=
  {| items := its; trans_seq := 7; node_id := 1; holders := 0; held := ∅;
     faults := fl; commits := cm; trace := [] |}.

(** The items of inode 5 with size 10 and [n] links: the inode item, its
    three index items and its orphan item. *)
Definition example_items (n : Z) : gmap key (option scoutfs_inode) :=
  <[inode_key 5 := Some (example_sinode 10 n)]>
    (<[inode_index_key SCOUTFS_INODE_INDEX_SIZE_TYPE 10 0 5 := None]>
       (<[inode_index_key SCOUTFS_INODE_INDEX_META_SEQ_TYPE 3 0 5 := None]>
          (<[inode_index_key SCOUTFS_INODE_INDEX_DATA_SEQ_TYPE 3 0 5 := None]>
             (<[orphan_key 1 5 := None]> ∅)))).

(** ** The vocabulary of the theorems *)

(** The items after a run of [update_index_items] in which no call is
    failed: the item of the new key is there and the item of the old key is
    gone. *)
Definition updated_items (si : option scoutfs_inode_info) (ino : Z)
    (type : index_type) (major minor : Z)
    (its : gmap key (option scoutfs_inode)) : gmap key (option scoutfs_inode) :=
  if will_ins_index si type major minor then
    match si with
    | Some s =>
        if will_del_index si type major minor
        then delete (inode_index_key type (idx (item_majors s) type)
                       (idx (item_minors s) type) ino)
               (<[inode_index_key type major minor ino := None]> its)
        else <[inode_index_key type major minor ino := None]> its
    | None => <[inode_index_key type major minor ino := None]> its
    end
  else its.

(** How many entries of a commit script are true. *)
Fixpoint count_true (l : list bool) : nat :=
  match l with
  | [] => O
  | b :: l => if b then S (count_true l) else count_true l
  end.

(** The commits that have yet to finish while this task waits. *)
Definition pending_commits (w : world) : nat := count_true (commits w).

(** [w'] is [w] after calls that touch no item: the items and the node id
    are the same, every commit that finished moved [trans_seq] by one, and a
    fault script that was used up stays used up. *)
Record quiet (w w' : world) : Prop := {
  quiet_items : items w' = items w;
  quiet_node_id : node_id w' = node_id w;
  quiet_seq : trans_seq w' + Z.of_nat (pending_commits w')
              = trans_seq w + Z.of_nat (pending_commits w);
  quiet_pending : (pending_commits w' ≤ pending_commits w)%nat;
  quiet_faults : faults w = [] → faults w' = []
}.

(** [w'] is [w] after calls that neither block nor take anything: only the
    fault script and the trace have moved. *)
Record still (w w' : world) : Prop := {
  still_quiet : quiet w w';
  still_commits : commits w' = commits w;
  still_trans_seq : trans_seq w' = trans_seq w;
  still_held : held w' = held w;
  still_holders : holders w' = holders w
}.

(** The outcome of a step that prepares locks: it returns, with 0 or an
    error, and with 0 when no call can fail. *)
Definition prepares (m : M (Z * list index_lock)) (w : world) : Prop :=
  ∃ r l' w', m w = Ret (r, l') w' ∧ still w w' ∧ r ≤ 0 ∧ (faults w = [] → r = 0).

(** The locks that the entries of a list hold. *)
Definition lock_names (l : list index_lock) : gmultiset lock_name :=
  list_to_set_disj (omap (λ il, lk_name <$> il_lock il) l).

(** An entry with the lock that [scoutfs_lock_inode_index] grants for it. *)
Definition locked (il : index_lock) : index_lock :=
  with_lock il
    (Some {| lk_name := index_lock_name (il_type il) (il_major il) (il_ino il) |}).

(** The unlock calls for the entries of a list that hold a lock. *)
Definition unlock_events (l : list index_lock) : list event :=
  omap (λ il, (λ lk, {| ev_call := c_unlock (lk_name lk) DLM_LOCK_CW;
                         ev_ret := 0 |}) <$> il_lock il) l.

(** The value of an inode item that each index is keyed by. *)
Definition indexed (sinode : scoutfs_inode) (type : index_type) : Z :=
  match type with
  | SCOUTFS_INODE_INDEX_SIZE_TYPE => size sinode
  | SCOUTFS_INODE_INDEX_META_SEQ_TYPE => meta_seq sinode
  | SCOUTFS_INODE_INDEX_DATA_SEQ_TYPE => data_seq sinode
  end.

(** What a run of item deletions can have done to the items: an item is
    gone or as it was. *)
Definition only_deleted (its its' : gmap key (option scoutfs_inode)) : Prop :=
  ∀ k, its' !! k = None ∨ its' !! k = its !! k.

(** An inode item that [delete_inode_items] can delete, now or when it is
    run again: the item has no links, or is gone already. *)
Definition reclaimable (ino : Z) (its : gmap key (option scoutfs_inode)) : Prop :=
  match its !! inode_key ino with
  | Some (Some s) => nlink s = 0
  | Some None => False
  | None => True
  end.

(** The items of [ino] are gone: the inode item that was [s], the orphan
    item, and the index items that an inode of its mode has. *)
Definition reclaimed (ino : Z) (s : scoutfs_inode) (w : world) : Prop :=
  items w !! inode_key ino = None ∧
  items w !! orphan_key (node_id w) ino = None ∧
  ∀ type, inode_has_index (mode s) type = true →
          items w !! inode_index_key type (indexed s type) 0 ino = None.

(** What a run of [delete_inode_items] on [w] that returned [r] in [w'] has
    done: it only deleted items; the orphan item is as it was unless the run
    returned 0 after it had deleted the inode item, which had no links, and
    the index items with it; a run of an inode that can be reclaimed, in
    which no call is failed, returns 0; and after a run that returned 0
    there is no inode item. *)
Definition delete_inode_items_post (ino : Z) (w : world) (r : Z) (w' : world)
    : Prop :=
  node_id w' = node_id w ∧ only_deleted (items w) (items w') ∧
  (items w' !! orphan_key (node_id w) ino
     = items w !! orphan_key (node_id w) ino ∨
   (r = 0 ∧ ∃ s, items w !! inode_key ino = Some (Some s) ∧ nlink s = 0 ∧
                 reclaimed ino s w')) ∧
  (faults w = [] → reclaimable ino (items w) → r = 0 ∧ faults w' = []) ∧
  (r = 0 → items w' !! inode_key ino = None).

(** Counting tasks: the sum of [f] over the tasks. *)
Fixpoint total (f : alloc_pc → nat) (l : list alloc_pc) : nat :=
  match l with
  | [] => O
  | pc :: l => (f pc + total f l)%nat
  end.










(** The fields that [cmp_index_lock] compares, in the order in which it
    compares them. *)
Definition index_lock_key (il : index_lock) : Z * Z * Z * Z :=
  (index_type_num (il_type il), il_major il, il_minor il, il_ino il).

(** The lexicographic order on these fields. *)
Definition key_lt (a b : Z * Z * Z * Z) : Prop :=
  let '(t1, ma1, mi1, i1) := a in
  let '(t2, ma2, mi2, i2) := b in
  t1 < t2 ∨ (t1 = t2 ∧ (ma1 < ma2 ∨ (ma1 = ma2 ∧
    (mi1 < mi2 ∨ (mi1 = mi2 ∧ i1 < i2))))).

(** A list in the order of [cmp_index_lock], with and without entries that
    compare equal. *)
Definition index_sorted (l : list index_lock) : Prop :=
  StronglySorted (λ a b, cmp_index_lock a b ≤ 0) l.

Definition index_strictly_sorted (l : list index_lock) : Prop :=
  StronglySorted (λ a b, cmp_index_lock a b < 0) l.

(** No two entries of the list compare equal. *)
Definition distinct_keys (l : list index_lock) : Prop :=
  NoDup (map index_lock_key l).

(** No entry of the list holds a lock. *)
Definition unlocked (l : list index_lock) : Prop :=
  Forall (λ il, il_lock il = None) l.

(** The entry that [add_index_lock] makes for an index item. *)
Definition clamped (ino : Z) (type : index_type) (major minor : Z) : index_lock :=
  let '(major, minor, ino) := clamp_inode_index type major minor ino in
  {| il_lock := None; il_type := type; il_major := major; il_minor := minor;
     il_ino := ino |}.

(** The list holds a lock that covers the index item: [find_index_lock]
    returns the lock that [scoutfs_lock_inode_index] granted for the entry
    of the item. *)
Definition covered (lst : list index_lock) (ino : Z) (type : index_type)
    (major minor : Z) : Prop :=
  find_index_lock lst type major minor ino
  = il_lock (locked (clamped ino type major minor)).

(** The lock calls for the entries of a list, all granted. *)
Definition lock_events (l : list index_lock) : list event :=
  map (λ il, {| ev_call := c_lock (index_lock_name (il_type il) (il_major il)
                                     (il_ino il)) DLM_LOCK_CW;
                ev_ret := 0 |}) l.

(** What preparing does to a list: entries are only added, none of them
    twice and none with a lock. *)
Definition extends (lst l' : list index_lock) : Prop :=
  (distinct_keys lst → distinct_keys l') ∧
  (unlocked lst → unlocked l') ∧
  (∀ k, k ∈ map index_lock_key lst → k ∈ map index_lock_key l').

(** The data seq that [upd_data_seq] predicts when the transaction seq is
    [seq]. *)
Definition data_seq_after (si : scoutfs_inode_info) (set_data_seq : bool)
    (seq : Z) : Z :=
  if negb (have_item si) || set_data_seq then seq
  else idx (item_majors si) SCOUTFS_INODE_INDEX_DATA_SEQ_TYPE.

(** The entries that a list needs for one index update of an inode: the
    entry of the item that will be created and the entry of the item that
    will be deleted. *)
Definition prepared_for (si : option scoutfs_inode_info) (ino : Z)
    (l : list index_lock) (u : index_type * Z * Z) : Prop :=
  let '(type, major, minor) := u in
  (will_ins_index si type major minor = true →
   index_lock_key (clamped ino type major minor) ∈ map index_lock_key l) ∧
  (∀ s, si = Some s → will_del_index si type major minor = true →
        index_lock_key (clamped ino type (idx (item_majors s) type)
                          (idx (item_minors s) type))
        ∈ map index_lock_key l).

(** The list holds the locks for one index update of an inode: a lock that
    covers the item that will be created and a lock that covers the item
    that will be deleted. *)
Definition covers_update (si : scoutfs_inode_info) (l : list index_lock)
    (u : index_type * Z * Z) : Prop :=
  let '(type, major, minor) := u in
  (will_ins_index (Some si) type major minor = true →
   covered l (ino si) type major minor) ∧
  (will_del_index (Some si) type major minor = true →
   covered l (ino si) type (idx (item_majors si) type)
     (idx (item_minors si) type)).

(** The inode that an item belongs to. *)
Definition key_ino (k : key) : Z :=
  match k with
  | inode_key ino => ino
  | inode_index_key _ _ _ ino => ino
  | orphan_key _ ino => ino
  end.

(** The items of all inodes but [ino] are what they were. *)
Definition others_kept (ino : Z) (its its' : gmap key (option scoutfs_inode))
    : Prop :=
  ∀ k, key_ino k ≠ ino → its' !! k = its !! k.

(** The items after the updates of [update_indices] in which no call is
    failed. *)
Fixpoint updated_indices (si : option scoutfs_inode_info) (ino mode : Z)
    (upds : list (index_type * Z * Z))
    (its : gmap key (option scoutfs_inode)) : gmap key (option scoutfs_inode) :=
  match upds with
  | [] => its
  | (type, major, minor) :: upds =>
      updated_indices si ino mode upds
        (if inode_has_index mode type
         then updated_items si ino type major minor its else its)
  end.

(** The index items of an inode are in line with what the inode info
    remembers: for each index that an inode of its mode has there is the
    item of the remembered major and minor, and there is no other index
    item of the inode; an inode that has no item yet has no index items. *)
Definition index_items_exact (inode : scoutfs_inode_info)
    (its : gmap key (option scoutfs_inode)) : Prop :=
  ∀ type major minor,
    its !! inode_index_key type major minor (ino inode)
    = if have_item inode && inode_has_index (i_mode inode) type &&
         (major =? idx (item_majors inode) type) &&
         (minor =? idx (item_minors inode) type)
      then Some None else None.

(** A time that [store_timespec] keeps: seconds that fit the le64 and
    nanoseconds that fit the le32 of the item. *)
Definition time_fits (t : timespec) : Prop :=
  0 ≤ tv_sec t < 2 ^ 64 ∧ 0 ≤ tv_nsec t < 2 ^ 32.

(** An item whose size and times are values of their le64 and le32 fields
    and whose mode fits the 16 bits of [i_mode]. *)
Definition item_fits (c : scoutfs_inode) : Prop :=
  0 ≤ size c < 2 ^ 64 ∧ 0 ≤ mode c < 2 ^ 16 ∧
  time_fits (atime c) ∧ time_fits (ctime c) ∧ time_fits (mtime c).

(** An inode whose size and times are not negative and whose nanoseconds
    fit 32 bits. *)
Definition inode_fits (i : scoutfs_inode_info) : Prop :=
  0 ≤ i_size i < 2 ^ 64 ∧
  time_fits (i_atime i) ∧ time_fits (i_ctime i) ∧ time_fits (i_mtime i).

(** An event that is not the arrival of a reply. *)
Definition no_refill (e : pool_event) : Prop :=
  match e with
  | fill _ _ => False
  | _ => True
  end.

(** The numbers that tasks have returned with so far come from the range
    that starts at [first] and ends before [top], each was returned once,
    and the pool holds what is left of the range. *)
Definition handed_out (first top : Z) (s : pool_state) : Prop :=
  first ≤ pool_ino (pool s) ∧ 0 ≤ pool_nr (pool s) ∧
  pool_ino (pool s) + pool_nr (pool s) = top ∧
  (∀ t i, tasks s !! t = Some (returned 0 i) →
          first ≤ i < pool_ino (pool s)) ∧
  (∀ t1 t2 i, tasks s !! t1 = Some (returned 0 i) →
              tasks s !! t2 = Some (returned 0 i) → t1 = t2).

(** A pool whose range ends right below the mark for no numbers left, in
    which no task has asked for more or waits. *)
Definition ends_at_mark (s : pool_state) : Prop :=
  0 ≤ pool_ino (pool s) ∧ 0 ≤ pool_nr (pool s) ∧
  pool_ino (pool s) + pool_nr (pool s) = U64_MAX ∧
  in_flight (pool s) = false ∧ requests s = O ∧ outstanding s = O ∧
  ∀ t pc, tasks s !! t = Some pc →
          pc = at_lock ∨ pc = returned (- ENOSPC) 0 ∨
          ∃ i, pc = returned 0 i ∧ i < U64_MAX.

(** The vfs call that a walk makes for an inode. *)
Definition walk_call (write : bool) (i : Z) : Z :=
  if write then filemap_fdatawrite i else filemap_fdatawait i.

(** What a walk over the inodes [l], in key order, comes to: the inodes of
    [l] that are left in the tree, the value of [ret], and the inodes for
    which the vfs was called. *)
Fixpoint walked (write : bool) (l : list Z) (ret : option Z)
    : list Z * option Z * list Z :=
  match l with
  | [] => ([], ret, [])
  | si :: rest =>
      if negb (igrab si) then
        let '(stay, r, v) := walked write rest ret in (si :: stay, r, v)
      else if negb (walk_call write si =? 0) then
        (si :: rest, Some (walk_call write si), [si])
      else
        let '(stay, r, v) := walked write rest (Some (walk_call write si)) in
        (if write then si :: stay else stay, r, si :: v)
  end.

(** ** Running the calls into other subsystems *)

Lemma unit_call_run c op w :
  unit_call c op w =
    match hd_fault w with
    | Some f =>
        Ret (- fault_errno f) (logged c (- fault_errno f) (set_faults tail w))
    | None =>
        match op (set_faults tail w) with
        | Ret r w' => Ret r (logged c r w')
        | Bug w' => Bug w'
        | OutOfFuel => OutOfFuel
        end
    end.
Proof.
  unfold unit_call, external, bind, next_fault, log, modify, ret.
  destruct (hd_fault w); [done|].
  by destruct (op (set_faults tail w)).
Qed.

Lemma scoutfs_item_create_force_run k v l w :
  scoutfs_item_create_force k v l w =
    match hd_fault w with
    | Some f =>
        Ret (- fault_errno f)
          (logged (c_item_create_force k) (- fault_errno f) (set_faults tail w))
    | None =>
        Ret 0 (logged (c_item_create_force k) 0
                 (set_items (insert k v) (set_faults tail w)))
    end.
Proof. unfold scoutfs_item_create_force. by rewrite unit_call_run. Qed.

Lemma scoutfs_item_delete_force_run k l w :
  scoutfs_item_delete_force k l w =
    match hd_fault w with
    | Some f =>
        Ret (- fault_errno f)
          (logged (c_item_delete_force k) (- fault_errno f) (set_faults tail w))
    | None =>
        Ret 0 (logged (c_item_delete_force k) 0
                 (set_items (delete k) (set_faults tail w)))
    end.
Proof. unfold scoutfs_item_delete_force. by rewrite unit_call_run. Qed.

Lemma scoutfs_item_delete_run k l w :
  scoutfs_item_delete k l w =
    match hd_fault w with
    | Some f =>
        Ret (- fault_errno f)
          (logged (c_item_delete k) (- fault_errno f) (set_faults tail w))
    | None =>
        match items w !! k with
        | None => Ret (- ENOENT) (logged (c_item_delete k) (- ENOENT) (set_faults tail w))
        | Some _ =>
            Ret 0 (logged (c_item_delete k) 0
                     (set_items (delete k) (set_faults tail w)))
        end
    end.
Proof.
  unfold scoutfs_item_delete. rewrite unit_call_run.
  destruct (hd_fault w); [done|].
  unfold bind, get, modify, ret. cbn [items set_faults].
  by destruct (items w !! k).
Qed.

Lemma scoutfs_item_lookup_exact_run k l w :
  scoutfs_item_lookup_exact k l w =
    match hd_fault w with
    | Some f =>
        Ret (- fault_errno f, None)
          (logged (c_item_lookup_exact k) (- fault_errno f) (set_faults tail w))
    | None =>
        match items w !! k with
        | None =>
            Ret (- ENOENT, None)
              (logged (c_item_lookup_exact k) (- ENOENT) (set_faults tail w))
        | Some None =>
            Ret (- EIO, None)
              (logged (c_item_lookup_exact k) (- EIO) (set_faults tail w))
        | Some (Some v) =>
            Ret (0, Some v) (logged (c_item_lookup_exact k) 0 (set_faults tail w))
        end
    end.
Proof.
  unfold scoutfs_item_lookup_exact, external, bind, next_fault, log, modify,
    get, ret.
  destruct (hd_fault w); [done|]. cbn [items set_faults].
  by destruct (items w !! k) as [[?|]|].
Qed.

Lemma fault_errno_nonzero f : (- fault_errno f =? 0) = false.
Proof. by destruct f. Qed.

(** ** Index items are brought in line with the inode item *)

Lemma will_del_index_ins si type major minor :
  will_del_index si type major minor = true →
  will_ins_index si type major minor = true.
Proof.
  destruct si as [s|]; simpl; [|done].
  intros [_ ->]%andb_prop. by rewrite orb_true_r.
Qed.

(** C1: when the new index item was created and deleting the old one fails
    with [e], [update_index_items] deletes the item it created and returns
    [e]'s error: three calls are made, the last one the delete of the new
    key, and with it the item cache holds no item under the new key.  If
    that last delete fails as well the function does not return: it hits
    [BUG_ON(err)]. *)
Theorem update_index_items_undo (s : scoutfs_inode_info) (ino : Z)
    (type : index_type) (major minor : Z) (lock_list : list index_lock)
    (w : world) (e : fault) (rest : list (option fault)) :
  will_del_index (Some s) type major minor = true →
  faults w = None :: Some e :: rest →
  let ins := inode_index_key type major minor ino in
  let del := inode_index_key type (idx (item_majors s) type)
               (idx (item_minors s) type) ino in
  let undo := next_of rest in
  ∃ w',
    update_index_items (Some s) ino type major minor lock_list w =
      match undo with
      | None => Ret (- fault_errno e) w'
      | Some _ => Bug w'
      end ∧
    trace w' = trace w ++
      [ {| ev_call := c_item_create_force ins; ev_ret := 0 |};
        {| ev_call := c_item_delete_force del; ev_ret := - fault_errno e |};
        {| ev_call := c_item_delete ins;
           ev_ret := match undo with
                     | None => 0
                     | Some u => - fault_errno u
                     end |} ] ∧
    (undo = None → items w' = delete ins (items w) ∧ items w' !! ins = None).
Proof.
  intros Hdel Hf ins del undo.
  pose proof (will_del_index_ins _ _ _ _ Hdel) as Hins.
  unfold update_index_items. rewrite Hins, Hdel. cbn [negb]. unfold bind.
  rewrite scoutfs_item_create_force_run.
  unfold hd_fault at 1. rewrite Hf. cbn [negb orb Z.eqb next_of].
  rewrite scoutfs_item_delete_force_run.
  unfold hd_fault at 1. cbn [faults logged set_trace set_items set_faults].
  rewrite Hf. cbn [tail next_of]. rewrite fault_errno_nonzero. cbn [negb].
  rewrite scoutfs_item_delete_run.
  unfold hd_fault at 1. cbn [faults items logged set_trace set_items set_faults].
  rewrite Hf. cbn [tail]. fold ins del.
  subst undo. unfold hd_fault. cbn [faults set_faults next_of].
  destruct rest as [|[u|] rest']; cbn [next_of].
  - rewrite lookup_insert_eq. change (0 =? 0) with true. cbn [negb].
    eexists; split; [reflexivity|].
    cbn [trace items logged set_trace set_items set_faults].
    rewrite <- !app_assoc. split; [done|]. intros _.
    rewrite delete_insert_eq. split; [done|]. apply lookup_delete_eq.
  - rewrite fault_errno_nonzero. cbn [negb].
    eexists; split; [reflexivity|].
    cbn [trace items logged set_trace set_items set_faults].
    rewrite <- !app_assoc. by split.
  - rewrite lookup_insert_eq. change (0 =? 0) with true. cbn [negb].
    eexists; split; [reflexivity|].
    cbn [trace items logged set_trace set_items set_faults].
    rewrite <- !app_assoc. split; [done|]. intros _.
    rewrite delete_insert_eq. split; [done|]. apply lookup_delete_eq.
Qed.

Lemma update_index_items_no_faults si ino type major minor lock_list w :
  faults w = [] →
  ∃ w', update_index_items si ino type major minor lock_list w = Ret 0 w' ∧
        faults w' = [] ∧
        items w' = updated_items si ino type major minor (items w).
Proof.
  intros Hf. unfold update_index_items, updated_items.
  destruct (will_ins_index si type major minor) eqn:Hins; cbn [negb].
  { unfold bind. rewrite scoutfs_item_create_force_run.
    unfold hd_fault. rewrite Hf. cbn [next_of]. change (0 =? 0) with true.
    cbn [negb orb].
    destruct si as [s|]; cbn [will_del_index negb orb].
    2:{ eexists; split; [reflexivity|].
        cbn [faults items logged set_trace set_items set_faults].
        by rewrite Hf. }
    fold (will_del_index (Some s) type major minor).
    destruct (will_del_index (Some s) type major minor) eqn:Hdel; cbn [negb].
    2:{ eexists; split; [reflexivity|].
        cbn [faults items logged set_trace set_items set_faults].
        by rewrite Hf. }
    rewrite scoutfs_item_delete_force_run. unfold hd_fault.
    cbn [faults items logged set_trace set_items set_faults].
    rewrite Hf. cbn [tail next_of]. change (0 =? 0) with true. cbn [negb].
    eexists; split; [reflexivity|].
    cbn [faults items logged set_trace set_items set_faults].
    by rewrite Hf. }
  by exists w.
Qed.

Lemma will_del_index_keys s type major minor ino :
  will_del_index (Some s) type major minor = true →
  inode_index_key type (idx (item_majors s) type) (idx (item_minors s) type) ino
    ≠ inode_index_key type major minor ino.
Proof.
  intros H Heq. injection Heq as H1 H2. unfold will_del_index in H.
  rewrite H1, H2, !Z.eqb_refl in H. by destruct (have_item s).
Qed.

Lemma updated_items_idemp si ino type major minor its :
  updated_items si ino type major minor
    (updated_items si ino type major minor its)
  = updated_items si ino type major minor its.
Proof.
  unfold updated_items.
  destruct (will_ins_index si type major minor); [|done].
  destruct si as [s|]; [|by rewrite insert_insert_eq].
  destruct (will_del_index (Some s) type major minor) eqn:Hdel;
    [|by rewrite insert_insert_eq].
  apply will_del_index_keys with (ino := ino) in Hdel.
  apply map_eq. intros k.
  destruct (decide (k = inode_index_key type (idx (item_majors s) type)
                          (idx (item_minors s) type) ino)) as [->|];
    [by rewrite !lookup_delete_eq|].
  rewrite !lookup_delete_ne by done.
  destruct (decide (k = inode_index_key type major minor ino)) as [->|];
    [by rewrite !lookup_insert_eq|].
  rewrite !lookup_insert_ne by done. rewrite lookup_delete_ne by done.
  by rewrite lookup_insert_ne.
Qed.

(** C3: when the values that the inode info remembers for an index equal
    the new values, [update_index_items] calls nothing, changes nothing and
    returns 0.  Hence: run twice on the same arguments, with no call
    failing, both runs return 0 and the second leaves the items as the first
    left them; and once [set_item_info] has recorded the values of the item
    that was written, [update_indices] for that item does nothing at all. *)
Theorem update_index_items_unchanged_is_noop (si : option scoutfs_inode_info)
    (s : scoutfs_inode_info) (sinode : scoutfs_inode) (ino mode : Z)
    (type : index_type) (major minor : Z) (lock_list : list index_lock)
    (w : world) :
  (have_item s = true →
   idx (item_majors s) type = major →
   idx (item_minors s) type = minor →
   update_index_items (Some s) ino type major minor lock_list w = Ret 0 w) ∧
  (faults w = [] →
   ∃ w1 w2,
     update_index_items si ino type major minor lock_list w = Ret 0 w1 ∧
     update_index_items si ino type major minor lock_list w1 = Ret 0 w2 ∧
     items w2 = items w1) ∧
  update_indices (Some (set_item_info s sinode)) ino mode sinode lock_list w
    = Ret 0 w.
Proof.
  split; [|split].
  - intros Hh Hma Hmi. unfold update_index_items, will_ins_index.
    by rewrite Hh, Hma, Hmi, !Z.eqb_refl.
  - intros Hf.
    destruct (update_index_items_no_faults si ino type major minor lock_list w Hf)
      as (w1 & H1 & Hf1 & Hi1).
    destruct (update_index_items_no_faults si ino type major minor lock_list w1 Hf1)
      as (w2 & H2 & _ & Hi2).
    exists w1, w2. split; [done|]. split; [done|].
    by rewrite Hi2, Hi1, updated_items_idemp.
  - unfold update_indices, index_updates, update_indices_loop, update_index_items.
    cbn [inode_has_index negb will_ins_index set_item_info have_item
         item_majors item_minors idx at_size at_meta_seq at_data_seq].
    rewrite !Z.eqb_refl. cbn [negb orb]. unfold bind, ret.
    change (0 =? 0) with true. cbn [negb].
    by destruct (S_ISREG mode).
Qed.

(** ** What the lock service, the transaction and the allocator leave alone *)

Lemma quiet_refl w : quiet w w.
Proof. by split. Qed.

Lemma quiet_trans w1 w2 w3 : quiet w1 w2 → quiet w2 w3 → quiet w1 w3.
Proof.
  intros [Hi1 Hn1 Hs1 Hp1 Hf1] [Hi2 Hn2 Hs2 Hp2 Hf2].
  split; [congruence|congruence|lia|lia|auto].
Qed.

Lemma quiet_committed w : quiet w (committed w).
Proof.
  destruct w as [its seq nid hold hl fl cm tr].
  split; try done; unfold pending_commits, committed, hd_commit;
    cbn [trans_seq commits set_commits set_trans_seq_of];
    destruct cm as [|[] l]; cbn [tail count_true]; lia.
Qed.

Lemma quiet_logged c r w : quiet w (logged c r w).
Proof. by split. Qed.

Lemma quiet_pop w : quiet w (set_faults tail w).
Proof. split; try done. cbn [faults set_faults]. by intros ->. Qed.

Lemma quiet_set_held f w : quiet w (set_held f w).
Proof. by split. Qed.

Lemma quiet_set_holders f w : quiet w (set_holders f w).
Proof. by split. Qed.

(** [quiet w w'] where [w'] is [w] under a stack of the steps above. *)
Ltac quiet_chain :=
  repeat first
    [ apply quiet_refl
    | assumption
    | eapply quiet_trans; [|apply quiet_logged]
    | eapply quiet_trans; [|apply quiet_set_held]
    | eapply quiet_trans; [|apply quiet_set_holders]
    | eapply quiet_trans; [|apply quiet_pop]
    | eapply quiet_trans; [|apply quiet_committed] ].

Lemma lock_acquire_run l m w :
  lock_acquire l m w =
    match hd_fault w with
    | Some f =>
        Ret (- fault_errno f, None)
          (logged (c_lock l m) (- fault_errno f) (set_faults tail (committed w)))
    | None =>
        Ret (0, Some {| lk_name := l |})
          (logged (c_lock l m) 0
             (set_held (λ h, h ⊎ {[+ l +]}) (set_faults tail (committed w))))
    end.
Proof.
  unfold lock_acquire, may_commit, external, bind, next_fault, log, modify, ret.
  change (hd_fault (committed w)) with (hd_fault w).
  by destruct (hd_fault w).
Qed.

Lemma scoutfs_hold_trans_run w :
  scoutfs_hold_trans w =
    match hd_fault w with
    | Some f =>
        Ret (- fault_errno f)
          (logged c_hold_trans (- fault_errno f) (set_faults tail (committed w)))
    | None =>
        Ret 0 (logged c_hold_trans 0
                 (set_holders S (set_faults tail (committed w))))
    end.
Proof.
  unfold scoutfs_hold_trans, may_commit, bind, modify.
  rewrite unit_call_run.
  change (hd_fault (committed w)) with (hd_fault w).
  by destruct (hd_fault w).
Qed.

Lemma kzalloc_run w :
  kzalloc w =
    match hd_fault w with
    | Some f => Ret (- ENOMEM) (logged c_kzalloc (- ENOMEM) (set_faults tail w))
    | None => Ret 0 (logged c_kzalloc 0 (set_faults tail w))
    end.
Proof.
  unfold kzalloc, bind, next_fault, log, modify, ret.
  by destruct (hd_fault w).
Qed.

Lemma hd_fault_nil w : faults w = [] → hd_fault w = None.
Proof. unfold hd_fault. by intros ->. Qed.

(** *** Preparing locks only allocates *)

Lemma still_refl w : still w w.
Proof. split; [apply quiet_refl|done..]. Qed.

Lemma still_trans w1 w2 w3 : still w1 w2 → still w2 w3 → still w1 w3.
Proof.
  intros [Hq1 Hc1 Hs1 Hh1 Ho1] [Hq2 Hc2 Hs2 Hh2 Ho2].
  split; [by eapply quiet_trans|congruence..].
Qed.

Lemma still_logged_pop c r w : still w (logged c r (set_faults tail w)).
Proof. split; [quiet_chain|done..]. Qed.

Lemma prepares_ret r l w : r = 0 → prepares (ret (r, l)) w.
Proof. intros ->. exists 0, l, w. by split; [|split; [apply still_refl|]]. Qed.

Lemma add_index_lock_prepares lst ino type major minor w :
  prepares (add_index_lock lst ino type major minor) w.
Proof.
  unfold add_index_lock.
  destruct (clamp_inode_index type major minor ino) as [[ma mi] i].
  destruct (existsb _ lst); [by apply prepares_ret|].
  unfold prepares, bind. rewrite kzalloc_run.
  destruct (hd_fault w) eqn:Hhd.
  - change (- ENOMEM =? 0) with false. cbn [negb].
    eexists _, _, _. split; [reflexivity|].
    split; [apply still_logged_pop|]. split; [done|].
    intros Hf. by rewrite (hd_fault_nil _ Hf) in Hhd.
  - change (0 =? 0) with true. cbn [negb].
    eexists _, _, _. split; [reflexivity|].
    split; [apply still_logged_pop|]. done.
Qed.

(** Two preparing steps in a row, the second run only if the first
    returned 0. *)
Lemma prepares_bind (m : M (Z * list index_lock))
    (k : Z * list index_lock → M (Z * list index_lock)) w :
  prepares m w →
  (∀ r l w', r ≠ 0 → k (r, l) w' = Ret (r, l) w') →
  (∀ l w', prepares (k (0, l)) w') →
  prepares (p <- m ;; k p) w.
Proof.
  intros (r & l & w' & Hm & Hs & Hr & Hf) Hfail Hok.
  unfold prepares, bind. rewrite Hm.
  destruct (decide (r = 0)) as [->|Hne].
  - destruct (Hok l w') as (r2 & l2 & w2 & Hk & Hs2 & Hr2 & Hf2).
    exists r2, l2, w2. split; [done|]. split; [by eapply still_trans|].
    split; [done|]. intros Hnil. apply Hf2.
    by apply (quiet_faults _ _ (still_quiet _ _ Hs)).
  - exists r, l, w'. rewrite Hfail by done.
    split; [done|]. split; [done|]. split; [done|]. done.
Qed.

Lemma prepare_index_items_prepares si lst ino mode type major minor w :
  prepares (prepare_index_items si lst ino mode type major minor) w.
Proof.
  unfold prepare_index_items.
  apply prepares_bind.
  - destruct (will_ins_index si type major minor);
      [apply add_index_lock_prepares|by apply prepares_ret].
  - intros r l w' Hr. cbn [fst snd].
    by rewrite (proj2 (Z.eqb_neq r 0) Hr).
  - intros l w'. cbn [fst snd]. change (0 =? 0) with true. cbn [negb].
    destruct si as [s|]; [|by apply prepares_ret].
    destruct (will_del_index (Some s) type major minor);
      [apply add_index_lock_prepares|by apply prepares_ret].
Qed.

Lemma prepare_indices_loop_prepares si lst ino mode upds w :
  prepares (prepare_indices_loop si lst ino mode upds 0) w.
Proof.
  revert lst w. induction upds as [|[[type major] minor] upds IH]; intros lst w.
  - by apply prepares_ret.
  - cbn [prepare_indices_loop].
    destruct (inode_has_index mode type); cbn [negb]; [|apply IH].
    apply prepares_bind.
    + apply prepare_index_items_prepares.
    + intros r l w' Hr. cbn [fst snd].
      by rewrite (proj2 (Z.eqb_neq r 0) Hr).
    + intros l w'. cbn [fst snd]. change (0 =? 0) with true. cbn [negb].
      apply IH.
Qed.

Lemma prepare_indices_prepares lst si ino mode new_size set_data_seq w :
  prepares (prepare_indices lst si ino mode new_size set_data_seq) w.
Proof.
  assert (∃ ds, upd_data_seq si set_data_seq w = Ret ds w) as [ds Hds].
  { unfold upd_data_seq, get, ret.
    destruct si as [s|]; [|by eexists].
    destruct (negb (have_item s) || set_data_seq); by eexists. }
  pose proof (prepare_indices_loop_prepares si lst ino mode
                (index_updates new_size (trans_seq w) ds) w) as H.
  unfold prepares in *. unfold prepare_indices, bind, get. by rewrite Hds.
Qed.

Lemma prepare_index_deletion_prepares lst ino mode sinode w :
  prepares (prepare_index_deletion lst ino mode sinode) w.
Proof.
  unfold prepare_index_deletion.
  generalize (index_updates (size sinode) (meta_seq sinode) (data_seq sinode)).
  intros inds. revert lst w.
  induction inds as [|[[type major] minor] inds IH]; intros lst w.
  - by apply prepares_ret.
  - cbn [prepare_index_deletion_loop].
    destruct (inode_has_index mode type); cbn [negb]; [|apply IH].
    apply prepares_bind.
    + apply add_index_lock_prepares.
    + intros r l w' Hr. cbn [fst snd].
      by rewrite (proj2 (Z.eqb_neq r 0) Hr).
    + intros l w'. cbn [fst snd]. change (0 =? 0) with true. cbn [negb].
      apply IH.
Qed.

(** *** Taking and dropping the index locks *)

Lemma lock_names_cons_locked il l :
  lock_names (locked il :: l)
  = {[+ index_lock_name (il_type il) (il_major il) (il_ino il) +]} ⊎ lock_names l.
Proof. done. Qed.

Lemma lock_names_cons il l :
  lock_names (il :: l)
  = match il_lock il with
    | Some lk => {[+ lk_name lk +]} ⊎ lock_names l
    | None => lock_names l
    end.
Proof. unfold lock_names. cbn [omap list_omap]. by destruct (il_lock il). Qed.

Lemma lock_index_locks_spec l w :
  ∃ r l' w',
    lock_index_locks l w = Ret (r, l') w' ∧ quiet w w' ∧
    holders w' = holders w ∧ r ≤ 0 ∧
    (r = 0 → l' = map locked l ∧ held w' = held w ⊎ lock_names l') ∧
    (faults w = [] → r = 0).
Proof.
  revert w. induction l as [|il rest IH]; intros w.
  { exists 0, [], w. cbn [lock_index_locks map]. unfold ret.
    split; [done|]. split; [apply quiet_refl|]. split; [done|]. split; [done|].
    split; [|done]. intros _. split; [done|].
    unfold lock_names. cbn. clear. multiset_solver. }
  cbn [lock_index_locks]. unfold scoutfs_lock_inode_index, bind.
  rewrite lock_acquire_run.
  destruct (hd_fault w) as [f|] eqn:Hhd; cbn [fst snd].
  - rewrite fault_errno_nonzero. cbn [negb]. unfold ret.
    eexists _, _, _. split; [reflexivity|]. split; [quiet_chain|].
    split; [done|]. pose proof (fault_errno_pos f).
    split; [lia|]. split; [lia|].
    intros Hf. by rewrite (hd_fault_nil _ Hf) in Hhd.
  - change (0 =? 0) with true. cbn [negb].
    match goal with |- context [lock_index_locks rest ?w1] =>
      destruct (IH w1) as (r & l' & w' & -> & Hq & Hh & Hr & Hok & Hnf)
    end.
    unfold ret. cbn [fst snd].
    eexists _, _, _. split; [reflexivity|].
    split; [eapply quiet_trans; [|exact Hq]; quiet_chain|].
    split; [by rewrite Hh|]. split; [done|]. split.
    + intros Hr0. destruct (Hok Hr0) as [-> Hheld].
      split; [done|]. fold (locked il).
      change (locked il :: map locked rest) with (map locked (il :: rest)) in *.
      rewrite Hheld. cbn [map]. rewrite lock_names_cons_locked.
      cbn [held logged set_trace set_held set_faults committed set_commits
           set_trans_seq_of].
      clear. multiset_solver.
    + intros Hf. apply Hnf.
      cbn [faults logged set_trace set_held set_faults committed set_commits
           set_trans_seq_of].
      by rewrite Hf.
Qed.

Lemma scoutfs_inode_index_unlock_spec l w :
  ∃ w',
    scoutfs_inode_index_unlock l w = Ret () w' ∧ quiet w w' ∧
    holders w' = holders w ∧ trans_seq w' = trans_seq w ∧
    faults w' = faults w ∧ held w' = held w ∖ lock_names l ∧
    trace w' = trace w ++ unlock_events l.
Proof.
  revert w. induction l as [|il rest IH]; intros w.
  { exists w. cbn [scoutfs_inode_index_unlock]. unfold ret.
    split; [done|]. split; [apply quiet_refl|]. do 3 (split; [done|]).
    unfold lock_names, unlock_events. cbn [omap list_omap list_to_set_disj].
    rewrite app_nil_r. split; [clear; multiset_solver|done]. }
  cbn [scoutfs_inode_index_unlock]. unfold bind, scoutfs_unlock.
  rewrite lock_names_cons. unfold unlock_events. cbn [omap list_omap].
  fold (unlock_events rest).
  destruct (il_lock il) as [lk|]; cbn [fmap option_fmap option_map].
  - unfold bind, modify, log, modify.
    match goal with |- context [scoutfs_inode_index_unlock rest ?w1] =>
      destruct (IH w1) as (w' & -> & Hq & Hho & Hts & Hf & Hh & Htr)
    end.
    exists w'. split; [done|].
    split; [eapply quiet_trans; [|exact Hq]; quiet_chain|].
    do 3 (split; [done|]).
    cbn [held trace logged set_trace set_held] in Hh, Htr.
    split; [rewrite Hh; clear; multiset_solver|].
    by rewrite Htr, <- app_assoc.
  - unfold ret. destruct (IH w) as (w' & -> & Hs & Hf & Hh).
    by exists w'.
Qed.

(** An attempt returns 1 only when a commit finished since [seq] was
    sampled; it then holds what was held before it. *)
Lemma scoutfs_inode_index_try_lock_hold_spec l seq w :
  ∃ r l' w',
    scoutfs_inode_index_try_lock_hold l seq w = Ret (r, l') w' ∧ quiet w w' ∧
    (r = 1 ∨ r ≤ 0) ∧
    (r = 1 → trans_seq w' ≠ seq ∧ l' = [] ∧ holders w' = holders w ∧
             held w' = held w) ∧
    (r = 0 → trans_seq w' = seq ∧ l' = map locked (list_sort l) ∧
             holders w' = S (holders w) ∧ held w' = held w ⊎ lock_names l') ∧
    (faults w = [] → 0 ≤ r).
Proof.
  unfold scoutfs_inode_index_try_lock_hold, bind.
  destruct (lock_index_locks_spec (list_sort l) w)
    as (r1 & l1 & w1 & -> & Hq1 & Hho1 & Hr1 & Hok1 & Hnf1).
  cbn [fst snd].
  destruct (decide (r1 = 0)) as [->|Hne].
  - destruct (Hok1 eq_refl) as [Hl1 Hheld1].
    change (0 =? 0) with true. cbn [negb].
    rewrite scoutfs_hold_trans_run.
    destruct (hd_fault w1) as [f|] eqn:Hhd.
    + unfold get. rewrite fault_errno_nonzero. cbn [andb]. unfold ret.
      rewrite fault_errno_nonzero. cbn [negb].
      match goal with |- context [scoutfs_inode_index_unlock l1 ?w2] =>
        destruct (scoutfs_inode_index_unlock_spec l1 w2)
          as (w3 & -> & Hq3 & Hho3 & Hts3 & Hf3 & Hh3 & _)
      end.
      pose proof (fault_errno_pos f).
      eexists _, _, _. split; [reflexivity|].
      split; [eapply quiet_trans; [exact Hq1|]; eapply quiet_trans; [|exact Hq3];
              quiet_chain|].
      split; [lia|]. split; [lia|]. split; [lia|].
      intros Hf.
      pose proof (quiet_faults _ _ Hq1 Hf) as Hf1.
      by rewrite (hd_fault_nil _ Hf1) in Hhd.
    + unfold get. change (0 =? 0) with true. cbn [andb].
      match goal with |- context [seq =? trans_seq ?w2] =>
        destruct (Z.eqb_spec seq (trans_seq w2)) as [Heq|Hneq]; cbn [negb]
      end.
      * unfold ret. change (0 =? 0) with true. cbn [negb].
        eexists _, _, _. split; [reflexivity|].
        split; [eapply quiet_trans; [exact Hq1|]; quiet_chain|].
        split; [lia|]. split; [lia|]. split; [|lia]. intros _.
        split; [done|]. split; [done|].
        cbn [holders held logged set_trace set_holders set_faults committed
             set_commits set_trans_seq_of].
        by rewrite Hho1, Hheld1.
      * unfold scoutfs_release_trans, bind, modify, log, modify, ret.
        change (1 =? 0) with false. cbn [negb].
        match goal with |- context [scoutfs_inode_index_unlock l1 ?w2] =>
          destruct (scoutfs_inode_index_unlock_spec l1 w2)
            as (w3 & -> & Hq3 & Hho3 & Hts3 & Hf3 & Hh3 & _)
        end.
        eexists _, _, _. split; [reflexivity|].
        split; [eapply quiet_trans; [exact Hq1|]; eapply quiet_trans; [|exact Hq3];
                quiet_chain|].
        split; [lia|]. split; [|split; [lia|lia]]. intros _.
        cbn [trans_seq holders held logged set_trace set_holders set_faults
             committed set_commits set_trans_seq_of] in Hts3, Hho3, Hh3, Hneq |- *.
        split; [by rewrite Hts3|]. split; [done|].
        split; [by rewrite Hho3, Hho1|].
        rewrite Hh3, Hheld1. clear. multiset_solver.
  - rewrite (proj2 (Z.eqb_neq r1 0) Hne). cbn [negb]. unfold ret.
    rewrite (proj2 (Z.eqb_neq r1 0) Hne). cbn [negb].
    destruct (scoutfs_inode_index_unlock_spec l1 w1)
      as (w3 & -> & Hq3 & Hho3 & Hts3 & Hf3 & Hh3 & _).
    eexists _, _, _. split; [reflexivity|].
    split; [by eapply quiet_trans|].
    split; [lia|]. split; [lia|]. split; [lia|].
    intros Hf. specialize (Hnf1 Hf). lia.
Qed.

(** *** The loop that prepares, locks and holds *)

Lemma scoutfs_inode_index_lock_hold_spec fuel inode lst size set_data_seq w :
  (pending_commits w < fuel)%nat →
  ∃ r l' w',
    scoutfs_inode_index_lock_hold fuel inode lst size set_data_seq w
      = Ret (r, l') w' ∧
    quiet w w' ∧ r ≤ 0 ∧ (faults w = [] → r = 0).
Proof.
  revert lst w. induction fuel as [|fuel IH]; intros lst w Hfuel; [lia|].
  cbn [scoutfs_inode_index_lock_hold].
  unfold bind at 1. unfold scoutfs_inode_index_start, get. unfold bind at 1.
  unfold scoutfs_inode_index_prepare.
  destruct (prepare_indices_prepares lst (Some inode) (ino inode) (i_mode inode)
              size set_data_seq w) as (r0 & l0 & w0 & -> & Hs0 & Hr0 & Hnf0).
  cbn [fst snd]. unfold bind at 1.
  destruct (decide (r0 = 0)) as [->|Hne].
  - change (0 =? 0) with true. cbn [negb].
    destruct (scoutfs_inode_index_try_lock_hold_spec l0 (trans_seq w) w0)
      as (r & l1 & w1 & -> & Hq1 & Hr & Hone & Hzero & Hnf1).
    cbn [fst snd].
    pose proof (still_quiet _ _ Hs0) as Hq0.
    destruct Hr as [->|Hr].
    + change (1 >? 0) with true. cbv iota.
      destruct (Hone eq_refl) as (Hseq & -> & _ & _).
      destruct (IH [] w1) as (r & l2 & w2 & -> & Hq2 & Hr2 & Hnf2).
      { pose proof (quiet_seq _ _ Hq1). pose proof (quiet_pending _ _ Hq1).
        pose proof (quiet_pending _ _ Hq0).
        rewrite (still_trans_seq _ _ Hs0) in *. lia. }
      eexists _, _, _. split; [reflexivity|].
      split; [eapply quiet_trans; [exact Hq0|]; by eapply quiet_trans|].
      split; [done|]. intros Hf. apply Hnf2.
      apply (quiet_faults _ _ Hq1), (quiet_faults _ _ Hq0), Hf.
    + assert ((r >? 0) = false) as -> by lia.
      eexists _, _, _. split; [reflexivity|].
      split; [by eapply quiet_trans|]. split; [done|].
      intros Hf. specialize (Hnf1 (quiet_faults _ _ Hq0 Hf)). lia.
  - rewrite (proj2 (Z.eqb_neq r0 0) Hne). cbn [negb]. unfold ret. cbn [fst].
    assert ((r0 >? 0) = false) as -> by lia.
    eexists _, _, _. split; [reflexivity|].
    split; [apply (still_quiet _ _ Hs0)|]. split; [done|]. done.
Qed.

Lemma unlock_events_locked l :
  unlock_events (map locked l)
  = map (λ il, {| ev_call := c_unlock (index_lock_name (il_type il) (il_major il)
                                           (il_ino il)) DLM_LOCK_CW;
                  ev_ret := 0 |}) l.
Proof. induction l as [|il l IH]; [done|]. cbn. by f_equal. Qed.

(** C4: one pass of the loop samples [trans_seq], prepares the list, sorts
    it, takes every lock on it and holds the transaction.  If [trans_seq]
    is then not what was sampled, the pass releases the transaction, unlocks
    every entry of the sorted list, leaves the list empty with nothing more
    held than before, returns 1, and the loop runs its next pass from
    there.  And the loop ends: when [n] commits are still to finish while
    the task waits, [n + 1] passes are enough for it to return, with 0 or an
    error. *)
Theorem scoutfs_inode_index_lock_hold_retries (inode : scoutfs_inode_info)
    (lst l l1 : list index_lock) (size : Z) (set_data_seq : bool) (fuel : nat)
    (w w0 w1 w2 : world) :
  (scoutfs_inode_index_prepare lst inode size set_data_seq w = Ret (0, l) w0 →
   lock_index_locks (list_sort l) w0 = Ret (0, l1) w1 →
   scoutfs_hold_trans w1 = Ret 0 w2 →
   trans_seq w2 ≠ trans_seq w →
   ∃ w',
     scoutfs_inode_index_try_lock_hold l (trans_seq w) w0 = Ret (1, []) w' ∧
     trace w' = trace w2 ++
       {| ev_call := c_release_trans; ev_ret := 0 |} ::
       map (λ il, {| ev_call := c_unlock (index_lock_name (il_type il)
                                            (il_major il) (il_ino il))
                                  DLM_LOCK_CW;
                     ev_ret := 0 |}) (list_sort l) ∧
     holders w' = holders w0 ∧ held w' = held w0 ∧
     scoutfs_inode_index_lock_hold (S fuel) inode lst size set_data_seq w
       = scoutfs_inode_index_lock_hold fuel inode [] size set_data_seq w') ∧
  ∃ r l' w',
    scoutfs_inode_index_lock_hold (S (pending_commits w)) inode lst size
      set_data_seq w = Ret (r, l') w' ∧
    r ≤ 0.
Proof.
  split.
  - intros Hprep Hlock Hhold Hseq.
    destruct (lock_index_locks_spec (list_sort l) w0)
      as (r & l' & w' & Heq & _ & Hho1 & _ & Hok & _).
    rewrite Hlock in Heq. injection Heq as <- <- <-.
    destruct (Hok eq_refl) as [-> Hheld1].
    pose proof Hhold as Hhold'. rewrite scoutfs_hold_trans_run in Hhold'.
    destruct (hd_fault w1) as [f|] eqn:Hhd; [by destruct f|].
    injection Hhold' as Hw2.
    assert (scoutfs_inode_index_try_lock_hold l (trans_seq w) w0
            = (scoutfs_inode_index_unlock (map locked (list_sort l)) ;;;
               ret (1, []))
                (logged c_release_trans 0 (set_holders pred w2))) as Htry.
    { unfold scoutfs_inode_index_try_lock_hold. unfold bind at 1.
      rewrite Hlock. cbn [fst snd]. change (0 =? 0) with true. cbn [negb].
      unfold bind at 1. unfold bind at 1. rewrite Hhold.
      unfold bind at 1. unfold get. change (0 =? 0) with true.
      rewrite (proj2 (Z.eqb_neq (trans_seq w) (trans_seq w2))) by done.
      cbn [andb negb].
      unfold bind, scoutfs_release_trans, modify, log, modify, ret.
      change (1 =? 0) with false. cbn [negb]. reflexivity. }
    destruct (scoutfs_inode_index_unlock_spec (map locked (list_sort l))
                (logged c_release_trans 0 (set_holders pred w2)))
      as (w' & Hun & _ & Hho3 & _ & _ & Hh3 & Htr3).
    unfold bind in Htry. rewrite Hun in Htry. unfold ret in Htry.
    exists w'. split; [done|].
    cbn [trace holders held logged set_trace set_holders] in Hho3, Hh3, Htr3.
    split; [by rewrite Htr3, unlock_events_locked, <- app_assoc|].
    subst w2.
    cbn [holders held logged set_trace set_holders set_faults committed
         set_commits set_trans_seq_of] in Hho3, Hh3.
    split; [by rewrite Hho3, Hho1|].
    split; [rewrite Hh3, Hheld1; clear; multiset_solver|].
    cbn [scoutfs_inode_index_lock_hold].
    unfold bind at 1. unfold scoutfs_inode_index_start, get. unfold bind at 1.
    rewrite Hprep. cbn [fst snd]. change (0 =? 0) with true. cbn [negb].
    unfold bind at 1. by rewrite Htry.
  - destruct (scoutfs_inode_index_lock_hold_spec (S (pending_commits w)) inode
                lst size set_data_seq w) as (r & l' & w' & H & _ & Hr & _);
      [lia|].
    by exists r, l', w'.
Qed.

(** ** Deleting the items of an inode *)

(** The retry loop of [delete_inode_items] touches no item; it returns once
    it is given more passes than commits are still to finish. *)
Lemma delete_inode_items_retry_spec fuel ind_locks ino mode sinode w :
  match delete_inode_items_retry fuel ind_locks ino mode sinode w with
  | Ret (r, l') w' => quiet w w' ∧ r ≤ 0 ∧ (faults w = [] → r = 0)
  | Bug _ => False
  | OutOfFuel => (fuel ≤ pending_commits w)%nat
  end.
Proof.
  revert ind_locks w. induction fuel as [|fuel IH]; intros ind_locks w.
  { cbn [delete_inode_items_retry]. unfold out_of_fuel. lia. }
  cbn [delete_inode_items_retry].
  unfold bind at 1. unfold scoutfs_inode_index_start, get. unfold bind at 1.
  destruct (prepare_index_deletion_prepares ind_locks ino mode sinode w)
    as (r0 & l0 & w0 & -> & Hs0 & Hr0 & Hnf0).
  cbn [fst snd]. unfold bind at 1.
  pose proof (still_quiet _ _ Hs0) as Hq0.
  destruct (decide (r0 = 0)) as [->|Hne].
  - change (0 =? 0) with true. cbn [negb].
    destruct (scoutfs_inode_index_try_lock_hold_spec l0 (trans_seq w) w0)
      as (r & l1 & w1 & -> & Hq1 & Hr & Hone & Hzero & Hnf1).
    cbn [fst snd].
    destruct Hr as [->|Hr].
    + change (1 >? 0) with true. cbv iota.
      destruct (Hone eq_refl) as (Hseq & -> & _ & _).
      specialize (IH [] w1).
      pose proof (quiet_seq _ _ Hq1). pose proof (quiet_pending _ _ Hq1).
      pose proof (quiet_pending _ _ Hq0).
      rewrite (still_trans_seq _ _ Hs0) in *.
      destruct (delete_inode_items_retry fuel [] ino mode sinode w1)
        as [[r l2] w2| |]; [|done|lia].
      destruct IH as (Hq2 & Hr2 & Hnf2).
      split; [eapply quiet_trans; [exact Hq0|]; by eapply quiet_trans|].
      split; [done|]. intros Hf. apply Hnf2.
      apply (quiet_faults _ _ Hq1), (quiet_faults _ _ Hq0), Hf.
    + assert ((r >? 0) = false) as -> by lia. unfold ret.
      split; [by eapply quiet_trans|]. split; [done|].
      intros Hf. specialize (Hnf1 (quiet_faults _ _ Hq0 Hf)). lia.
  - rewrite (proj2 (Z.eqb_neq r0 0) Hne). cbn [negb]. unfold ret. cbn [fst].
    assert ((r0 >? 0) = false) as -> by lia.
    split; [done|]. split; [done|]. done.
Qed.

Lemma fault_errno_ENOENT f : (- fault_errno f =? - ENOENT) = false.
Proof. by destruct f. Qed.

Lemma remove_index_run ino type major minor ind_locks w :
  remove_index ino type major minor ind_locks w =
    match hd_fault w with
    | Some f =>
        Ret (- fault_errno f)
          (logged (c_item_delete_force (inode_index_key type major minor ino))
             (- fault_errno f) (set_faults tail w))
    | None =>
        Ret 0 (logged (c_item_delete_force (inode_index_key type major minor ino)) 0
                 (set_items (delete (inode_index_key type major minor ino))
                    (set_faults tail w)))
    end.
Proof.
  unfold remove_index, bind. rewrite scoutfs_item_delete_force_run.
  destruct (hd_fault w); unfold ret; [by rewrite fault_errno_ENOENT|done].
Qed.

Lemma only_deleted_refl its : only_deleted its its.
Proof. intros k. by right. Qed.

Lemma only_deleted_trans its1 its2 its3 :
  only_deleted its1 its2 → only_deleted its2 its3 → only_deleted its1 its3.
Proof.
  intros H1 H2 k. destruct (H2 k) as [?|Heq]; [by left|].
  rewrite Heq. apply H1.
Qed.

Lemma only_deleted_delete k its : only_deleted its (delete k its).
Proof.
  intros k'. destruct (decide (k' = k)) as [->|];
    [left; apply lookup_delete_eq|right; by apply lookup_delete_ne].
Qed.

(** One forced delete of an index item of [ino], or a fault instead. *)
Lemma remove_index_spec ino type major minor ind_locks w :
  ∃ r w',
    remove_index ino type major minor ind_locks w = Ret r w' ∧
    node_id w' = node_id w ∧ r ≤ 0 ∧
    (faults w = [] → faults w' = [] ∧ r = 0) ∧
    only_deleted (items w) (items w') ∧
    (∀ k, (∀ t ma mi, k ≠ inode_index_key t ma mi ino) →
          items w' !! k = items w !! k) ∧
    (r = 0 → items w' !! inode_index_key type major minor ino = None).
Proof.
  rewrite remove_index_run. destruct (hd_fault w) as [f|] eqn:Hhd.
  - eexists _, _. split; [reflexivity|]. split; [done|].
    pose proof (fault_errno_pos f). split; [lia|].
    split; [intros Hf; by rewrite (hd_fault_nil _ Hf) in Hhd|].
    split; [apply only_deleted_refl|]. split; [done|]. lia.
  - eexists _, _. split; [reflexivity|]. split; [done|]. split; [done|].
    cbn [faults items logged set_trace set_items set_faults].
    split; [by intros ->|]. split; [apply only_deleted_delete|].
    split; [|intros _; apply lookup_delete_eq].
    intros k Hk. by apply lookup_delete_ne.
Qed.

Lemma remove_index_items_spec ino sinode ind_locks w :
  ∃ r w',
    remove_index_items ino sinode ind_locks w = Ret r w' ∧
    node_id w' = node_id w ∧ r ≤ 0 ∧
    (faults w = [] → faults w' = [] ∧ r = 0) ∧
    only_deleted (items w) (items w') ∧
    (∀ k, (∀ t ma mi, k ≠ inode_index_key t ma mi ino) →
          items w' !! k = items w !! k) ∧
    (r = 0 → ∀ type, inode_has_index (mode sinode) type = true →
             items w' !! inode_index_key type (indexed sinode type) 0 ino = None).
Proof.
  unfold remove_index_items, bind.
  destruct (remove_index_spec ino SCOUTFS_INODE_INDEX_SIZE_TYPE (size sinode) 0
              ind_locks w) as (r1 & w1 & -> & Hn1 & Hr1 & Hf1 & Hd1 & Ho1 & Hz1).
  destruct (decide (r1 = 0)) as [->|Hne1].
  2:{ rewrite (proj2 (Z.eqb_neq r1 0) Hne1). cbn [negb andb]. unfold ret.
      rewrite (proj2 (Z.eqb_neq r1 0) Hne1). cbn [andb].
      exists r1, w1. do 6 (split; [done|]). done. }
  change (0 =? 0) with true. cbn [negb].
  destruct (remove_index_spec ino SCOUTFS_INODE_INDEX_META_SEQ_TYPE
              (meta_seq sinode) 0 ind_locks w1)
    as (r2 & w2 & -> & Hn2 & Hr2 & Hf2 & Hd2 & Ho2 & Hz2).
  destruct (decide (r2 = 0)) as [->|Hne2].
  2:{ rewrite (proj2 (Z.eqb_neq r2 0) Hne2). cbn [andb]. unfold ret.
      exists r2, w2. split; [done|]. split; [congruence|]. split; [done|].
      split; [intros Hf; destruct (Hf1 Hf) as [Hf' _]; by apply Hf2|].
      split; [by eapply only_deleted_trans|].
      split; [|done]. intros k Hk. by rewrite Ho2, Ho1. }
  change (0 =? 0) with true. cbn [andb].
  destruct (S_ISREG (mode sinode)) eqn:Hreg.
  - destruct (remove_index_spec ino SCOUTFS_INODE_INDEX_DATA_SEQ_TYPE
                (data_seq sinode) 0 ind_locks w2)
      as (r3 & w3 & -> & Hn3 & Hr3 & Hf3 & Hd3 & Ho3 & Hz3).
    exists r3, w3. split; [done|]. split; [congruence|]. split; [done|].
    split.
    { intros Hf. destruct (Hf1 Hf) as [Hf' _]. destruct (Hf2 Hf') as [Hf'' _].
      by apply Hf3. }
    split; [eapply only_deleted_trans; [|exact Hd3];
            by eapply only_deleted_trans|].
    split; [intros k Hk; by rewrite Ho3, Ho2, Ho1|].
    intros Hr [] _; cbn [indexed].
    + destruct (Hd3 (inode_index_key SCOUTFS_INODE_INDEX_SIZE_TYPE (size sinode) 0 ino))
        as [?| ->]; [done|].
      destruct (Hd2 (inode_index_key SCOUTFS_INODE_INDEX_SIZE_TYPE (size sinode) 0 ino))
        as [?| ->]; [done|]. by apply Hz1.
    + destruct (Hd3 (inode_index_key SCOUTFS_INODE_INDEX_META_SEQ_TYPE
                       (meta_seq sinode) 0 ino)) as [?| ->]; [done|].
      by apply Hz2.
    + by apply Hz3.
  - unfold ret. exists 0, w2. split; [done|]. split; [congruence|].
    split; [done|].
    split; [intros Hf; destruct (Hf1 Hf) as [Hf' _]; by apply Hf2|].
    split; [by eapply only_deleted_trans|].
    split; [intros k Hk; by rewrite Ho2, Ho1|].
    intros _ [] Hhas; cbn [indexed].
    + destruct (Hd2 (inode_index_key SCOUTFS_INODE_INDEX_SIZE_TYPE (size sinode) 0 ino))
        as [?| ->]; [done|]. by apply Hz1.
    + by apply Hz2.
    + cbn [inode_has_index] in Hhas. congruence.
Qed.

Lemma delete_inode_items_out_spec release ind_locks lock r w :
  ∃ w', delete_inode_items_out release ind_locks lock r w = Ret r w' ∧
        quiet w w'.
Proof.
  unfold delete_inode_items_out, bind.
  assert (∃ w0, (if release then scoutfs_release_trans else ret ()) w = Ret () w0
                ∧ quiet w w0) as (w0 & -> & Hq0).
  { destruct release; [|by exists w; split; [|apply quiet_refl]].
    unfold scoutfs_release_trans, bind, modify, log, modify.
    eexists. split; [reflexivity|]. quiet_chain. }
  destruct (scoutfs_inode_index_unlock_spec ind_locks w0)
    as (w1 & -> & Hq1 & _).
  unfold scoutfs_unlock, ret.
  destruct lock as [lk|].
  - unfold bind, modify, log, modify. eexists. split; [reflexivity|].
    eapply quiet_trans; [exact Hq0|]. eapply quiet_trans; [exact Hq1|].
    quiet_chain.
  - exists w1. split; [done|]. by eapply quiet_trans.
Qed.

Lemma delete_inode_items_out_post release ind_locks lock r ino w wx :
  delete_inode_items_post ino w r wx →
  ∃ w', delete_inode_items_out release ind_locks lock r wx = Ret r w' ∧
        delete_inode_items_post ino w r w'.
Proof.
  intros (Hn & Hd & Ho & Hf & Hz).
  destruct (delete_inode_items_out_spec release ind_locks lock r wx)
    as (w' & -> & Hq).
  exists w'. split; [done|].
  pose proof (quiet_items _ _ Hq) as Hi. pose proof (quiet_node_id _ _ Hq) as Hn'.
  split; [congruence|]. split; [by rewrite Hi|]. split; [|split].
  - destruct Ho as [Ho|(-> & s & Hs & Hl & H1 & H2 & H3)]; [left; by rewrite Hi|].
    right. split; [done|]. exists s. split; [done|]. split; [done|].
    unfold reclaimed. rewrite Hi, Hn'. done.
  - intros Hnil Hrec. destruct (Hf Hnil Hrec) as [-> Hnil'].
    split; [done|]. by apply (quiet_faults _ _ Hq).
  - by rewrite Hi.
Qed.

(** The same for a run that has deleted nothing so far. *)
Lemma delete_inode_items_out_quiet release ind_locks lock r ino w wx :
  quiet w wx →
  (faults w = [] → reclaimable ino (items w) → r = 0) →
  (r = 0 → items w !! inode_key ino = None) →
  ∃ w', delete_inode_items_out release ind_locks lock r wx = Ret r w' ∧
        delete_inode_items_post ino w r w'.
Proof.
  intros Hq Hr Hz. apply delete_inode_items_out_post.
  split; [apply (quiet_node_id _ _ Hq)|].
  rewrite (quiet_items _ _ Hq).
  split; [apply only_deleted_refl|]. split; [by left|].
  split; [|done].
  intros Hnil Hrec. split; [by apply Hr|]. by apply (quiet_faults _ _ Hq).
Qed.

Lemma delete_inode_items_spec fuel ino w :
  match delete_inode_items fuel ino w with
  | Ret r w' => delete_inode_items_post ino w r w'
  | Bug _ => False
  | OutOfFuel => (fuel ≤ pending_commits w)%nat
  end.
Proof.
  unfold delete_inode_items. unfold bind at 1. unfold scoutfs_lock_ino.
  rewrite lock_acquire_run.
  destruct (hd_fault w) as [f|] eqn:Hhd; cbn [fst snd].
  { rewrite fault_errno_nonzero. cbn [negb]. unfold ret.
    split; [done|]. split; [apply only_deleted_refl|]. split; [by left|].
    split; [intros Hf; by rewrite (hd_fault_nil _ Hf) in Hhd|].
    by destruct f. }
  change (0 =? 0) with true. cbn [negb].
  set (lock := Some {| lk_name := ino_lock ino |}).
  match goal with |- context [bind _ _ ?w1'] => set (w1 := w1') end.
  assert (quiet w w1) as Hq1 by (subst w1; quiet_chain).
  unfold bind at 1. rewrite scoutfs_item_lookup_exact_run.
  rewrite (quiet_items _ _ Hq1).
  destruct (hd_fault w1) as [f|] eqn:Hhd1; cbn [fst snd].
  { pose proof (fault_errno_pos f).
    assert ((- fault_errno f <? 0) = true) as -> by lia.
    rewrite fault_errno_ENOENT.
    edestruct delete_inode_items_out_quiet as (w' & -> & Hpost);
      [| | |exact Hpost].
    - eapply quiet_trans; [exact Hq1|]. quiet_chain.
    - intros Hf. by rewrite (hd_fault_nil _ (quiet_faults _ _ Hq1 Hf)) in Hhd1.
    - lia. }
  destruct (items w !! inode_key ino) as [[s|]|] eqn:Hitem; cbn [fst snd].
  - change (0 <? 0) with false. cbv iota.
    destruct (Z.eqb_spec (nlink s) 0) as [Hlink|Hlink]; cbn [negb].
    2:{ edestruct delete_inode_items_out_quiet as (w' & -> & Hpost);
          [| | |exact Hpost].
        - eapply quiet_trans; [exact Hq1|]. quiet_chain.
        - unfold reclaimable. rewrite Hitem. intros _ ?. done.
        - done. }
    match goal with |- context [bind _ _ ?w2'] => set (w2 := w2') end.
    assert (quiet w w2) as Hq2
      by (eapply quiet_trans; [exact Hq1|]; subst w2; quiet_chain).
    unfold bind at 1.
    pose proof (delete_inode_items_retry_spec fuel [] ino (mode s) s w2) as Hretry.
    destruct (delete_inode_items_retry fuel [] ino (mode s) s w2)
      as [[r l] w3| |]; [|done|pose proof (quiet_pending _ _ Hq2); lia].
    destruct Hretry as (Hq3 & Hr3 & Hnf3). cbn [fst snd].
    assert (quiet w w3) as Hq3' by by eapply quiet_trans.
    destruct (decide (r = 0)) as [->|Hne].
    2:{ rewrite (proj2 (Z.eqb_neq r 0) Hne). cbn [negb].
        edestruct delete_inode_items_out_quiet as (w' & -> & Hpost);
          [exact Hq3'| | |exact Hpost]; [|done].
        intros Hf _. by apply Hnf3, (quiet_faults _ _ Hq2). }
    change (0 =? 0) with true. cbn [negb]. unfold bind at 1.
    destruct (remove_index_items_spec ino s l w3)
      as (r4 & w4 & -> & Hn4 & Hr4 & Hf4 & Hd4 & Ho4 & Hz4).
    rewrite (quiet_items _ _ Hq3') in Hd4, Ho4.
    rewrite (quiet_node_id _ _ Hq3') in Hn4.
    assert (faults w = [] → faults w4 = [] ∧ r4 = 0) as Hf4'
      by (intros Hf; by apply Hf4, (quiet_faults _ _ Hq3')).
    destruct (decide (r4 = 0)) as [->|Hne4].
    2:{ rewrite (proj2 (Z.eqb_neq r4 0) Hne4). cbn [negb].
        edestruct delete_inode_items_out_post as (w' & -> & Hpost);
          [|exact Hpost].
        split; [done|]. split; [done|]. split; [left; by apply Ho4|].
        split; [|done]. intros Hf _. by destruct (Hf4' Hf). }
    change (0 =? 0) with true. cbn [negb]. unfold bind at 1.
    rewrite scoutfs_item_delete_run, (Ho4 (inode_key ino)), Hitem by done.
    destruct (hd_fault w4) as [f|] eqn:Hhd4.
    { rewrite fault_errno_nonzero. cbn [negb].
      edestruct delete_inode_items_out_post as (w' & -> & Hpost); [|exact Hpost].
      split; [done|]. split; [done|]. split; [left; by apply Ho4|].
      split; [|by destruct f].
      intros Hf _. destruct (Hf4' Hf) as [Hf' _].
      by rewrite (hd_fault_nil _ Hf') in Hhd4. }
    change (0 =? 0) with true. cbn [negb].
    match goal with |- context [bind _ _ ?w5'] => set (w5 := w5') end.
    assert (items w5 = delete (inode_key ino) (items w4)) as Hi5 by done.
    assert (node_id w5 = node_id w) as Hn5 by done.
    assert (faults w = [] → faults w5 = []) as Hf5.
    { intros Hf. destruct (Hf4' Hf) as [Hf' _]. subst w5.
      cbn [faults logged set_trace set_items set_faults]. by rewrite Hf'. }
    assert (only_deleted (items w) (items w5)) as Hd5.
    { rewrite Hi5. eapply only_deleted_trans; [exact Hd4|].
      apply only_deleted_delete. }
    unfold bind at 1. unfold remove_orphan_item, bind, get.
    rewrite scoutfs_item_delete_run, Hn5.
    assert (items w5 !! orphan_key (node_id w) ino
            = items w !! orphan_key (node_id w) ino) as Ho5.
    { rewrite Hi5, lookup_delete_ne by done. by apply Ho4. }
    destruct (hd_fault w5) as [f|] eqn:Hhd5.
    { unfold ret. rewrite fault_errno_ENOENT.
      edestruct delete_inode_items_out_post as (w' & -> & Hpost); [|exact Hpost].
      split; [done|]. split; [done|]. split; [by left|].
      split; [|by destruct f].
      intros Hf _. by rewrite (hd_fault_nil _ (Hf5 Hf)) in Hhd5. }
    destruct (items w5 !! orphan_key (node_id w) ino) as [v|] eqn:Horph.
    + unfold ret. change (0 =? - ENOENT) with false. cbv iota.
      edestruct delete_inode_items_out_post as (w' & -> & Hpost); [|exact Hpost].
      split; [done|].
      cbn [faults items node_id logged set_trace set_items set_faults].
      split; [eapply only_deleted_trans; [exact Hd5|]; apply only_deleted_delete|].
      split.
      * right. split; [done|]. exists s. split; [done|]. split; [done|].
        unfold reclaimed.
        cbn [faults items node_id logged set_trace set_items set_faults].
        fold (node_id w5). rewrite Hn5.
        split; [rewrite lookup_delete_ne, Hi5 by done; apply lookup_delete_eq|].
        split; [apply lookup_delete_eq|].
        intros type Hhas. rewrite lookup_delete_ne, Hi5, lookup_delete_ne by done.
        by apply Hz4.
      * split; [intros Hf _; split; [done|]; by rewrite (Hf5 Hf)|].
        intros _. rewrite lookup_delete_ne, Hi5 by done. apply lookup_delete_eq.
    + unfold ret. change (- ENOENT =? - ENOENT) with true. cbv iota.
      edestruct delete_inode_items_out_post as (w' & -> & Hpost); [|exact Hpost].
      split; [done|].
      cbn [faults items node_id logged set_trace set_items set_faults].
      split; [done|]. split; [left; congruence|].
      split; [intros Hf _; split; [done|]; by rewrite (Hf5 Hf)|].
      intros _. rewrite Hi5. apply lookup_delete_eq.
  - change (- EIO <? 0) with true. change (- EIO =? - ENOENT) with false.
    cbv iota.
    edestruct delete_inode_items_out_quiet as (w' & -> & Hpost);
      [| | |exact Hpost].
    + eapply quiet_trans; [exact Hq1|]. quiet_chain.
    + unfold reclaimable. by rewrite Hitem.
    + done.
  - change (- ENOENT <? 0) with true. change (- ENOENT =? - ENOENT) with true.
    cbv iota.
    edestruct delete_inode_items_out_quiet as (w' & -> & Hpost);
      [| | |exact Hpost].
    + eapply quiet_trans; [exact Hq1|]. quiet_chain.
    + done.
    + done.
Qed.

(** The run of [delete_inode_items] up to the lookup of the inode item,
    when the lock is granted and the lookup is not failed. *)
Lemma delete_inode_items_lookup_run fuel ino w :
  hd_fault w = None →
  next_of (tail (faults w)) = None →
  let lock := Some {| lk_name := ino_lock ino |} in
  let w1 := logged (c_lock (ino_lock ino) DLM_LOCK_EX) 0
              (set_held (λ h, h ⊎ {[+ ino_lock ino +]})
                 (set_faults tail (committed w))) in
  match items w !! inode_key ino with
  | None =>
      delete_inode_items fuel ino w =
        delete_inode_items_out false [] lock 0
          (logged (c_item_lookup_exact (inode_key ino)) (- ENOENT)
             (set_faults tail w1))
  | Some None =>
      delete_inode_items fuel ino w =
        delete_inode_items_out false [] lock (- EIO)
          (logged (c_item_lookup_exact (inode_key ino)) (- EIO)
             (set_faults tail w1))
  | Some (Some s) =>
      nlink s ≠ 0 →
      delete_inode_items fuel ino w =
        delete_inode_items_out false [] lock (- EIO)
          (logged (c_item_lookup_exact (inode_key ino)) 0 (set_faults tail w1))
  end.
Proof.
  intros Hhd Hhd' lock w1.
  assert (hd_fault w1 = None) as Hhd1 by done.
  destruct (items w !! inode_key ino) as [[s|]|] eqn:Hitem; [intros Hlink|..];
    unfold delete_inode_items; unfold bind at 1; unfold scoutfs_lock_ino;
    rewrite lock_acquire_run, Hhd; cbn [fst snd];
    change (0 =? 0) with true; cbn [negb]; fold lock w1;
    unfold bind at 1; rewrite scoutfs_item_lookup_exact_run, Hhd1;
    change (items w1) with (items w); rewrite Hitem; cbn [fst snd];
    [|done..].
  change (0 <? 0) with false. cbv iota.
  by rewrite (proj2 (Z.eqb_neq (nlink s) 0) Hlink).
Qed.

Lemma delete_inode_items_out_unlocked ino r w :
  delete_inode_items_out false [] (Some {| lk_name := ino_lock ino |}) r w
  = Ret r (logged (c_unlock (ino_lock ino) DLM_LOCK_EX) 0
             (set_held (λ h, h ∖ {[+ ino_lock ino +]}) w)).
Proof. done. Qed.

(** C7: when the inode item that [delete_inode_items] looks up has a
    nonzero [nlink], it returns [-EIO] after three calls, none of which
    deletes an item: it takes the inode lock, looks the item up and drops
    the lock.  The items are what they were, the orphan item among them. *)
Theorem delete_inode_items_nlink_nonzero (fuel : nat) (ino : Z) (w : world)
    (s : scoutfs_inode) :
  items w !! inode_key ino = Some (Some s) →
  nlink s ≠ 0 →
  hd_fault w = None →
  next_of (tail (faults w)) = None →
  ∃ w',
    delete_inode_items fuel ino w = Ret (- EIO) w' ∧
    items w' = items w ∧
    trace w' = trace w ++
      [ {| ev_call := c_lock (ino_lock ino) DLM_LOCK_EX; ev_ret := 0 |};
        {| ev_call := c_item_lookup_exact (inode_key ino); ev_ret := 0 |};
        {| ev_call := c_unlock (ino_lock ino) DLM_LOCK_EX; ev_ret := 0 |} ].
Proof.
  intros Hitem Hlink Hhd Hhd'.
  pose proof (delete_inode_items_lookup_run fuel ino w Hhd Hhd') as Hrun.
  cbv zeta in Hrun. rewrite Hitem in Hrun. rewrite (Hrun Hlink).
  rewrite delete_inode_items_out_unlocked.
  eexists. split; [reflexivity|]. split; [done|].
  cbn [trace logged set_trace set_held set_faults committed set_commits
       set_trans_seq_of].
  by rewrite <- !app_assoc.
Qed.

(** A run that finds no inode item: three calls, and the items stay. *)
Lemma delete_inode_items_absent_run fuel ino w :
  items w !! inode_key ino = None →
  hd_fault w = None →
  next_of (tail (faults w)) = None →
  ∃ w',
    delete_inode_items fuel ino w = Ret 0 w' ∧
    items w' = items w ∧
    trace w' = trace w ++
      [ {| ev_call := c_lock (ino_lock ino) DLM_LOCK_EX; ev_ret := 0 |};
        {| ev_call := c_item_lookup_exact (inode_key ino); ev_ret := - ENOENT |};
        {| ev_call := c_unlock (ino_lock ino) DLM_LOCK_EX; ev_ret := 0 |} ].
Proof.
  intros Hitem Hhd Hhd'.
  pose proof (delete_inode_items_lookup_run fuel ino w Hhd Hhd') as Hrun.
  cbv zeta in Hrun. rewrite Hitem in Hrun. rewrite Hrun.
  rewrite delete_inode_items_out_unlocked.
  eexists. split; [reflexivity|]. split; [done|].
  cbn [trace logged set_trace set_held set_faults committed set_commits
       set_trans_seq_of].
  by rewrite <- !app_assoc.
Qed.

(** C8, as the code has it: when there is no inode item for [ino],
    [delete_inode_items] returns 0: the lookup returns [-ENOENT], which the
    function turns into 0 before it drops the lock, and no item is
    touched. *)
Theorem delete_inode_items_no_inode_item (fuel : nat) (ino : Z) (w : world) :
  items w !! inode_key ino = None →
  hd_fault w = None →
  next_of (tail (faults w)) = None →
  ∃ w',
    delete_inode_items fuel ino w = Ret 0 w' ∧
    items w' = items w ∧
    trace w' = trace w ++
      [ {| ev_call := c_lock (ino_lock ino) DLM_LOCK_EX; ev_ret := 0 |};
        {| ev_call := c_item_lookup_exact (inode_key ino); ev_ret := - ENOENT |};
        {| ev_call := c_unlock (ino_lock ino) DLM_LOCK_EX; ev_ret := 0 |} ].
Proof. apply delete_inode_items_absent_run. Qed.


(** ** Refreshing an inode *)

Lemma scoutfs_inode_refresh_current inode lock flags w :
  last_refreshed inode = scoutfs_lock_refresh_gen lock →
  scoutfs_inode_refresh inode lock flags w = Ret (0, inode) w.
Proof.
  intros Hgen. unfold scoutfs_inode_refresh. rewrite Hgen, Z.eqb_refl.
  by assert ((scoutfs_lock_refresh_gen lock >? scoutfs_lock_refresh_gen lock)
             = false) as -> by lia.
Qed.

Lemma scoutfs_inode_refresh_stamps inode lock flags w inode' w' :
  scoutfs_inode_refresh inode lock flags w = Ret (0, inode') w' →
  last_refreshed inode' = scoutfs_lock_refresh_gen lock.
Proof.
  unfold scoutfs_inode_refresh.
  destruct (last_refreshed inode >? scoutfs_lock_refresh_gen lock) eqn:Hgt;
    [done|].
  destruct (Z.eqb_spec (last_refreshed inode) (scoutfs_lock_refresh_gen lock))
    as [Heq|Hne].
  { unfold ret. by intros [= <- <-]. }
  destruct (last_refreshed inode <? scoutfs_lock_refresh_gen lock) eqn:Hlt;
    [|lia].
  unfold bind. rewrite scoutfs_item_lookup_exact_run.
  destruct (hd_fault w) as [f|]; cbn [fst snd].
  { unfold ret. intros [= Hf _ _]. by destruct f. }
  destruct (items w !! inode_key (ino inode)) as [[v|]|]; cbn [fst snd];
    unfold ret; [|done..].
  change (0 =? 0) with true. cbv iota. by intros [= <- <-].
Qed.

(** C10: when the inode was last refreshed at the refresh generation of the
    lock, [scoutfs_inode_refresh] returns 0 with the inode and the world as
    they were: nothing is looked up and no field is written.  After a
    refresh that returned 0 the inode carries the generation of the lock,
    so a refresh under any lock of that generation, whenever it is run,
    does nothing. *)
Theorem scoutfs_inode_refresh_same_gen (inode inode' : scoutfs_inode_info)
    (lock lock' : scoutfs_lock) (flags flags' : Z) (w w' w'' : world) :
  (last_refreshed inode = scoutfs_lock_refresh_gen lock →
   scoutfs_inode_refresh inode lock flags w = Ret (0, inode) w) ∧
  (scoutfs_inode_refresh inode lock flags w = Ret (0, inode') w' →
   scoutfs_lock_refresh_gen lock' = scoutfs_lock_refresh_gen lock →
   scoutfs_inode_refresh inode' lock' flags' w'' = Ret (0, inode') w'').
Proof.
  split; [apply scoutfs_inode_refresh_current|].
  intros Hrun Hgen. apply scoutfs_inode_refresh_current.
  rewrite Hgen. by eapply scoutfs_inode_refresh_stamps.
Qed.

(** ** The pool of free inode numbers *)




Lemma total_le f g l :
  (∀ pc, (f pc ≤ g pc)%nat) → (total f l ≤ total g l)%nat.
Proof.
  intros Hfg. induction l as [|x l IH]; cbn; [done|].
  specialize (Hfg x). lia.
Qed.

Lemma total_const l : total (λ _, 1%nat) l = length l.
Proof. induction l as [|x l IH]; cbn; [done|]. by rewrite IH. Qed.

Lemma alloc_locked_cases p :
  (alloc_locked p = ({| pool_ino := pool_ino p; pool_nr := pool_nr p;
                        in_flight := true |}, at_request) ∧
   in_flight p = false ∧ pool_nr p = 0 ∧ pool_ino p ≠ U64_MAX) ∨
  (alloc_locked p = (p, at_wait) ∧
   in_flight p = true ∧ pool_nr p = 0 ∧ pool_ino p ≠ U64_MAX) ∨
  (alloc_locked p = (p, returned (- ENOSPC) 0) ∧
   pool_nr p = 0 ∧ pool_ino p = U64_MAX) ∨
  (alloc_locked p = ({| pool_ino := (pool_ino p + 1) mod 2 ^ 64;
                        pool_nr := pool_nr p - 1;
                        in_flight := in_flight p |}, returned 0 (pool_ino p)) ∧
   pool_nr p ≠ 0).
Proof.
  unfold alloc_locked.
  destruct (Z.eqb_spec (pool_nr p) 0) as [Hnr|Hnr];
    destruct (Z.eqb_spec (pool_ino p) U64_MAX) as [Hino|Hino]; cbn [andb negb].
  - right. right. left. done.
  - destruct (in_flight p) eqn:Hfl; [right; left|left]; done.
  - right. right. right. done.
  - right. right. right. done.
Qed.



Lemma pool_run_invariant (P : pool_state → Prop) es s s' :
  (∀ e s s', pool_step e s = Some s' → P s → P s') →
  pool_run es s = Some s' → P s → P s'.
Proof.
  intros Hstep. revert s. induction es as [|e es IH]; intros s; cbn.
  - by intros [= <-].
  - destruct (pool_step e s) as [s1|] eqn:He; [|done].
    intros Hrun HP. apply (IH s1 Hrun). by eapply Hstep.
Qed.

(** *** Before the reply *)



(** *** After the reply *)









(** C6: when the pool holds the mark that no inode numbers are left, next
    number all ones and none remaining, a task that enters
    [scoutfs_alloc_ino] returns [-ENOSPC] with [*ino] 0 in its first step:
    it does not wait, no request is sent, and the pool is what it was, so
    the same holds for every call after it. *)
Theorem scoutfs_alloc_ino_exhausted (s : pool_state) (t : nat) :
  pool_ino (pool s) = U64_MAX → pool_nr (pool s) = 0 →
  tasks s !! t = Some at_lock →
  alloc_locked (pool s) = (pool s, returned (- ENOSPC) 0) ∧
  pool_step (run t) s
  = Some {| pool := pool s;
            tasks := <[t := returned (- ENOSPC) 0]> (tasks s);
            requests := requests s;
            outstanding := outstanding s |}.
Proof.
  intros Hino Hnr Ht.
  assert (alloc_locked (pool s) = (pool s, returned (- ENOSPC) 0)) as Heq.
  { unfold alloc_locked. by rewrite Hino, Hnr. }
  split; [done|]. cbn [pool_step]. by rewrite Ht, Heq.
Qed.

(** ** Inodes with dirty pages *)

Lemma filter_all {A} (P : A → Prop) `{∀ x, Decision (P x)} (l : list A) :
  Forall P l → filter P l = l.
Proof.
  induction 1 as [|x l Hx Hl IH]; [done|].
  by rewrite filter_cons_True, IH.
Qed.

Lemma filter_none {A} (P : A → Prop) `{∀ x, Decision (P x)} (l : list A) :
  Forall (λ x, ¬ P x) l → filter P l = [].
Proof.
  induction 1 as [|x l Hx Hl IH]; [done|].
  by rewrite filter_cons_False.
Qed.

Lemma sorted_after pre si rest :
  StronglySorted Z.lt (pre ++ si :: rest) →
  filter (λ x, si < x) (pre ++ si :: rest) = rest.
Proof.
  intros Hs. apply StronglySorted_app in Hs as (Hlt & _ & Hs).
  apply StronglySorted_cons in Hs as [Hgt _].
  rewrite filter_app, filter_cons_False by lia.
  rewrite (filter_all _ rest) by done.
  rewrite filter_none; [done|].
  apply Forall_forall. intros x Hx.
  specialize (Hlt x si Hx). rewrite elem_of_cons in Hlt.
  specialize (Hlt (or_introl eq_refl)). lia.
Qed.

Lemma sorted_without si rest :
  StronglySorted Z.lt (si :: rest) →
  filter (λ x, x ≠ si) (si :: rest) = rest.
Proof.
  intros [Hgt _]%StronglySorted_cons.
  rewrite filter_cons_False by (intros H; by apply H).
  apply filter_all. eapply Forall_impl; [exact Hgt|]. intros x ?. cbn. lia.
Qed.

Lemma insert_writeback_inode_spec root ins :
  StronglySorted Z.lt root → ins ∉ root →
  ∃ root', insert_writeback_inode root ins = Some root' ∧
           StronglySorted Z.lt root' ∧
           ∀ x, x ∈ root' ↔ x = ins ∨ x ∈ root.
Proof.
  clear igrab filemap_fdatawrite filemap_fdatawait.
  induction root as [|si rest IH]; intros Hs Hni.
  { exists [ins]. split; [done|]. split; [repeat constructor|].
    intros x. rewrite list_elem_of_singleton, elem_of_nil. tauto. }
  cbn [insert_writeback_inode].
  apply StronglySorted_cons in Hs as Hs'. destruct Hs' as [Hgt Hrest].
  rewrite not_elem_of_cons in Hni. destruct Hni as [Hne Hni].
  destruct (Z.ltb_spec ins si) as [Hlt|Hge].
  - exists (ins :: si :: rest). split; [done|].
    split; [|intros x; apply elem_of_cons].
    apply StronglySorted_cons. split; [|done].
    constructor; [done|]. eapply Forall_impl; [exact Hgt|]. intros x ?. cbn. lia.
  - assert ((ins >? si) = true) as -> by lia.
    destruct (IH Hrest Hni) as (root' & -> & Hs' & Hin).
    exists (si :: root'). split; [done|].
    split; [|intros x; rewrite !elem_of_cons, Hin; tauto].
    apply StronglySorted_cons. split; [|done].
    apply Forall_forall. intros x Hx. apply Hin in Hx as [->|Hx]; [lia|].
    by apply (proj1 (Forall_forall _ _) Hgt).
Qed.

(** Waiting for the pages of every inode of the tree, first to last, when
    none of them is being freed and no wait fails. *)
Lemma walk_writeback_wait root ret visited fuel :
  StronglySorted Z.lt root →
  (∀ i, i ∈ root → igrab i = true ∧ filemap_fdatawait i = 0) →
  (length root < fuel)%nat →
  walk_writeback fuel false root (rb_first root) ret visited
  = Some ([], match root with [] => ret | _ => Some 0 end, visited ++ root).
Proof.
  revert ret visited fuel.
  induction root as [|si rest IH]; intros ret visited fuel Hs Hok Hfuel.
  { destruct fuel; [cbn in Hfuel; lia|]. cbn. by rewrite app_nil_r. }
  destruct fuel as [|fuel]; [cbn in Hfuel; lia|].
  cbn [walk_writeback rb_first head].
  assert (si ∈ si :: rest) as Hsi by (apply elem_of_cons; by left).
  destruct (Hok si Hsi) as [-> ->]. cbn [negb Z.eqb].
  assert (RB_EMPTY_NODE (si :: rest) si = false) as Hlinked.
  { unfold RB_EMPTY_NODE. by rewrite bool_decide_eq_true_2. }
  unfold remove_writeback_inode. rewrite !Hlinked.
  cbn [negb]. rewrite (sorted_without si rest Hs).
  pose proof (sorted_after [] si rest Hs) as Hafter. cbn [app] in Hafter.
  unfold rb_next. rewrite Hafter.
  change (head rest) with (rb_first rest).
  rewrite IH.
  - rewrite <- app_assoc. cbn [app]. by destruct rest.
  - by apply StronglySorted_cons in Hs as [_ ?].
  - intros i Hi. apply Hok, elem_of_cons. by right.
  - cbn in Hfuel. lia.
Qed.

(** Starting the write of the pages of the inodes from the cursor on, when
    none of them is being freed and no write fails: the tree stays. *)
Lemma walk_writeback_write pre rest ret visited fuel :
  StronglySorted Z.lt (pre ++ rest) →
  (∀ i, i ∈ rest → igrab i = true ∧ filemap_fdatawrite i = 0) →
  (length rest < fuel)%nat →
  walk_writeback fuel true (pre ++ rest) (head rest) ret visited
  = Some (pre ++ rest, match rest with [] => ret | _ => Some 0 end,
          visited ++ rest).
Proof.
  revert pre ret visited fuel.
  induction rest as [|si rest IH]; intros pre ret visited fuel Hs Hok Hfuel.
  { destruct fuel; [cbn in Hfuel; lia|]. cbn. by rewrite !app_nil_r. }
  destruct fuel as [|fuel]; [cbn in Hfuel; lia|].
  cbn [walk_writeback head].
  assert (si ∈ si :: rest) as Hsi by (apply elem_of_cons; by left).
  destruct (Hok si Hsi) as [-> ->]. cbn [negb Z.eqb].
  assert (RB_EMPTY_NODE (pre ++ si :: rest) si = false) as ->.
  { unfold RB_EMPTY_NODE. rewrite bool_decide_eq_true_2; [done|].
    apply elem_of_app. by right. }
  unfold rb_next. rewrite (sorted_after pre si rest Hs).
  replace (pre ++ si :: rest) with ((pre ++ [si]) ++ rest)
    by by rewrite <- app_assoc.
  rewrite IH.
  - rewrite <- !app_assoc. cbn [app]. by destruct rest.
  - by rewrite <- app_assoc.
  - intros i Hi. apply Hok, elem_of_cons. by right.
  - cbn in Hfuel. lia.
Qed.

(** C9: [scoutfs_inode_queue_writeback] puts an inode into the tree unless
    it is there: queueing it again changes nothing, and the tree stays in
    key order.  A walk that waits, with every inode held and every wait
    returning 0, calls [filemap_fdatawait] for the inodes in ascending
    order and leaves the tree empty; a walk that writes calls
    [filemap_fdatawrite] for them in ascending order and leaves the tree as
    it was.  Both return 0, unless the tree was empty: then [ret] was never
    assigned. *)
Theorem scoutfs_inode_walk_writeback_drains (root : list Z) (ino : Z) :
  StronglySorted Z.lt root →
  (∃ root',
     scoutfs_inode_queue_writeback root ino = Some root' ∧
     scoutfs_inode_queue_writeback root' ino = Some root' ∧
     StronglySorted Z.lt root' ∧
     ∀ x, x ∈ root' ↔ x = ino ∨ x ∈ root) ∧
  ((∀ i, i ∈ root → igrab i = true ∧ filemap_fdatawait i = 0) →
   scoutfs_inode_walk_writeback (S (length root)) false root
   = Some ([], match root with [] => None | _ => Some 0 end, root)) ∧
  ((∀ i, i ∈ root → igrab i = true ∧ filemap_fdatawrite i = 0) →
   scoutfs_inode_walk_writeback (S (length root)) true root
   = Some (root, match root with [] => None | _ => Some 0 end, root)).
Proof.
  intros Hs. split; [|split].
  - unfold scoutfs_inode_queue_writeback, RB_EMPTY_NODE.
    destruct (decide (ino ∈ root)) as [Hin|Hni].
    + rewrite bool_decide_eq_true_2 by done. cbn [negb].
      exists root. rewrite bool_decide_eq_true_2 by done.
      split; [done|]. split; [done|]. split; [done|].
      intros x. split; [by right|by intros [->|]].
    + rewrite bool_decide_eq_false_2 by done. cbn [negb].
      destruct (insert_writeback_inode_spec root ino Hs Hni)
        as (root' & -> & Hs' & Hin).
      exists root'. split; [done|].
      rewrite bool_decide_eq_true_2 by (apply Hin; by left).
      done.
  - intros Hok. unfold scoutfs_inode_walk_writeback.
    rewrite walk_writeback_wait by (done || lia). done.
  - intros Hok. unfold scoutfs_inode_walk_writeback, rb_first.
    rewrite (walk_writeback_write [] root) by (done || (cbn; lia)). done.
Qed.

(** ** The order of the index locks *)

Lemma index_type_num_inj t1 t2 : index_type_num t1 = index_type_num t2 → t1 = t2.
Proof. by destruct t1, t2. Qed.

(** The sign of [cmp_index_lock] is the lexicographic order of the fields. *)
Lemma cmp_index_lock_sign a b :
  (cmp_index_lock a b < 0 ↔ key_lt (index_lock_key a) (index_lock_key b)) ∧
  (cmp_index_lock a b = 0 ↔ index_lock_key a = index_lock_key b) ∧
  (0 < cmp_index_lock a b ↔ key_lt (index_lock_key b) (index_lock_key a)).
Proof.
  unfold cmp_index_lock, elvis, scoutfs_cmp_u64s, index_lock_key, key_lt.
  generalize (index_type_num (il_type a)) (index_type_num (il_type b)).
  intros ta tb.
  repeat match goal with
         | |- context [?x <? ?y] => destruct (Z.ltb_spec x y)
         | |- context [?x >? ?y] => destruct (Z.gtb_spec x y)
         end;
    change (-1 =? 0) with false; change (1 =? 0) with false;
    change (0 =? 0) with true; cbv iota;
    destruct (Z.eqb_spec (ta - tb) 0);
    (split; [|split]); (split; [intros ?|intros ?]);
    try lia; try (simplify_eq; lia); try (assert (ta = tb) by lia; assert (il_major a = il_major b) by lia; assert (il_minor a = il_minor b) by lia; assert (il_ino a = il_ino b) by lia; congruence).
Qed.

Lemma cmp_index_lock_trans a b c :
  cmp_index_lock a b ≤ 0 → cmp_index_lock b c ≤ 0 → cmp_index_lock a c ≤ 0.
Proof.
  destruct (cmp_index_lock_sign a b) as (Hab & Hab0 & _).
  destruct (cmp_index_lock_sign b c) as (Hbc & Hbc0 & _).
  destruct (cmp_index_lock_sign a c) as (Hac & Hac0 & _).
  intros H1 H2.
  assert (key_lt (index_lock_key a) (index_lock_key b)
          ∨ index_lock_key a = index_lock_key b) as H1'
    by (destruct (decide (cmp_index_lock a b = 0)); [right; tauto|left; apply Hab; lia]).
  assert (key_lt (index_lock_key b) (index_lock_key c)
          ∨ index_lock_key b = index_lock_key c) as H2'
    by (destruct (decide (cmp_index_lock b c = 0)); [right; tauto|left; apply Hbc; lia]).
  assert (key_lt (index_lock_key a) (index_lock_key c)
          ∨ index_lock_key a = index_lock_key c) as [H|H];
    [|apply Hac in H; lia|apply Hac0 in H; lia].
  clear Hab Hab0 Hbc Hbc0 Hac Hac0 H1 H2.
  destruct (index_lock_key a) as [[[ta ma] mia] ia].
  destruct (index_lock_key b) as [[[tb mb] mib] ib].
  destruct (index_lock_key c) as [[[tc mc] mic] ic].
  unfold key_lt in *.
  destruct H1' as [H1|H1], H2' as [H2|H2]; simplify_eq; try (left; lia);
    try (by left); by right.
Qed.

(** X1: [cmp_index_lock] orders the entries by type, then major, then
    minor, then inode number: it returns 0 exactly for entries that agree
    in all four, it is negative one way round exactly when it is positive
    the other way round, and it is transitive. *)
Theorem cmp_index_lock_order (a b c : index_lock) :
  (cmp_index_lock a b = 0 ↔
   il_type a = il_type b ∧ il_major a = il_major b ∧
   il_minor a = il_minor b ∧ il_ino a = il_ino b) ∧
  (cmp_index_lock a b < 0 ↔ 0 < cmp_index_lock b a) ∧
  (cmp_index_lock a b ≤ 0 → cmp_index_lock b c ≤ 0 → cmp_index_lock a c ≤ 0).
Proof.
  destruct (cmp_index_lock_sign a b) as (Hab & Hab0 & _).
  destruct (cmp_index_lock_sign b a) as (_ & _ & Hba).
  split; [|split].
  - rewrite Hab0. unfold index_lock_key. split.
    + intros [= Ht -> -> ->]. by apply index_type_num_inj in Ht.
    + by intros (-> & -> & -> & ->).
  - by rewrite Hab, Hba.
  - apply cmp_index_lock_trans.
Qed.

(** *** Sorting *)

Lemma list_sort_insert_perm x l : list_sort_insert x l ≡ₚ x :: l.
Proof.
  induction l as [|y l IH]; [done|]. cbn [list_sort_insert].
  destruct (cmp_index_lock x y <=? 0); [done|].
  rewrite IH. apply Permutation_swap.
Qed.

Lemma list_sort_perm l : list_sort l ≡ₚ l.
Proof.
  induction l as [|x l IH]; [done|]. cbn [list_sort foldr].
  fold (list_sort l). by rewrite list_sort_insert_perm, IH.
Qed.

Lemma list_sort_insert_sorted x l :
  index_sorted l → index_sorted (list_sort_insert x l).
Proof.
  unfold index_sorted. induction 1 as [|y l Hs IH Hy]; cbn [list_sort_insert].
  { repeat constructor. }
  destruct (Z.leb_spec (cmp_index_lock x y) 0) as [Hle|Hgt].
  - constructor; [by constructor|]. constructor; [done|].
    eapply Forall_impl; [exact Hy|]. intros z Hz. by eapply cmp_index_lock_trans.
  - constructor; [done|].
    rewrite list_sort_insert_perm. constructor; [|done].
    destruct (cmp_index_lock_sign x y) as (_ & _ & Hxy).
    destruct (cmp_index_lock_sign y x) as (Hyx & _ & _).
    apply Hxy, Hyx in Hgt. lia.
Qed.

Lemma list_sort_sorted l : index_sorted (list_sort l).
Proof.
  induction l as [|x l IH]; [constructor|].
  cbn [list_sort foldr]. by apply list_sort_insert_sorted.
Qed.

Lemma key_lt_irrefl k : ¬ key_lt k k.
Proof. destruct k as [[[t ma] mi] i]. unfold key_lt. lia. Qed.

Lemma index_sorted_strict l :
  index_sorted l → distinct_keys l → index_strictly_sorted l.
Proof.
  unfold index_sorted, distinct_keys, index_strictly_sorted.
  induction 1 as [|x l Hs IH Hx]; [constructor|].
  cbn [map]. rewrite NoDup_cons. intros [Hni Hnd].
  constructor; [by apply IH|].
  rewrite Forall_forall in Hx. apply Forall_forall. intros y Hy.
  specialize (Hx y Hy).
  destruct (decide (cmp_index_lock x y = 0)) as [H0|]; [|lia].
  apply cmp_index_lock_sign in H0. destruct Hni. rewrite H0.
  by apply list_elem_of_fmap_2.
Qed.

Lemma index_strictly_sorted_distinct l :
  index_strictly_sorted l → distinct_keys l.
Proof.
  unfold distinct_keys, index_strictly_sorted.
  induction 1 as [|x l Hs IH Hx]; [constructor|].
  cbn [map]. apply NoDup_cons. split; [|done].
  intros (y & Hk & Hy)%list_elem_of_fmap.
  rewrite Forall_forall in Hx. specialize (Hx y Hy).
  apply cmp_index_lock_sign in Hx. rewrite Hk in Hx.
  by apply key_lt_irrefl in Hx.
Qed.

(** *** Finding a lock in the sorted list *)

Lemma key_lt_trans a b c : key_lt a b → key_lt b c → key_lt a c.
Proof.
  destruct a as [[[ta ma] mia] ia], b as [[[tb mb] mib] ib],
    c as [[[tc mc] mic] ic].
  unfold key_lt. lia.
Qed.

Lemma find_index_lock_walk_sorted needle lst e :
  index_strictly_sorted lst → e ∈ lst →
  index_lock_key e = index_lock_key needle →
  find_index_lock_walk needle lst = il_lock e.
Proof.
  unfold index_strictly_sorted.
  induction 1 as [|h rest Hs IH Hh]; [by intros ?%elem_of_nil|].
  intros He Hk. cbn [find_index_lock_walk].
  destruct (cmp_index_lock_sign needle h) as (Hlt & Heq & Hgt).
  rewrite Forall_forall in Hh.
  destruct (Z.eqb_spec (cmp_index_lock needle h) 0) as [H0|Hn0].
  - apply elem_of_cons in He as [->|He]; [done|].
    specialize (Hh e He). apply cmp_index_lock_sign in Hh.
    rewrite Hk, (proj1 Heq H0) in Hh. by apply key_lt_irrefl in Hh.
  - apply elem_of_cons in He as [->|He]; [by destruct Hn0; apply Heq|].
    destruct (Z.ltb_spec (cmp_index_lock needle h) 0) as [Hneg|Hpos];
      [|by apply IH].
    specialize (Hh e He). apply cmp_index_lock_sign in Hh.
    rewrite Hk in Hh. apply Hlt in Hneg.
    destruct (key_lt_irrefl (index_lock_key h)). by eapply key_lt_trans.
Qed.

Lemma find_index_lock_walk_none needle lst :
  (∀ e, e ∈ lst → index_lock_key e ≠ index_lock_key needle) →
  find_index_lock_walk needle lst = None.
Proof.
  induction lst as [|h rest IH]; [done|]. intros Hne.
  cbn [find_index_lock_walk].
  destruct (Z.eqb_spec (cmp_index_lock needle h) 0) as [H0|Hn0].
  { apply cmp_index_lock_sign in H0. destruct (Hne h); [by left|done]. }
  destruct (cmp_index_lock needle h <? 0); [done|].
  apply IH. intros e He. apply Hne. by right.
Qed.

Lemma find_index_lock_clamped lst type major minor ino :
  find_index_lock lst type major minor ino
  = find_index_lock_walk (clamped ino type major minor) lst.
Proof.
  unfold find_index_lock, clamped.
  by destruct (clamp_inode_index type major minor ino) as [[ma mi] i].
Qed.

(** X2: in a list that is in the strict order of [cmp_index_lock],
    [find_index_lock] returns the lock of the entry whose type, major,
    minor and inode number are those that [clamp_inode_index] gives for the
    item; and in any list, when there is no such entry, it returns NULL. *)
Theorem find_index_lock_sorted (lst : list index_lock) (type : index_type)
    (major minor ino : Z) (e : index_lock) :
  (index_strictly_sorted lst → e ∈ lst →
   index_lock_key e = index_lock_key (clamped ino type major minor) →
   find_index_lock lst type major minor ino = il_lock e) ∧
  ((∀ e', e' ∈ lst →
          index_lock_key e' ≠ index_lock_key (clamped ino type major minor)) →
   find_index_lock lst type major minor ino = None).
Proof.
  rewrite find_index_lock_clamped. split.
  - apply find_index_lock_walk_sorted.
  - apply find_index_lock_walk_none.
Qed.

(** *** Adding entries *)

Lemma existsb_same_index_lock type major minor ino lst :
  existsb (same_index_lock type major minor ino) lst = true ↔
  (index_type_num type, major, minor, ino) ∈ map index_lock_key lst.
Proof.
  rewrite existsb_exists, list_elem_of_fmap.
  split.
  - intros (e & He & Hsame). exists e. split; [|by apply list_elem_of_In].
    unfold same_index_lock in Hsame.
    apply andb_prop in Hsame as [Hsame Hi]. apply andb_prop in Hsame as [Hsame Hmi].
    apply andb_prop in Hsame as [Ht Hma].
    apply bool_decide_eq_true in Ht. unfold index_lock_key.
    repeat f_equal; [by rewrite Ht|..]; symmetry; by apply Z.eqb_eq.
  - intros (e & Hk & He). exists e. split; [by apply list_elem_of_In|].
    unfold index_lock_key in Hk. injection Hk as Ht%index_type_num_inj -> -> ->.
    unfold same_index_lock. rewrite !Z.eqb_refl, bool_decide_eq_true_2; done.
Qed.

Lemma extends_refl l : extends l l.
Proof. by split; [|split]. Qed.

Lemma extends_trans l1 l2 l3 : extends l1 l2 → extends l2 l3 → extends l1 l3.
Proof.
  intros (Hd1 & Hu1 & Hk1) (Hd2 & Hu2 & Hk2).
  split; [|split]; eauto.
Qed.

Lemma add_index_lock_grows lst ino type major minor w :
  ∃ r l' w',
    add_index_lock lst ino type major minor w = Ret (r, l') w' ∧
    (r = 0 ∨ r = - ENOMEM) ∧
    (r ≠ 0 → l' = lst) ∧
    (l' = lst ∨ l' = clamped ino type major minor :: lst) ∧
    extends lst l' ∧
    (r = 0 → index_lock_key (clamped ino type major minor)
             ∈ map index_lock_key l') ∧
    (index_lock_key (clamped ino type major minor) ∈ map index_lock_key lst →
     r = 0 ∧ l' = lst ∧ w' = w).
Proof.
  unfold add_index_lock, clamped.
  destruct (clamp_inode_index type major minor ino) as [[ma mi] i].
  unfold index_lock_key at 1 3. cbn [il_type il_major il_minor il_ino].
  destruct (existsb (same_index_lock type ma mi i) lst) eqn:Hex.
  - apply existsb_same_index_lock in Hex.
    exists 0, lst, w. unfold ret. split; [done|]. split; [by left|].
    split; [done|]. split; [by left|]. split; [apply extends_refl|]. done.
  - assert ((index_type_num type, ma, mi, i) ∉ map index_lock_key lst) as Hni.
    { intros Hin%existsb_same_index_lock. congruence. }
    unfold bind. rewrite kzalloc_run.
    destruct (hd_fault w).
    + change (- ENOMEM =? 0) with false. cbn [negb]. unfold ret.
      eexists _, _, _. split; [reflexivity|]. split; [by right|].
      split; [done|]. split; [by left|]. split; [apply extends_refl|].
      split; [done|]. done.
    + change (0 =? 0) with true. cbn [negb]. unfold ret.
      eexists _, _, _. split; [reflexivity|]. split; [by left|].
      split; [done|]. split; [by right|]. split; [|split; [|done]].
      * split; [|split].
        -- unfold distinct_keys. cbn [map]. intros Hd. by apply NoDup_cons.
        -- unfold unlocked. intros Hu. by constructor.
        -- intros k Hk. cbn [map]. by right.
      * intros _. cbn [map]. by left.
Qed.

(** X3: [add_index_lock] puts the entry of an index item on the list unless
    an entry with the same type, major, minor and inode number is there: no
    two entries of the list ever agree in these, a second add of the same
    item allocates nothing and changes nothing, and when the allocation
    fails the list is as it was. *)
Theorem add_index_lock_adds_once (lst : list index_lock) (ino : Z)
    (type : index_type) (major minor : Z) (w : world) :
  ∃ r l' w',
    add_index_lock lst ino type major minor w = Ret (r, l') w' ∧
    (r = 0 ∨ (r = - ENOMEM ∧ l' = lst)) ∧
    (distinct_keys lst → distinct_keys l') ∧
    (r = 0 →
     index_lock_key (clamped ino type major minor) ∈ map index_lock_key l' ∧
     add_index_lock l' ino type major minor w' = Ret (0, l') w').
Proof.
  destruct (add_index_lock_grows lst ino type major minor w)
    as (r & l' & w' & Hrun & Hr & Herr & _ & (Hd & _) & Hin & _).
  exists r, l', w'. split; [done|]. split; [|split; [done|]].
  - destruct Hr as [->| ->]; [by left|right]. split; [done|]. by apply Herr.
  - intros Hr0. split; [by apply Hin|].
    destruct (add_index_lock_grows l' ino type major minor w')
      as (r2 & l2 & w2 & -> & _ & _ & _ & _ & _ & Hsame).
    by destruct (Hsame (Hin Hr0)) as (-> & -> & ->).
Qed.

(** *** What preparing puts on the list *)

Lemma prepared_for_extends si ino l l' u :
  extends l l' → prepared_for si ino l u → prepared_for si ino l' u.
Proof.
  intros (_ & _ & Hk). destruct u as [[type major] minor].
  intros [Hins Hdel]. split; [by intros ?; apply Hk, Hins|].
  intros s Hs Hd. by eapply Hk, Hdel.
Qed.

Lemma prepare_index_items_grows si lst ino mode type major minor w :
  ∃ r l' w',
    prepare_index_items si lst ino mode type major minor w = Ret (r, l') w' ∧
    extends lst l' ∧
    (r = 0 → prepared_for si ino l' (type, major, minor)).
Proof.
  unfold prepare_index_items, bind.
  destruct (will_ins_index si type major minor) eqn:Hins.
  - destruct (add_index_lock_grows lst ino type major minor w)
      as (r & l1 & w1 & -> & Hr & _ & _ & He1 & Hin1 & _).
    cbn [fst snd].
    destruct (Z.eqb_spec r 0) as [->|Hne]; cbn [negb].
    2:{ unfold ret. by eexists _, _, _. }
    destruct si as [s|].
    2:{ unfold ret. eexists _, _, _. split; [done|]. split; [done|].
        intros _. split; [by intros _; apply Hin1|]. by intros s. }
    destruct (will_del_index (Some s) type major minor) eqn:Hdel.
    + destruct (add_index_lock_grows l1 ino type (idx (item_majors s) type)
                  (idx (item_minors s) type) w1)
        as (r2 & l2 & w2 & -> & _ & _ & _ & He2 & Hin2 & _).
      eexists _, _, _. split; [done|].
      split; [by eapply extends_trans|]. intros ->.
      split; [intros _; by apply He2, Hin1|].
      intros s' [= <-] _. by apply Hin2.
    + unfold ret. eexists _, _, _. split; [done|]. split; [done|].
      intros _. split; [by intros _; apply Hin1|]. intros s' [= <-] ?; congruence.
  - unfold ret. cbn [fst snd]. change (0 =? 0) with true. cbn [negb].
    destruct si as [s|]; [|done].
    destruct (will_del_index (Some s) type major minor) eqn:Hdel.
    + destruct (add_index_lock_grows lst ino type (idx (item_majors s) type)
                  (idx (item_minors s) type) w)
        as (r2 & l2 & w2 & -> & _ & _ & _ & He2 & Hin2 & _).
      eexists _, _, _. split; [done|]. split; [done|]. intros ->.
      split; [intros ?; congruence|]. intros s' [= <-] _. by apply Hin2.
    + eexists _, _, _. split; [done|]. split; [apply extends_refl|].
      intros _. split; [intros ?; congruence|]. intros s' [= <-] ?; congruence.
Qed.

Lemma prepare_indices_loop_grows si lst ino mode upds w :
  ∃ r l' w',
    prepare_indices_loop si lst ino mode upds 0 w = Ret (r, l') w' ∧
    extends lst l' ∧
    (r = 0 → ∀ u, u ∈ upds → inode_has_index mode u.1.1 = true →
             prepared_for si ino l' u).
Proof.
  revert lst w. induction upds as [|[[type major] minor] upds IH]; intros lst w.
  { eexists _, _, _. split; [done|]. split; [apply extends_refl|].
    by intros _ u ?%elem_of_nil. }
  cbn [prepare_indices_loop].
  destruct (inode_has_index mode type) eqn:Hhas; cbn [negb].
  - unfold bind.
    destruct (prepare_index_items_grows si lst ino mode type major minor w)
      as (r & l1 & w1 & -> & He1 & Hp1).
    cbn [fst snd].
    destruct (Z.eqb_spec r 0) as [->|Hne]; cbn [negb].
    2:{ unfold ret. by eexists _, _, _. }
    destruct (IH l1 w1) as (r2 & l2 & w2 & -> & He2 & Hp2).
    eexists _, _, _. split; [done|]. split; [by eapply extends_trans|].
    intros -> u [->|Hu]%elem_of_cons Hhu.
    + eapply prepared_for_extends; [exact He2|]. by apply Hp1.
    + by apply Hp2.
  - destruct (IH lst w) as (r2 & l2 & w2 & -> & He2 & Hp2).
    eexists _, _, _. split; [done|]. split; [done|].
    intros -> u [->|Hu]%elem_of_cons Hhu; [cbn in Hhu; congruence|].
    by apply Hp2.
Qed.

Lemma upd_data_seq_run s set_data_seq w :
  upd_data_seq (Some s) set_data_seq w
  = Ret (data_seq_after s set_data_seq (trans_seq w)) w.
Proof.
  unfold upd_data_seq, data_seq_after, get, ret.
  by destruct (negb (have_item s) || set_data_seq).
Qed.

Lemma scoutfs_inode_index_prepare_grows lst inode new_size set_data_seq w :
  ∃ r l' w',
    scoutfs_inode_index_prepare lst inode new_size set_data_seq w
      = Ret (r, l') w' ∧
    still w w' ∧ r ≤ 0 ∧ extends lst l' ∧
    (r = 0 →
     ∀ u, u ∈ index_updates new_size (trans_seq w)
                (data_seq_after inode set_data_seq (trans_seq w)) →
          inode_has_index (i_mode inode) u.1.1 = true →
          prepared_for (Some inode) (ino inode) l' u).
Proof.
  destruct (prepare_indices_prepares lst (Some inode) (ino inode) (i_mode inode)
              new_size set_data_seq w) as (r & l' & w' & Hrun & Hs & Hr & _).
  exists r, l', w'. unfold scoutfs_inode_index_prepare.
  split; [done|]. split; [done|]. split; [done|].
  unfold prepare_indices, bind, get in Hrun. rewrite upd_data_seq_run in Hrun.
  destruct (prepare_indices_loop_grows (Some inode) lst (ino inode) (i_mode inode)
              (index_updates new_size (trans_seq w)
                 (data_seq_after inode set_data_seq (trans_seq w))) w)
    as (r2 & l2 & w2 & Hrun2 & He & Hp).
  rewrite Hrun2 in Hrun. injection Hrun as -> -> ->. done.
Qed.

(** *** The sorted, locked list covers what was prepared *)

Lemma cmp_index_lock_locked a b :
  cmp_index_lock (locked a) (locked b) = cmp_index_lock a b.
Proof. done. Qed.

Lemma index_lock_key_locked a : index_lock_key (locked a) = index_lock_key a.
Proof. done. Qed.

Lemma distinct_keys_perm l l' : l ≡ₚ l' → distinct_keys l → distinct_keys l'.
Proof.
  unfold distinct_keys. intros Hp. by rewrite (Permutation_map index_lock_key Hp).
Qed.

Lemma unlocked_perm l l' : l ≡ₚ l' → unlocked l → unlocked l'.
Proof. unfold unlocked. by intros ->. Qed.

Lemma index_strictly_sorted_locked l :
  index_strictly_sorted l → index_strictly_sorted (map locked l).
Proof.
  unfold index_strictly_sorted. induction 1 as [|x l Hs IH Hx]; [constructor|].
  cbn [map]. constructor; [done|].
  apply Forall_forall. intros y (z & -> & Hz)%list_elem_of_fmap.
  rewrite cmp_index_lock_locked. rewrite Forall_forall in Hx. by apply Hx.
Qed.

Lemma covered_locked_sorted l ino type major minor :
  distinct_keys l →
  index_lock_key (clamped ino type major minor) ∈ map index_lock_key l →
  covered (map locked (list_sort l)) ino type major minor.
Proof.
  intros Hd (e & Hk & He)%list_elem_of_fmap.
  unfold covered. rewrite find_index_lock_clamped.
  rewrite (find_index_lock_walk_sorted _ _ (locked e)).
  - unfold locked, with_lock. cbn [il_lock il_type il_major il_ino].
    unfold index_lock_key in Hk.
    injection Hk as Ht%index_type_num_inj Hma _ Hi. by rewrite Ht, Hma, Hi.
  - apply index_strictly_sorted_locked, index_sorted_strict;
      [apply list_sort_sorted|].
    eapply distinct_keys_perm; [|exact Hd]. symmetry. apply list_sort_perm.
  - apply list_elem_of_fmap_2. by rewrite list_sort_perm.
  - by rewrite index_lock_key_locked.
Qed.

(** *** Nothing stays held after a failure *)

Lemma lock_names_unlocked l : unlocked l → lock_names l = ∅.
Proof.
  unfold unlocked. induction 1 as [|il l Hil Hl IH]; [done|].
  by rewrite lock_names_cons, Hil.
Qed.

Lemma lock_index_locks_held l w :
  unlocked l →
  ∃ r l' w',
    lock_index_locks l w = Ret (r, l') w' ∧
    holders w' = holders w ∧ held w' = held w ⊎ lock_names l' ∧
    (r = 0 ∨ r < 0) ∧
    (r = 0 → l' = map locked l ∧ trace w' = trace w ++ lock_events l).
Proof.
  intros Hu. revert w. induction Hu as [|il rest Hil Hu IH]; intros w.
  { exists 0, [], w. cbn [lock_index_locks]. unfold ret.
    split; [done|]. split; [done|].
    split; [unfold lock_names; cbn; clear; multiset_solver|].
    split; [by left|]. intros _. split; [done|]. by rewrite app_nil_r. }
  cbn [lock_index_locks]. unfold scoutfs_lock_inode_index, bind.
  rewrite lock_acquire_run.
  destruct (hd_fault w) as [f|] eqn:Hhd; cbn [fst snd].
  - rewrite fault_errno_nonzero. cbn [negb]. unfold ret.
    eexists _, _, _. split; [reflexivity|]. split; [done|].
    pose proof (fault_errno_pos f).
    split; [|split; [right; lia|lia]].
    rewrite lock_names_unlocked by by constructor.
    cbn [held logged set_trace set_faults committed set_commits set_trans_seq_of].
    clear. multiset_solver.
  - change (0 =? 0) with true. cbn [negb].
    match goal with |- context [lock_index_locks rest ?w1] =>
      destruct (IH w1) as (r & l' & w' & -> & Hho & Hhe & Hr & Hok)
    end.
    unfold ret. cbn [fst snd].
    eexists _, _, _. split; [reflexivity|].
    split; [by rewrite Hho|]. split; [|split; [done|]].
    + rewrite Hhe, lock_names_cons. cbn [il_lock with_lock lk_name].
      cbn [held logged set_trace set_held set_faults committed set_commits
           set_trans_seq_of].
      clear. multiset_solver.
    + intros Hr0. destruct (Hok Hr0) as [-> Htr]. split; [done|].
      rewrite Htr.
      cbn [trace logged set_trace set_held set_faults committed set_commits
           set_trans_seq_of lock_events map].
      by rewrite <- app_assoc.
Qed.

Lemma scoutfs_inode_index_try_lock_hold_unwinds l seq w :
  unlocked l →
  ∃ r l' w',
    scoutfs_inode_index_try_lock_hold l seq w = Ret (r, l') w' ∧
    (r ≠ 0 → l' = [] ∧ holders w' = holders w ∧ held w' = held w).
Proof.
  intros Hu. unfold scoutfs_inode_index_try_lock_hold. unfold bind at 1.
  destruct (lock_index_locks_held (list_sort l) w)
    as (r1 & l1 & w1 & -> & Hho1 & Hhe1 & Hr1 & _).
  { eapply unlocked_perm; [|exact Hu]. symmetry. apply list_sort_perm. }
  cbn [fst snd]. unfold bind at 1.
  destruct (Z.eqb_spec r1 0) as [->|Hne]; cbn [negb].
  - unfold bind at 1. rewrite scoutfs_hold_trans_run.
    destruct (hd_fault w1) as [f|] eqn:Hhd.
    + unfold get, bind. rewrite fault_errno_nonzero. cbn [andb]. unfold ret.
      rewrite fault_errno_nonzero. cbn [negb].
      match goal with |- context [scoutfs_inode_index_unlock l1 ?w2] =>
        destruct (scoutfs_inode_index_unlock_spec l1 w2)
          as (w3 & -> & _ & Hho3 & _ & _ & Hhe3 & _)
      end.
      eexists _, _, _. split; [reflexivity|]. intros _. split; [done|].
      cbn [holders held logged set_trace set_faults committed set_commits
           set_trans_seq_of] in Hho3, Hhe3.
      split; [by rewrite Hho3|]. rewrite Hhe3, Hhe1. clear. multiset_solver.
    + unfold get, bind. change (0 =? 0) with true. cbn [andb].
      match goal with |- context [seq =? trans_seq ?w2] =>
        destruct (Z.eqb_spec seq (trans_seq w2)) as [Heq|Hneq]; cbn [negb]
      end.
      * unfold ret. change (0 =? 0) with true. cbn [negb].
        eexists _, _, _. split; [reflexivity|]. done.
      * unfold scoutfs_release_trans, bind, modify, log, modify, ret.
        change (1 =? 0) with false. cbn [negb].
        match goal with |- context [scoutfs_inode_index_unlock l1 ?w2] =>
          destruct (scoutfs_inode_index_unlock_spec l1 w2)
            as (w3 & -> & _ & Hho3 & _ & _ & Hhe3 & _)
        end.
        eexists _, _, _. split; [reflexivity|]. intros _. split; [done|].
        cbn [holders held logged set_trace set_holders set_faults committed
             set_commits set_trans_seq_of] in Hho3, Hhe3.
        split; [by rewrite Hho3|]. rewrite Hhe3, Hhe1. clear. multiset_solver.
  - unfold ret, bind.
    rewrite (proj2 (Z.eqb_neq r1 0) Hne). cbn [negb].
    destruct (scoutfs_inode_index_unlock_spec l1 w1)
      as (w3 & -> & _ & Hho3 & _ & _ & Hhe3 & _).
    eexists _, _, _. split; [reflexivity|]. intros _. split; [done|].
    split; [by rewrite Hho3|]. rewrite Hhe3, Hhe1. clear. multiset_solver.
Qed.

(** X5: when [scoutfs_inode_index_try_lock_hold], run on a list none of
    whose entries holds a lock, returns anything but 0 (an error of a lock
    or of the transaction, or 1 for a retry), it has released every lock it
    took and, if it held the transaction, released that too: the list is
    empty and the caller holds what it held before the call.  When it
    returns 0 the transaction is held once more and the locks held are
    those of the list. *)
Theorem scoutfs_inode_index_try_lock_hold_releases (l : list index_lock)
    (seq : Z) (w : world) :
  unlocked l →
  ∃ r l' w',
    scoutfs_inode_index_try_lock_hold l seq w = Ret (r, l') w' ∧
    (r ≠ 0 → l' = [] ∧ holders w' = holders w ∧ held w' = held w) ∧
    (r = 0 → holders w' = S (holders w) ∧ held w' = held w ⊎ lock_names l').
Proof.
  intros Hu.
  destruct (scoutfs_inode_index_try_lock_hold_unwinds l seq w Hu)
    as (r & l' & w' & Hrun & Hne).
  exists r, l', w'. split; [done|]. split; [done|]. intros ->.
  destruct (scoutfs_inode_index_try_lock_hold_spec l seq w)
    as (r2 & l2 & w2 & Hrun2 & _ & _ & _ & Hzero & _).
  rewrite Hrun in Hrun2. injection Hrun2 as <- <- <-.
  by destruct (Hzero eq_refl) as (_ & _ & ? & ?).
Qed.

(** *** What [scoutfs_inode_index_lock_hold] returns with *)

Lemma covers_update_prepared si l u :
  distinct_keys l → prepared_for (Some si) (ino si) l u →
  covers_update si (map locked (list_sort l)) u.
Proof.
  destruct u as [[type major] minor]. intros Hd [Hins Hdel]. split.
  - intros H. by apply covered_locked_sorted, Hins.
  - intros H. apply covered_locked_sorted; [done|]. by apply Hdel.
Qed.

Lemma scoutfs_inode_index_lock_hold_result fuel inode lst size set_data_seq
    w r L w' :
  distinct_keys lst → unlocked lst →
  scoutfs_inode_index_lock_hold fuel inode lst size set_data_seq w
    = Ret (r, L) w' →
  (r = 0 →
   holders w' = S (holders w) ∧ held w' = held w ⊎ lock_names L ∧
   ∀ u, u ∈ index_updates size (trans_seq w')
              (data_seq_after inode set_data_seq (trans_seq w')) →
        inode_has_index (i_mode inode) u.1.1 = true →
        covers_update inode L u) ∧
  (r ≠ 0 →
   r < 0 ∧ holders w' = holders w ∧ held w' = held w ∧ unlocked L).
Proof.
  revert lst w. induction fuel as [|fuel IH]; intros lst w Hd Hu; [done|].
  cbn [scoutfs_inode_index_lock_hold].
  unfold bind at 1. unfold scoutfs_inode_index_start, get. unfold bind at 1.
  destruct (scoutfs_inode_index_prepare_grows lst inode size set_data_seq w)
    as (r0 & l0 & w0 & -> & Hs0 & Hr0 & (Hd0 & Hu0 & _) & Hp0).
  cbn [fst snd]. unfold bind at 1.
  destruct (Z.eqb_spec r0 0) as [->|Hne]; cbn [negb].
  - destruct (scoutfs_inode_index_try_lock_hold_unwinds l0 (trans_seq w) w0
                (Hu0 Hu)) as (r1 & l1 & w1 & Hrun1 & Hne1).
    destruct (scoutfs_inode_index_try_lock_hold_spec l0 (trans_seq w) w0)
      as (r1' & l1' & w1' & Hrun1' & _ & Hr1 & _ & Hzero & _).
    rewrite Hrun1 in Hrun1'. injection Hrun1' as <- <- <-.
    rewrite Hrun1. cbn [fst snd].
    destruct Hr1 as [->|Hr1].
    + change (1 >? 0) with true. cbv iota.
      destruct Hne1 as (-> & Hho1 & Hhe1); [done|].
      intros Hrun. apply IH in Hrun; [|constructor|constructor].
      rewrite Hho1, Hhe1, (still_holders _ _ Hs0), (still_held _ _ Hs0) in Hrun.
      done.
    + assert ((r1 >? 0) = false) as -> by lia. unfold ret.
      intros [= <- <- <-]. split.
      * intros ->. destruct (Hzero eq_refl) as (Hseq & -> & Hho & Hhe).
        rewrite Hho, Hhe, (still_holders _ _ Hs0), (still_held _ _ Hs0).
        split; [done|]. split; [done|].
        rewrite Hseq. intros u Hu' Hhas.
        apply covers_update_prepared; [by apply Hd0|]. by apply Hp0.
      * intros Hne. destruct (Hne1 Hne) as (-> & Hho & Hhe).
        rewrite Hho, Hhe, (still_holders _ _ Hs0), (still_held _ _ Hs0).
        split; [lia|]. split; [done|]. split; [done|]. constructor.
  - unfold ret. cbn [fst snd]. assert ((r0 >? 0) = false) as -> by lia.
    intros [= <- <- <-]. split; [done|]. intros _.
    rewrite (still_holders _ _ Hs0), (still_held _ _ Hs0).
    split; [lia|]. split; [done|]. split; [done|]. by apply Hu0.
Qed.

(** X4: when [scoutfs_inode_index_lock_hold], called with an empty list,
    returns 0, the transaction is held once more, the locks of the list are
    held, and the list has a lock for every index item that an update of
    the inode to the given size in this transaction will create or delete:
    for each index that the inode has, [find_index_lock] finds the lock of
    the item with the new value and, when it differs, the lock of the item
    with the value that the inode info remembers. *)
Theorem scoutfs_inode_index_lock_hold_covers (fuel : nat)
    (inode : scoutfs_inode_info) (size : Z) (set_data_seq : bool)
    (w w' : world) (L : list index_lock) :
  scoutfs_inode_index_lock_hold fuel inode [] size set_data_seq w
    = Ret (0, L) w' →
  holders w' = S (holders w) ∧ held w' = held w ⊎ lock_names L ∧
  ∀ u, u ∈ index_updates size (trans_seq w')
             (data_seq_after inode set_data_seq (trans_seq w')) →
       inode_has_index (i_mode inode) u.1.1 = true →
       covers_update inode L u.
Proof.
  intros Hrun.
  apply scoutfs_inode_index_lock_hold_result in Hrun; [|constructor|constructor].
  by apply Hrun.
Qed.

(** X6: when [scoutfs_inode_index_lock_hold], called with an empty list,
    returns an error, the caller holds what it held before the call: the
    transaction is not held, no lock was kept, and the entries that are
    left on the list hold no lock. *)
Theorem scoutfs_inode_index_lock_hold_fails_clean (fuel : nat)
    (inode : scoutfs_inode_info) (size : Z) (set_data_seq : bool)
    (w w' : world) (r : Z) (L : list index_lock) :
  scoutfs_inode_index_lock_hold fuel inode [] size set_data_seq w
    = Ret (r, L) w' →
  r ≠ 0 →
  r < 0 ∧ holders w' = holders w ∧ held w' = held w ∧ unlocked L.
Proof.
  intros Hrun.
  apply scoutfs_inode_index_lock_hold_result in Hrun; [|constructor|constructor].
  by apply Hrun.
Qed.

(** *** The order in which the locks are taken *)

Lemma key_lt_le_eq a b :
  ¬ key_lt a b → ¬ key_lt b a → a = b.
Proof.
  destruct a as [[[ta ma] mia] ia], b as [[[tb mb] mib] ib].
  unfold key_lt. intros H1 H2.
  assert (ta = tb) by lia. assert (ma = mb) by lia.
  assert (mia = mib) by lia. assert (ia = ib) by lia. congruence.
Qed.

Lemma index_sorted_keys_unique l1 l2 :
  index_sorted l1 → index_sorted l2 → l1 ≡ₚ l2 →
  map index_lock_key l1 = map index_lock_key l2.
Proof.
  unfold index_sorted. intros Hs1 Hs2 Hp.
  apply (StronglySorted_unique_strong (λ a b, ¬ key_lt b a)).
  - intros x y _ _ Hxy Hyx. by apply key_lt_le_eq.
  - eapply (StronglySorted_fmap index_lock_key); [|exact Hs1].
    intros x y Hle H. destruct (cmp_index_lock_sign x y) as (_ & _ & Hgt).
    apply Hgt in H. cbv beta in Hle. lia.
  - eapply (StronglySorted_fmap index_lock_key); [|exact Hs2].
    intros x y Hle H. destruct (cmp_index_lock_sign x y) as (_ & _ & Hgt).
    apply Hgt in H. cbv beta in Hle. lia.
  - by apply Permutation_map.
Qed.

Lemma lock_events_keys l1 l2 :
  map index_lock_key l1 = map index_lock_key l2 → lock_events l1 = lock_events l2.
Proof.
  revert l2. induction l1 as [|a l1 IH]; intros [|b l2]; try done.
  cbn [map lock_events]. intros [= Ht%index_type_num_inj Hma _ Hi Hk].
  fold (lock_events l1). fold (lock_events l2).
  by rewrite Ht, Hma, Hi, (IH l2 Hk).
Qed.

(** X7: the locks of a list are taken in the order of [cmp_index_lock],
    whatever the order in which the entries were put on the list: the list
    that [scoutfs_inode_index_try_lock_hold] walks has the entries of the
    prepared list, in ascending order, and two lists with the same entries
    lead to the same sequence of lock calls. *)
Theorem index_locks_taken_in_order (l1 l2 : list index_lock) (w : world) :
  list_sort l1 ≡ₚ l1 ∧ index_sorted (list_sort l1) ∧
  (unlocked l1 → faults w = [] →
   ∃ w', lock_index_locks (list_sort l1) w
         = Ret (0, map locked (list_sort l1)) w' ∧
         trace w' = trace w ++ lock_events (list_sort l1)) ∧
  (l1 ≡ₚ l2 → lock_events (list_sort l1) = lock_events (list_sort l2)).
Proof.
  split; [apply list_sort_perm|]. split; [apply list_sort_sorted|]. split.
  - intros Hu Hf.
    destruct (lock_index_locks_held (list_sort l1) w)
      as (r & l' & w' & Hrun & _ & _ & _ & Hok).
    { eapply unlocked_perm; [|exact Hu]. symmetry. apply list_sort_perm. }
    destruct (lock_index_locks_spec (list_sort l1) w)
      as (r2 & l2' & w2 & Hrun2 & _ & _ & _ & _ & Hnf).
    rewrite Hrun in Hrun2. injection Hrun2 as <- <- <-.
    specialize (Hnf Hf) as ->. destruct (Hok eq_refl) as [-> Htr].
    by exists w'.
  - intros Hp. apply lock_events_keys, index_sorted_keys_unique;
      [apply list_sort_sorted..|].
    by rewrite !list_sort_perm.
Qed.

(** ** What [delete_inode_items] holds and touches *)

Lemma prepare_index_deletion_grows lst ino mode sinode w :
  ∃ r l' w',
    prepare_index_deletion lst ino mode sinode w = Ret (r, l') w' ∧
    still w w' ∧ r ≤ 0 ∧ extends lst l'.
Proof.
  destruct (prepare_index_deletion_prepares lst ino mode sinode w)
    as (r & l' & w' & Hrun & Hs & Hr & _).
  exists r, l', w'. split; [done|]. split; [done|]. split; [done|].
  revert Hrun. unfold prepare_index_deletion.
  generalize (index_updates (size sinode) (meta_seq sinode) (data_seq sinode)).
  intros inds. clear Hs Hr. revert lst w.
  induction inds as [|[[type major] minor] inds IH]; intros lst w.
  { cbn [prepare_index_deletion_loop]. unfold ret. intros [= _ <- _].
    apply extends_refl. }
  cbn [prepare_index_deletion_loop].
  destruct (inode_has_index mode type); cbn [negb]; [|apply IH].
  unfold bind.
  destruct (add_index_lock_grows lst ino type major minor w)
    as (r1 & l1 & w1 & -> & _ & _ & _ & He1 & _).
  cbn [fst snd].
  destruct (Z.eqb_spec r1 0) as [->|Hne]; cbn [negb].
  - intros Hrun. eapply extends_trans; [exact He1|]. by eapply IH.
  - unfold ret. by intros [= _ <- _].
Qed.

Lemma delete_inode_items_retry_result fuel lst ino mode sinode w r L w' :
  unlocked lst →
  delete_inode_items_retry fuel lst ino mode sinode w = Ret (r, L) w' →
  quiet w w' ∧
  (r = 0 → holders w' = S (holders w) ∧ held w' = held w ⊎ lock_names L) ∧
  (r ≠ 0 → holders w' = holders w ∧ held w' = held w ∧ unlocked L).
Proof.
  intros Hu Hrun.
  pose proof (delete_inode_items_retry_spec fuel lst ino mode sinode w) as Hq.
  rewrite Hrun in Hq. destruct Hq as (Hq & _). split; [done|]. clear Hq.
  revert lst w Hu Hrun. induction fuel as [|fuel IH]; intros lst w Hu; [done|].
  cbn [delete_inode_items_retry].
  unfold bind at 1. unfold scoutfs_inode_index_start, get. unfold bind at 1.
  destruct (prepare_index_deletion_grows lst ino mode sinode w)
    as (r0 & l0 & w0 & -> & Hs0 & Hr0 & (_ & Hu0 & _)).
  cbn [fst snd]. unfold bind at 1.
  destruct (Z.eqb_spec r0 0) as [->|Hne]; cbn [negb].
  - destruct (scoutfs_inode_index_try_lock_hold_unwinds l0 (trans_seq w) w0
                (Hu0 Hu)) as (r1 & l1 & w1 & Hrun1 & Hne1).
    destruct (scoutfs_inode_index_try_lock_hold_spec l0 (trans_seq w) w0)
      as (r1' & l1' & w1' & Hrun1' & _ & Hr1 & _ & Hzero & _).
    rewrite Hrun1 in Hrun1'. injection Hrun1' as <- <- <-.
    rewrite Hrun1. cbn [fst snd].
    destruct Hr1 as [->|Hr1].
    + change (1 >? 0) with true. cbv iota.
      destruct Hne1 as (-> & Hho1 & Hhe1); [done|].
      intros Hrun. apply IH in Hrun; [|constructor].
      rewrite Hho1, Hhe1, (still_holders _ _ Hs0), (still_held _ _ Hs0) in Hrun.
      done.
    + assert ((r1 >? 0) = false) as -> by lia. unfold ret.
      intros [= <- <- <-]. split.
      * intros ->. destruct (Hzero eq_refl) as (_ & _ & Hho & Hhe).
        by rewrite Hho, Hhe, (still_holders _ _ Hs0), (still_held _ _ Hs0).
      * intros Hne. destruct (Hne1 Hne) as (-> & Hho & Hhe).
        rewrite Hho, Hhe, (still_holders _ _ Hs0), (still_held _ _ Hs0).
        split; [done|]. split; [done|]. constructor.
  - unfold ret. cbn [fst snd]. assert ((r0 >? 0) = false) as -> by lia.
    intros [= <- <- <-]. split; [done|]. intros _.
    rewrite (still_holders _ _ Hs0), (still_held _ _ Hs0).
    split; [done|]. split; [done|]. by apply Hu0.
Qed.

Lemma remove_index_calm ino type major minor ind_locks w :
  ∃ r w',
    remove_index ino type major minor ind_locks w = Ret r w' ∧
    held w' = held w ∧ holders w' = holders w.
Proof. rewrite remove_index_run. destruct (hd_fault w); by eexists _, _. Qed.

Lemma remove_index_items_calm ino sinode ind_locks w r w' :
  remove_index_items ino sinode ind_locks w = Ret r w' →
  held w' = held w ∧ holders w' = holders w.
Proof.
  unfold remove_index_items, bind.
  destruct (remove_index_calm ino SCOUTFS_INODE_INDEX_SIZE_TYPE (size sinode) 0
              ind_locks w) as (r1 & w1 & -> & Hhe1 & Hho1).
  destruct (negb (r1 =? 0)).
  - unfold ret. destruct ((r1 =? 0) && S_ISREG (mode sinode)).
    + destruct (remove_index_calm ino SCOUTFS_INODE_INDEX_DATA_SEQ_TYPE
                  (data_seq sinode) 0 ind_locks w1) as (r3 & w3 & -> & Hhe3 & Hho3).
      intros [= _ <-]. by rewrite Hhe3, Hho3.
    + by intros [= _ <-].
  - destruct (remove_index_calm ino SCOUTFS_INODE_INDEX_META_SEQ_TYPE
                (meta_seq sinode) 0 ind_locks w1) as (r2 & w2 & -> & Hhe2 & Hho2).
    destruct ((r2 =? 0) && S_ISREG (mode sinode)).
    + destruct (remove_index_calm ino SCOUTFS_INODE_INDEX_DATA_SEQ_TYPE
                  (data_seq sinode) 0 ind_locks w2) as (r3 & w3 & -> & Hhe3 & Hho3).
      intros [= _ <-]. by rewrite Hhe3, Hho3, Hhe2, Hho2.
    + unfold ret. intros [= _ <-]. by rewrite Hhe2, Hho2.
Qed.

Lemma delete_inode_items_out_run release ind_locks ino r w :
  ∃ w',
    delete_inode_items_out release ind_locks
      (Some {| lk_name := ino_lock ino |}) r w = Ret r w' ∧
    quiet w w' ∧
    holders w' = (if release then pred (holders w) else holders w) ∧
    held w' = held w ∖ lock_names ind_locks ∖ {[+ ino_lock ino +]}.
Proof.
  unfold delete_inode_items_out, bind.
  assert (∃ w0, (if release then scoutfs_release_trans else ret ()) w = Ret () w0
                ∧ quiet w w0 ∧ held w0 = held w ∧
                holders w0 = (if release then pred (holders w) else holders w))
    as (w0 & -> & Hq0 & Hhe0 & Hho0).
  { destruct release; [|by exists w; split; [|split; [apply quiet_refl|]]].
    unfold scoutfs_release_trans, bind, modify, log, modify.
    eexists. split; [reflexivity|]. split; [quiet_chain|]. done. }
  destruct (scoutfs_inode_index_unlock_spec ind_locks w0)
    as (w1 & -> & Hq1 & Hho1 & _ & _ & Hhe1 & _).
  unfold scoutfs_unlock, ret, bind, modify, log, modify.
  eexists. split; [reflexivity|].
  split; [eapply quiet_trans; [exact Hq0|]; eapply quiet_trans; [exact Hq1|];
          quiet_chain|].
  cbn [holders held logged set_trace set_held lk_name].
  by rewrite Hho1, Hho0, Hhe1, Hhe0.
Qed.

Lemma lock_names_nil : lock_names [] = ∅.
Proof. done. Qed.

Lemma others_kept_refl ino its : others_kept ino its its.
Proof. by intros k. Qed.

Lemma delete_inode_items_out_frame (release : bool) ind_locks ino r w h n :
  held w = h ⊎ lock_names ind_locks ⊎ {[+ ino_lock ino +]} →
  holders w = (if release then S n else n) →
  ∃ w', delete_inode_items_out release ind_locks
          (Some {| lk_name := ino_lock ino |}) r w = Ret r w' ∧
        items w' = items w ∧ node_id w' = node_id w ∧
        held w' = h ∧ holders w' = n.
Proof.
  intros Hhe Hho.
  destruct (delete_inode_items_out_run release ind_locks ino r w)
    as (w' & -> & Hq & Hho' & Hhe').
  exists w'. split; [done|].
  split; [apply (quiet_items _ _ Hq)|]. split; [apply (quiet_node_id _ _ Hq)|].
  split.
  - rewrite Hhe', Hhe. clear. multiset_solver.
  - rewrite Hho', Hho. by destruct release.
Qed.

Lemma delete_inode_items_frame fuel ino w r w' :
  delete_inode_items fuel ino w = Ret r w' →
  held w' = held w ∧ holders w' = holders w ∧ node_id w' = node_id w ∧
  others_kept ino (items w) (items w') ∧
  (∀ s, items w !! inode_key ino = Some (Some s) → nlink s = 0 → r = 0 →
        reclaimed ino s w').
Proof.
  unfold delete_inode_items. unfold bind at 1. unfold scoutfs_lock_ino.
  rewrite lock_acquire_run.
  destruct (hd_fault w) as [f|] eqn:Hhd; cbn [fst snd].
  { rewrite fault_errno_nonzero. cbn [negb]. unfold ret. intros [= <- <-].
    do 3 (split; [done|]). split; [apply others_kept_refl|].
    intros s _ _ Hr. pose proof (fault_errno_pos f). lia. }
  change (0 =? 0) with true. cbn [negb].
  match goal with |- context [bind _ _ ?w1'] => set (w1 := w1') end.
  assert (held w1 = held w ⊎ {[+ ino_lock ino +]}) as Hhe1 by done.
  assert (holders w1 = holders w) as Hho1 by done.
  assert (items w1 = items w) as Hi1 by done.
  assert (node_id w1 = node_id w) as Hn1 by done.
  unfold bind at 1. rewrite scoutfs_item_lookup_exact_run. rewrite Hi1.
  (* the paths that leave before the retry loop *)
  assert (∀ c e r0,
            delete_inode_items_out false [] (Some {| lk_name := ino_lock ino |})
              r0 (logged c e (set_faults tail w1)) = Ret r w' →
            (∀ s, items w !! inode_key ino = Some (Some s) → nlink s = 0 →
                  r0 ≠ 0) →
            held w' = held w ∧ holders w' = holders w ∧ node_id w' = node_id w ∧
            others_kept ino (items w) (items w') ∧
            (∀ s, items w !! inode_key ino = Some (Some s) → nlink s = 0 →
                  r = 0 → reclaimed ino s w')) as Hearly.
  { intros c e r0 Hrun Hr0.
    destruct (delete_inode_items_out_frame false [] ino r0
                (logged c e (set_faults tail w1)) (held w) (holders w))
      as (w'' & Hrun' & Hi & Hn & Hhe & Hho); [|done|].
    { cbn [held logged set_trace set_faults]. rewrite Hhe1, lock_names_nil.
      clear. multiset_solver. }
    rewrite Hrun' in Hrun. injection Hrun as <- <-.
    split; [done|]. split; [done|]. split; [by rewrite Hn|].
    split; [intros k _; by rewrite Hi|].
    intros s Hs Hl Hr. by destruct (Hr0 s Hs Hl). }
  destruct (hd_fault w1) as [f|] eqn:Hhd1; cbn [fst snd].
  { pose proof (fault_errno_pos f).
    assert ((- fault_errno f <? 0) = true) as -> by lia.
    rewrite fault_errno_ENOENT. intros Hrun. eapply Hearly; [exact Hrun|].
    intros. lia. }
  destruct (items w !! inode_key ino) as [[s|]|] eqn:Hitem; cbn [fst snd].
  2:{ change (- EIO <? 0) with true. change (- EIO =? - ENOENT) with false.
      cbv iota. intros Hrun. eapply Hearly; [exact Hrun|]. by intros. }
  2:{ change (- ENOENT <? 0) with true. change (- ENOENT =? - ENOENT) with true.
      cbv iota. intros Hrun. eapply Hearly; [exact Hrun|]. by intros. }
  change (0 <? 0) with false. cbv iota.
  destruct (Z.eqb_spec (nlink s) 0) as [Hlink|Hlink]; cbn [negb].
  2:{ intros Hrun. eapply Hearly; [exact Hrun|]. intros s' [= <-] ?. done. }
  clear Hearly.
  match goal with |- context [bind _ _ ?w2'] => set (w2 := w2') end.
  assert (held w2 = held w1) as Hhe2 by done.
  assert (holders w2 = holders w1) as Hho2 by done.
  assert (items w2 = items w) as Hi2 by done.
  assert (node_id w2 = node_id w) as Hn2 by done.
  unfold bind at 1.
  destruct (delete_inode_items_retry fuel [] ino (mode s) s w2)
    as [[r3 l] w3| |] eqn:Hretry; [|done..].
  apply delete_inode_items_retry_result in Hretry as (Hq3 & Hz3 & Hne3);
    [|constructor].
  cbn [fst snd].
  assert (items w3 = items w) as Hi3 by by rewrite (quiet_items _ _ Hq3).
  assert (node_id w3 = node_id w) as Hn3 by by rewrite (quiet_node_id _ _ Hq3).
  destruct (Z.eqb_spec r3 0) as [->|Hr3]; cbn [negb].
  2:{ destruct (Hne3 Hr3) as (Hho3 & Hhe3 & Hu3).
      destruct (delete_inode_items_out_frame false l ino r3 w3
                  (held w) (holders w))
        as (w'' & -> & Hi & Hn & Hhe & Hho); [|congruence|].
      { rewrite Hhe3, Hhe2, Hhe1, (lock_names_unlocked l Hu3).
        clear. multiset_solver. }
      intros [= <- <-].
      split; [done|]. split; [done|]. split; [congruence|].
      split; [intros k _; by rewrite Hi, Hi3|]. by intros. }
  destruct (Hz3 eq_refl) as (Hho3 & Hhe3). clear Hz3 Hne3.
  (* every path from here on leaves through [out] with the transaction held *)
  assert (∀ r0 wx,
            held wx = held w3 → holders wx = holders w3 →
            ∃ w'', delete_inode_items_out true l
                     (Some {| lk_name := ino_lock ino |}) r0 wx = Ret r0 w'' ∧
                   items w'' = items wx ∧ node_id w'' = node_id wx ∧
                   held w'' = held w ∧ holders w'' = holders w) as Hout.
  { intros r0 wx Hhe Hho.
    apply (delete_inode_items_out_frame true l ino r0 wx); [|congruence].
    rewrite Hhe, Hhe3, Hhe2, Hhe1. clear. multiset_solver. }
  unfold bind at 1.
  destruct (remove_index_items_spec ino s l w3)
    as (r4 & w4 & Hrun4 & Hn4 & _ & _ & _ & Ho4 & Hz4).
  destruct (remove_index_items_calm _ _ _ _ _ _ Hrun4) as [Hhe4 Hho4].
  rewrite Hrun4. rewrite Hi3 in Ho4.
  assert (others_kept ino (items w) (items w4)) as Hk4.
  { intros k Hk. apply Ho4. intros t ma mi ->. by destruct Hk. }
  destruct (Z.eqb_spec r4 0) as [->|Hr4]; cbn [negb].
  2:{ destruct (Hout r4 w4 Hhe4 Hho4) as (w'' & -> & Hi & Hn & Hhe & Hho).
      intros [= <- <-]. split; [done|]. split; [done|].
      split; [congruence|]. split; [by rewrite Hi|]. by intros. }
  unfold bind at 1.
  rewrite scoutfs_item_delete_run, (Ho4 (inode_key ino)), Hitem by done.
  destruct (hd_fault w4) as [f|] eqn:Hhd4.
  { rewrite fault_errno_nonzero. cbn [negb].
    match goal with |- context [delete_inode_items_out true l _ _ ?wx'] =>
      destruct (Hout (- fault_errno f) wx')
        as (w'' & -> & Hi & Hn & Hhe & Hho); [done..|]
    end.
    intros [= <- <-]. split; [done|]. split; [done|].
    split; [rewrite Hn; cbn; congruence|]. split; [by rewrite Hi|].
    intros s' _ _ Hr. pose proof (fault_errno_pos f). lia. }
  change (0 =? 0) with true. cbn [negb].
  match goal with |- context [bind _ _ ?w5'] => set (w5 := w5') end.
  assert (items w5 = delete (inode_key ino) (items w4)) as Hi5 by done.
  assert (node_id w5 = node_id w) as Hn5 by (subst w5; cbn; congruence).
  assert (held w5 = held w3) as Hhe5 by done.
  assert (holders w5 = holders w3) as Hho5 by done.
  assert (others_kept ino (items w) (items w5)) as Hk5.
  { intros k Hk. rewrite Hi5, lookup_delete_ne by (by intros <-). by apply Hk4. }
  unfold bind at 1. unfold remove_orphan_item, bind, get.
  rewrite scoutfs_item_delete_run, Hn5.
  destruct (hd_fault w5) as [f|] eqn:Hhd5.
  { unfold ret. rewrite fault_errno_ENOENT.
    match goal with |- context [delete_inode_items_out true l _ _ ?wx'] =>
      destruct (Hout (- fault_errno f) wx')
        as (w'' & -> & Hi & Hn & Hhe & Hho); [done..|]
    end.
    intros [= <- <-]. split; [done|]. split; [done|].
    split; [rewrite Hn; cbn; congruence|]. split; [by rewrite Hi|].
    intros s' _ _ Hr. pose proof (fault_errno_pos f). lia. }
  destruct (items w5 !! orphan_key (node_id w) ino) as [v|] eqn:Horph.
  - unfold ret. change (0 =? - ENOENT) with false. cbv iota.
    match goal with |- context [delete_inode_items_out true l _ _ ?wx'] =>
      destruct (Hout 0 wx') as (w'' & -> & Hi & Hn & Hhe & Hho); [done..|]
    end.
    intros [= <- <-]. split; [done|]. split; [done|].
    cbn [items node_id logged set_trace set_items set_faults] in Hi, Hn.
    fold (node_id w5) in Hn.
    split; [congruence|]. split.
    + intros k Hk. rewrite Hi, lookup_delete_ne by (by intros <-). by apply Hk5.
    + intros s' [= <-] _ _. unfold reclaimed. rewrite Hi, Hn, Hn5.
      split; [rewrite lookup_delete_ne, Hi5 by done; apply lookup_delete_eq|].
      split; [apply lookup_delete_eq|].
      intros type Hhas. rewrite lookup_delete_ne, Hi5, lookup_delete_ne by done.
      by apply Hz4.
  - unfold ret. change (- ENOENT =? - ENOENT) with true. cbv iota.
    match goal with |- context [delete_inode_items_out true l _ _ ?wx'] =>
      destruct (Hout 0 wx') as (w'' & -> & Hi & Hn & Hhe & Hho); [done..|]
    end.
    intros [= <- <-]. split; [done|]. split; [done|].
    cbn [items node_id logged set_trace set_items set_faults] in Hi, Hn.
    fold (node_id w5) in Hn.
    split; [congruence|]. split; [by rewrite Hi|].
    intros s' [= <-] _ _. unfold reclaimed. rewrite Hi, Hn, Hn5.
    split; [rewrite Hi5; apply lookup_delete_eq|]. split; [done|].
    intros type Hhas. rewrite Hi5, lookup_delete_ne by done. by apply Hz4.
Qed.

(** X8: whatever [delete_inode_items] returns, and wherever it stopped, it
    has dropped every lock that it took and released the transaction if it
    held it: the locks and the transaction are held as they were before the
    call. *)
Theorem delete_inode_items_releases (fuel : nat) (ino : Z) (w w' : world)
    (r : Z) :
  delete_inode_items fuel ino w = Ret r w' →
  held w' = held w ∧ holders w' = holders w.
Proof.
  intros Hrun. apply delete_inode_items_frame in Hrun as (? & ? & _). done.
Qed.

(** X9: whatever [delete_inode_items] returns, it has only deleted items,
    and only items of the inode it was called for: every item is gone or as
    it was, and the inode items, index items and orphan items of all other
    inodes are as they were. *)
Theorem delete_inode_items_keeps_others (fuel : nat) (ino : Z) (w w' : world)
    (r : Z) :
  delete_inode_items fuel ino w = Ret r w' →
  only_deleted (items w) (items w') ∧
  ∀ k, key_ino k ≠ ino → items w' !! k = items w !! k.
Proof.
  intros Hrun.
  pose proof (delete_inode_items_spec fuel ino w) as Hspec.
  rewrite Hrun in Hspec. destruct Hspec as (_ & Hd & _).
  apply delete_inode_items_frame in Hrun as (_ & _ & _ & Hk & _). done.
Qed.

(** X10: when the inode item is there and has no links, no call fails, and
    the loop is given more passes than commits are still to finish,
    [delete_inode_items] returns 0 and the items of the inode are gone: the
    inode item, the index items that an inode of its mode has, and the
    orphan item, whether or not there was one. *)
Theorem delete_inode_items_reclaims (fuel : nat) (ino : Z) (w : world)
    (s : scoutfs_inode) :
  items w !! inode_key ino = Some (Some s) → nlink s = 0 →
  faults w = [] → (pending_commits w < fuel)%nat →
  ∃ w', delete_inode_items fuel ino w = Ret 0 w' ∧ reclaimed ino s w' ∧
        faults w' = [].
Proof.
  intros Hitem Hlink Hf Hfuel.
  pose proof (delete_inode_items_spec fuel ino w) as Hspec.
  destruct (delete_inode_items fuel ino w) as [r w'| |] eqn:Hrun; [|done|lia].
  destruct Hspec as (_ & _ & _ & Hnf & _).
  destruct (Hnf Hf) as [-> Hf']; [unfold reclaimable; by rewrite Hitem|].
  exists w'. split; [done|]. split; [|done].
  apply delete_inode_items_frame in Hrun as (_ & _ & _ & _ & Hrec).
  by apply (Hrec s).
Qed.

(** ** The orphan item *)

(** X11: [scoutfs_orphan_inode] creates the orphan item of the inode under
    the node's id, and fails with [-EEXIST], changing nothing, when it is
    there; [remove_orphan_item] deletes it, and returns 0, changing
    nothing, when it is not there.  So creating the orphan item and
    removing it again leaves the items as they were. *)
Theorem scoutfs_orphan_inode_remove (inode : scoutfs_inode_info) (w : world) :
  faults w = [] →
  items w !! orphan_key (node_id w) (ino inode) = None →
  ∃ w1 w2 w3 w4,
    scoutfs_orphan_inode inode w = Ret 0 w1 ∧
    items w1 = <[orphan_key (node_id w) (ino inode) := None]> (items w) ∧
    scoutfs_orphan_inode inode w1 = Ret (- EEXIST) w2 ∧ items w2 = items w1 ∧
    remove_orphan_item (ino inode) w2 = Ret 0 w3 ∧ items w3 = items w ∧
    remove_orphan_item (ino inode) w3 = Ret 0 w4 ∧ items w4 = items w.
Proof.
  intros Hf Hnone.
  assert (∀ wx, faults wx = [] → hd_fault wx = None) as Hhd
    by (intros wx; apply hd_fault_nil).
  unfold scoutfs_orphan_inode, remove_orphan_item, bind, get.
  unfold scoutfs_item_create. rewrite !unit_call_run, (Hhd w Hf).
  unfold bind, get, modify, ret. cbn [items set_faults]. rewrite Hnone.
  eexists. eexists. eexists. eexists.
  split; [reflexivity|]. split; [done|].
  cbn [node_id logged set_trace set_items set_faults].
  rewrite unit_call_run.
  rewrite Hhd by (cbn [faults logged set_trace set_items set_faults]; by rewrite Hf).
  unfold bind, get, modify, ret.
  cbn [items logged set_trace set_items set_faults]. rewrite lookup_insert_eq.
  split; [reflexivity|]. split; [done|].
  cbn [node_id logged set_trace set_items set_faults].
  rewrite scoutfs_item_delete_run.
  rewrite Hhd by (cbn [faults logged set_trace set_items set_faults]; by rewrite Hf).
  cbn [items logged set_trace set_items set_faults]. rewrite lookup_insert_eq.
  unfold ret. change (0 =? - ENOENT) with false. cbv iota.
  split; [reflexivity|].
  cbn [items node_id logged set_trace set_items set_faults].
  split; [by apply delete_insert_id|].
  rewrite scoutfs_item_delete_run.
  rewrite Hhd by (cbn [faults logged set_trace set_items set_faults]; by rewrite Hf).
  cbn [items logged set_trace set_items set_faults].
  rewrite lookup_delete_eq.
  unfold ret. change (- ENOENT =? - ENOENT) with true. cbv iota.
  split; [reflexivity|].
  cbn [items logged set_trace set_items set_faults]. by apply delete_insert_id.
Qed.

(** ** Writing the inode item and its index items *)

Lemma update_index_items_cases si ino type major minor lock_list w :
  match update_index_items si ino type major minor lock_list w with
  | Ret r w' =>
      trans_seq w' = trans_seq w ∧ held w' = held w ∧ holders w' = holders w ∧
      node_id w' = node_id w ∧ r ≤ 0 ∧
      (r = 0 → items w' = updated_items si ino type major minor (items w)) ∧
      (faults w = [] → faults w' = [] ∧ r = 0)
  | Bug _ => faults w ≠ []
  | OutOfFuel => False
  end.
Proof.
  unfold update_index_items, updated_items.
  destruct (will_ins_index si type major minor) eqn:Hins; cbn [negb];
    [|by unfold ret].
  unfold bind at 1. rewrite scoutfs_item_create_force_run.
  destruct (hd_fault w) as [f|] eqn:Hhd.
  { rewrite fault_errno_nonzero. cbn [negb orb]. unfold ret.
    pose proof (fault_errno_pos f). do 4 (split; [done|]).
    split; [lia|]. split; [lia|].
    intros Hf. by rewrite (hd_fault_nil _ Hf) in Hhd. }
  change (0 =? 0) with true. cbn [negb orb].
  destruct si as [s|]; cbn [will_del_index negb orb].
  2:{ unfold ret. do 5 (split; [done|]). split; [done|].
      cbn [faults logged set_trace set_items set_faults]. by intros ->. }
  fold (will_del_index (Some s) type major minor).
  destruct (will_del_index (Some s) type major minor) eqn:Hdel; cbn [negb].
  2:{ unfold ret. do 5 (split; [done|]). split; [done|].
      cbn [faults logged set_trace set_items set_faults]. by intros ->. }
  unfold bind at 1. rewrite scoutfs_item_delete_force_run.
  match goal with |- context [hd_fault ?w1'] => set (w1 := w1') end.
  assert (faults w = [] → faults w1 = []) as Hf1
    by (subst w1; cbn [faults logged set_trace set_items set_faults];
        by intros ->).
  destruct (hd_fault w1) as [f|] eqn:Hhd1.
  2:{ change (0 =? 0) with true. cbn [negb]. unfold ret.
      do 5 (split; [done|]). split; [done|].
      cbn [faults logged set_trace set_items set_faults].
      intros Hf. by rewrite (Hf1 Hf). }
  rewrite fault_errno_nonzero. cbn [negb]. unfold bind at 1.
  rewrite scoutfs_item_delete_run.
  match goal with |- context [hd_fault ?w2'] => set (w2 := w2') end.
  assert (faults w ≠ []) as Hne.
  { intros Hf. by rewrite (hd_fault_nil _ (Hf1 Hf)) in Hhd1. }
  destruct (hd_fault w2) as [f2|] eqn:Hhd2.
  { rewrite fault_errno_nonzero. cbn [negb]. by unfold bug. }
  subst w2. cbn [items logged set_trace set_items set_faults].
  subst w1. cbn [items logged set_trace set_items set_faults].
  rewrite lookup_insert_eq. change (0 =? 0) with true. cbn [negb]. unfold ret.
  pose proof (fault_errno_pos f). do 4 (split; [done|]).
  split; [lia|]. split; [lia|]. by intros Hf.
Qed.

Lemma update_indices_loop_cases si ino mode upds lock_list w :
  match update_indices_loop si ino mode upds lock_list 0 w with
  | Ret r w' =>
      trans_seq w' = trans_seq w ∧ held w' = held w ∧ holders w' = holders w ∧
      node_id w' = node_id w ∧ r ≤ 0 ∧
      (r = 0 → items w' = updated_indices si ino mode upds (items w)) ∧
      (faults w = [] → faults w' = [] ∧ r = 0)
  | Bug _ => faults w ≠ []
  | OutOfFuel => False
  end.
Proof.
  revert w. induction upds as [|[[type major] minor] upds IH]; intros w.
  { cbn [update_indices_loop updated_indices]. by unfold ret. }
  cbn [update_indices_loop updated_indices].
  destruct (inode_has_index mode type); cbn [negb]; [|apply IH].
  unfold bind.
  pose proof (update_index_items_cases si ino type major minor lock_list w) as H1.
  destruct (update_index_items si ino type major minor lock_list w)
    as [r1 w1| |]; [|done..].
  destruct H1 as (Hts1 & Hhe1 & Hho1 & Hn1 & Hr1 & Hi1 & Hf1).
  destruct (Z.eqb_spec r1 0) as [->|Hne]; cbn [negb].
  - specialize (IH w1).
    destruct (update_indices_loop si ino mode upds lock_list 0 w1)
      as [r2 w2| |]; [| |done].
    + destruct IH as (Hts2 & Hhe2 & Hho2 & Hn2 & Hr2 & Hi2 & Hf2).
      rewrite <- (Hi1 eq_refl).
      split; [congruence|]. split; [congruence|]. split; [congruence|].
      split; [congruence|]. split; [done|]. split; [done|].
      intros Hf. destruct (Hf1 Hf) as [Hf' _]. by apply Hf2.
    + intros Hf. destruct (Hf1 Hf) as [Hf' _]. by apply IH.
  - unfold ret. do 4 (split; [done|]). split; [done|]. split; [done|].
    intros Hf. by destruct (Hf1 Hf).
Qed.

Lemma updated_items_other si ino type major minor its k :
  (∀ a b, k ≠ inode_index_key type a b ino) →
  updated_items si ino type major minor its !! k = its !! k.
Proof.
  intros Hk. unfold updated_items.
  destruct (will_ins_index si type major minor); [|done].
  destruct si as [s|]; [|by rewrite lookup_insert_ne].
  destruct (will_del_index (Some s) type major minor);
    [rewrite lookup_delete_ne by done|]; by rewrite lookup_insert_ne.
Qed.

Lemma updated_items_same_type inode its type major minor a b :
  (∀ a b, its !! inode_index_key type a b (ino inode)
          = if have_item inode && (a =? idx (item_majors inode) type) &&
               (b =? idx (item_minors inode) type)
            then Some None else None) →
  updated_items (Some inode) (ino inode) type major minor its
    !! inode_index_key type a b (ino inode)
  = if (a =? major) && (b =? minor) then Some None else None.
Proof.
  intros Hpre. unfold updated_items.
  destruct (will_ins_index (Some inode) type major minor) eqn:Hins.
  - destruct (will_del_index (Some inode) type major minor) eqn:Hdel.
    + pose proof (will_del_index_keys _ _ _ _ (ino inode) Hdel) as Hne.
      cbn [will_del_index] in Hdel. apply andb_prop in Hdel as [Hhave Hdiff].
      destruct (Z.eqb_spec a major) as [->|Ha]; cbn [andb].
      * destruct (Z.eqb_spec b minor) as [->|Hb].
        -- rewrite lookup_delete_ne by done. apply lookup_insert_eq.
        -- destruct (decide (inode_index_key type (idx (item_majors inode) type)
                               (idx (item_minors inode) type) (ino inode)
                             = inode_index_key type major b (ino inode)))
             as [->|Hne']; [apply lookup_delete_eq|].
           rewrite lookup_delete_ne, lookup_insert_ne by congruence.
           rewrite Hpre, Hhave. cbn [andb].
           destruct (Z.eqb_spec major (idx (item_majors inode) type)) as [->|];
             [|done].
           destruct (Z.eqb_spec b (idx (item_minors inode) type)) as [->|];
             [|done].
           done.
      * destruct (decide (inode_index_key type (idx (item_majors inode) type)
                            (idx (item_minors inode) type) (ino inode)
                          = inode_index_key type a b (ino inode)))
          as [->|Hne']; [apply lookup_delete_eq|].
        rewrite lookup_delete_ne, lookup_insert_ne by congruence.
        rewrite Hpre, Hhave. cbn [andb].
        destruct (Z.eqb_spec a (idx (item_majors inode) type)) as [->|];
          [|done].
        destruct (Z.eqb_spec b (idx (item_minors inode) type)) as [->|];
          [|done].
        done.
    + assert (have_item inode = false) as Hhave.
      { cbn [will_ins_index will_del_index] in Hins, Hdel.
        destruct (have_item inode); [|done]. cbn [negb orb andb] in *.
        congruence. }
      destruct (Z.eqb_spec a major) as [->|Ha]; cbn [andb].
      * destruct (Z.eqb_spec b minor) as [->|Hb]; [apply lookup_insert_eq|].
        rewrite lookup_insert_ne by congruence. by rewrite Hpre, Hhave.
      * rewrite lookup_insert_ne by congruence. by rewrite Hpre, Hhave.
  - cbn [will_ins_index] in Hins.
    apply orb_false_elim in Hins as [Hhave Hsame].
    apply orb_false_elim in Hsame as [Hma Hmi].
    apply negb_false_iff in Hhave, Hma, Hmi.
    apply Z.eqb_eq in Hma, Hmi. by rewrite Hpre, Hhave, Hma, Hmi.
Qed.

Lemma updated_indices_other si ino mode upds its k :
  (∀ t a b, k ≠ inode_index_key t a b ino) →
  updated_indices si ino mode upds its !! k = its !! k.
Proof.
  intros Hk. revert its.
  induction upds as [|[[type major] minor] upds IH]; intros its; [done|].
  cbn [updated_indices]. rewrite IH.
  destruct (inode_has_index mode type); [|done].
  by apply updated_items_other.
Qed.

Lemma updated_indices_exact inode its sz ms ds t a b :
  index_items_exact inode its →
  updated_indices (Some inode) (ino inode) (i_mode inode)
    (index_updates sz ms ds) its !! inode_index_key t a b (ino inode)
  = if inode_has_index (i_mode inode) t &&
       (a =? idx {| at_size := sz; at_meta_seq := ms; at_data_seq := ds |} t) &&
       (b =? 0)
    then Some None else None.
Proof.
  intros Hex. unfold index_items_exact in Hex.
  cbn [updated_indices index_updates inode_has_index].
  assert (∀ type, inode_has_index (i_mode inode) type = true →
            ∀ a b, its !! inode_index_key type a b (ino inode)
                   = if have_item inode && (a =? idx (item_majors inode) type) &&
                        (b =? idx (item_minors inode) type)
                     then Some None else None) as Hpre.
  { intros type Hhas a' b'. rewrite Hex, Hhas. by rewrite andb_true_r. }
  destruct t; cbn [inode_has_index idx at_size at_meta_seq at_data_seq];
    destruct (S_ISREG (i_mode inode)) eqn:Hreg; cbn [andb].
  - rewrite !updated_items_other by (intros; congruence).
    by apply updated_items_same_type, Hpre.
  - rewrite !updated_items_other by (intros; congruence).
    by apply updated_items_same_type, Hpre.
  - rewrite updated_items_other by (intros; congruence).
    apply updated_items_same_type. intros a' b'.
    rewrite updated_items_other by (intros; congruence). by apply Hpre.
  - apply updated_items_same_type. intros a' b'.
    rewrite updated_items_other by (intros; congruence). by apply Hpre.
  - apply updated_items_same_type. intros a' b'.
    rewrite !updated_items_other by (intros; congruence).
    apply Hpre. by cbn [inode_has_index].
  - rewrite !updated_items_other by (intros; congruence).
    rewrite Hex. cbn [inode_has_index]. rewrite Hreg.
    by rewrite andb_false_r.
Qed.

Lemma scoutfs_inode_set_meta_seq_run inode w :
  scoutfs_inode_set_meta_seq inode w
  = Ret (set_ci_meta_seq (trans_seq w) inode) w.
Proof.
  unfold scoutfs_inode_set_meta_seq, set_trans_seq, bind, get, ret.
  by destruct (Z.eqb_spec (ci_meta_seq inode) (trans_seq w)) as [->|].
Qed.

Lemma scoutfs_inode_set_data_seq_run inode w :
  scoutfs_inode_set_data_seq inode w
  = Ret (set_ci_data_seq (trans_seq w) inode) w.
Proof.
  unfold scoutfs_inode_set_data_seq, set_trans_seq, bind, get, ret.
  by destruct (Z.eqb_spec (ci_data_seq inode) (trans_seq w)) as [->|].
Qed.

Lemma scoutfs_item_update_run k v l w :
  scoutfs_item_update k v l w =
    match hd_fault w with
    | Some f => Ret (- fault_errno f) (set_faults tail w)
    | None => Ret 0 (set_items (insert k v) (set_faults tail w))
    end.
Proof.
  unfold scoutfs_item_update, bind, next_fault, modify, ret.
  by destruct (hd_fault w).
Qed.

Lemma scoutfs_update_inode_item_cases inode lock lock_list w :
  index_items_exact inode (items w) →
  let inode1 := set_ci_meta_seq (trans_seq w) inode in
  match scoutfs_update_inode_item inode lock lock_list w with
  | Ret inode' w' =>
      inode' = set_item_info inode1 (store_inode inode1) ∧
      items w' !! inode_key (ino inode) = Some (Some (store_inode inode')) ∧
      index_items_exact inode' (items w') ∧
      (∀ k, (∀ t a b, k ≠ inode_index_key t a b (ino inode)) →
            k ≠ inode_key (ino inode) → items w' !! k = items w !! k) ∧
      trans_seq w' = trans_seq w ∧ held w' = held w ∧ holders w' = holders w ∧
      (faults w = [] → faults w' = [])
  | Bug _ => faults w ≠ []
  | OutOfFuel => False
  end.
Proof.
  intros Hex inode1. unfold scoutfs_update_inode_item. unfold bind at 1.
  rewrite scoutfs_inode_set_meta_seq_run. fold inode1.
  assert (index_items_exact inode1 (items w)) as Hex1 by done.
  unfold bind at 1. unfold update_indices.
  pose proof (update_indices_loop_cases (Some inode1) (ino inode1) (i_mode inode1)
                (index_updates (size (store_inode inode1))
                   (meta_seq (store_inode inode1))
                   (data_seq (store_inode inode1))) lock_list w) as Hloop.
  destruct (update_indices_loop _ _ _ _ _ _ w) as [r w1| |]; [|done..].
  destruct Hloop as (Hts1 & Hhe1 & Hho1 & Hn1 & Hr1 & Hi1 & Hf1).
  destruct (Z.eqb_spec r 0) as [->|Hne]; cbn [negb].
  2:{ unfold bug. intros Hf. by destruct (Hf1 Hf). }
  specialize (Hi1 eq_refl). unfold bind at 1. rewrite scoutfs_item_update_run.
  destruct (hd_fault w1) as [f|] eqn:Hhd1.
  { rewrite fault_errno_nonzero. cbn [negb]. unfold bug. intros Hf.
    destruct (Hf1 Hf) as [Hf' _]. by rewrite (hd_fault_nil _ Hf') in Hhd1. }
  change (0 =? 0) with true. cbn [negb]. unfold ret.
  cbn [items trans_seq held holders faults set_items set_faults].
  split; [done|]. split; [apply lookup_insert_eq|]. split; [|split].
  - intros type major minor.
    change (ino (set_item_info inode1 (store_inode inode1))) with (ino inode1).
    rewrite lookup_insert_ne by done. rewrite Hi1.
    rewrite updated_indices_exact by done.
    cbn [have_item i_mode item_majors item_minors set_item_info andb].
    by destruct type.
  - intros k Hk Hk'. rewrite lookup_insert_ne by done. rewrite Hi1.
    by apply updated_indices_other.
  - do 3 (split; [done|]). intros Hf. destruct (Hf1 Hf) as [-> _]. done.
Qed.

(** X12: [scoutfs_update_inode_item] keeps the index items of an inode in
    line with its inode item.  When the index items are those that the
    inode info remembers, then after the call the inode item is the stored
    form of the inode, with the meta seq of the current transaction, the
    index items of the inode are exactly those of the values in that item,
    the inode info remembers these values, and no item of another kind or
    of another inode has changed.  The call returns when no call into the
    item cache fails; it never returns an error: a failure ends in
    [BUG_ON]. *)
Theorem scoutfs_update_inode_item_in_line (inode : scoutfs_inode_info)
    (lock : option scoutfs_lock) (lock_list : list index_lock) (w : world) :
  index_items_exact inode (items w) →
  (faults w = [] →
   ∃ inode' w', scoutfs_update_inode_item inode lock lock_list w
                = Ret inode' w') ∧
  (∀ inode' w',
     scoutfs_update_inode_item inode lock lock_list w = Ret inode' w' →
     ci_meta_seq inode' = trans_seq w ∧ have_item inode' = true ∧
     items w' !! inode_key (ino inode) = Some (Some (store_inode inode')) ∧
     index_items_exact inode' (items w') ∧
     ∀ k, (∀ t a b, k ≠ inode_index_key t a b (ino inode)) →
          k ≠ inode_key (ino inode) → items w' !! k = items w !! k) ∧
  (∀ wb, scoutfs_update_inode_item inode lock lock_list w = Bug wb →
         faults w ≠ []).
Proof.
  intros Hex.
  pose proof (scoutfs_update_inode_item_cases inode lock lock_list w Hex) as H.
  cbv zeta in H.
  destruct (scoutfs_update_inode_item inode lock lock_list w)
    as [inode' w'| |]; [| |done].
  - destruct H as (-> & Hitem & Hex' & Hk & _).
    split; [by eexists _, _|]. split; [|done].
    intros ? ? [= <- <-]. done.
  - split; [done|]. split; [done|]. by intros wb _.
Qed.

(** ** Loading and storing the inode *)

Lemma store_timespec_fits t : time_fits t → store_timespec t = t.
Proof.
  destruct t as [s n]. unfold time_fits, store_timespec, u64, u32. cbn.
  intros [Hs Hn]. by rewrite !Z.mod_small.
Qed.

Lemma store_inode_load_inode_item si c :
  item_fits c → store_inode (load_inode si c) = c.
Proof.
  intros (Hsize & _ & Ha & Hc & Hm).
  destruct c as [sz nl ui gi mo rd at_ ct mt ms ds dv np fl].
  unfold store_inode, load_inode, set_item_info, scoutfs_inode_meta_seq,
    scoutfs_inode_data_seq, scoutfs_inode_data_version.
  cbn in *. unfold u64 at 1.
  by rewrite !store_timespec_fits, Z.mod_small.
Qed.

(** X13: [store_inode] and [load_inode] undo each other.  An item whose
    fields fit the fields of the inode is stored back as it was after it
    was loaded; and an inode whose size and times are not negative is
    loaded back as it was after it was stored, with the values of the item
    recorded in the inode info. *)
Theorem store_inode_load_inode (si : scoutfs_inode_info) (c : scoutfs_inode) :
  (item_fits c → store_inode (load_inode si c) = c) ∧
  (inode_fits si →
   load_inode si (store_inode si) = set_item_info si (store_inode si)).
Proof.
  split; [apply store_inode_load_inode_item|].
  intros (Hsize & Ha & Hc & Hm).
  destruct si. unfold store_inode, load_inode, set_item_info. cbn in *.
  unfold u64 at 1.
  by rewrite !store_timespec_fits, Z.mod_small.
Qed.

(** ** Refreshing an inode from its item *)

(** X14: a refresh of an inode that was last refreshed before the refresh
    generation of the lock looks up the inode item and changes no item.
    When the lookup fails, or there is no item, it returns the error and
    the inode is as it was, so that the next refresh looks the item up
    again.  When the item is found it returns 0 and the inode has the
    fields of the item, remembers its indexed values and is marked with the
    generation of the lock.  An inode that was last refreshed after the
    generation of the lock is a [BUG_ON]. *)
Theorem scoutfs_inode_refresh_loads (inode : scoutfs_inode_info)
    (lock : scoutfs_lock) (flags : Z) (w : world) :
  (scoutfs_lock_refresh_gen lock < last_refreshed inode →
   scoutfs_inode_refresh inode lock flags w = Bug w) ∧
  (last_refreshed inode < scoutfs_lock_refresh_gen lock →
   ∃ r inode' w',
     scoutfs_inode_refresh inode lock flags w = Ret (r, inode') w' ∧
     items w' = items w ∧
     match hd_fault w, items w !! inode_key (ino inode) with
     | Some f, _ => r = - fault_errno f ∧ inode' = inode
     | None, None => r = - ENOENT ∧ inode' = inode
     | None, Some None => r = - EIO ∧ inode' = inode
     | None, Some (Some c) =>
         r = 0 ∧
         inode' = set_last_refreshed (scoutfs_lock_refresh_gen lock)
                    (load_inode inode c) ∧
         have_item inode' = true ∧
         (∀ type, idx (item_majors inode') type = indexed c type) ∧
         (item_fits c → store_inode inode' = c)
     end).
Proof.
  split.
  - intros Hgt. unfold scoutfs_inode_refresh.
    by assert ((last_refreshed inode >? scoutfs_lock_refresh_gen lock) = true)
      as -> by lia.
  - intros Hlt. unfold scoutfs_inode_refresh.
    assert ((last_refreshed inode >? scoutfs_lock_refresh_gen lock) = false)
      as -> by lia.
    assert ((last_refreshed inode =? scoutfs_lock_refresh_gen lock) = false)
      as -> by lia.
    assert ((last_refreshed inode <? scoutfs_lock_refresh_gen lock) = true)
      as -> by lia.
    unfold bind. rewrite scoutfs_item_lookup_exact_run.
    destruct (hd_fault w) as [f|]; cbn [fst snd].
    { unfold ret. by eexists _, _, _. }
    destruct (items w !! inode_key (ino inode)) as [[c|]|]; cbn [fst snd];
      unfold ret; [|by eexists _, _, _..].
    change (0 =? 0) with true. cbv iota.
    eexists _, _, _. split; [reflexivity|]. split; [done|].
    split; [done|]. split; [done|]. split; [done|].
    split; [by intros []|].
    intros Hfit. by apply (store_inode_load_inode_item inode).
Qed.

(** ** The numbers that the pool hands out *)

Lemma pool_run_invariant_on (Q : pool_event → Prop) (P : pool_state → Prop)
    es s s' :
  (∀ e s s', Q e → pool_step e s = Some s' → P s → P s') →
  Forall Q es → pool_run es s = Some s' → P s → P s'.
Proof.
  intros Hstep Hes. revert s. induction Hes as [|e es He Hes IH]; intros s; cbn.
  - by intros [= <-].
  - destruct (pool_step e s) as [s1|] eqn:Hs; [|done].
    intros Hrun HP. apply (IH s1 Hrun). by eapply Hstep.
Qed.

(** A task moves on without a number: what was handed out stays. *)
Lemma handed_out_moves first top s t pc p :
  (∀ i, pc ≠ returned 0 i) →
  pool_ino p = pool_ino (pool s) → pool_nr p = pool_nr (pool s) →
  handed_out first top s → handed_out first top (set_task t pc p s).
Proof.
  intros Hpc Hino Hnr (Hfirst & Hpos & Htop & Hrange & Hdist).
  unfold handed_out. cbn [pool tasks set_task]. rewrite Hino, Hnr.
  split; [done|]. split; [done|]. split; [done|].
  assert (∀ t' i, <[t:=pc]> (tasks s) !! t' = Some (returned 0 i) →
                  tasks s !! t' = Some (returned 0 i)) as Hold.
  { intros t' i [(-> & Heq & _)|[_ H]]%list_lookup_insert_Some; [|done].
    by destruct (Hpc i). }
  split.
  - intros t' i Ht'. by apply (Hrange t'), Hold.
  - intros t1 t2 i H1 H2. by apply (Hdist t1 t2 i); apply Hold.
Qed.

Lemma pool_step_handed_out first top e s s' :
  0 ≤ first → top ≤ U64_MAX → no_refill e → pool_step e s = Some s' →
  handed_out first top s → handed_out first top s'.
Proof.
  intros Hf0 Htop Hno. destruct e as [t|t f|t|i n]; cbn [pool_step]; [| | |done].
  - destruct (tasks s !! t) as [[]|] eqn:Ht; try done.
    + destruct (alloc_locked_cases (pool s))
        as [(-> & _)|[(-> & _)|[(-> & _)|(-> & Hnr)]]];
        intros [= <-]; try (by apply handed_out_moves).
      intros (Hfirst & Hpos & Hsum & Hrange & Hdist).
      unfold handed_out.
      cbn [pool tasks set_task pool_ino pool_nr].
      rewrite Z.mod_small by (unfold U64_MAX in *; lia).
      split; [lia|]. split; [lia|]. split; [lia|]. split.
      * intros t' i [(-> & [= <-] & _)|[_ H]]%list_lookup_insert_Some; [lia|].
        specialize (Hrange t' i H). lia.
      * intros t1 t2 i H1 H2.
        apply list_lookup_insert_Some in H1 as [(<- & Heq1 & _)|[Hne1 H1]];
          apply list_lookup_insert_Some in H2 as [(<- & Heq2 & _)|[Hne2 H2]].
        -- done.
        -- injection Heq1 as <-. specialize (Hrange t2 _ H2). lia.
        -- injection Heq2 as <-. specialize (Hrange t1 _ H1). lia.
        -- by apply (Hdist t1 t2 i).
    + intros [= <-].
      change {| pool := pool s; tasks := <[t:=at_wait]> (tasks s);
                requests := S (requests s); outstanding := S (outstanding s) |}
        with {| pool := pool (set_task t at_wait (pool s) s);
                tasks := tasks (set_task t at_wait (pool s) s);
                requests := S (requests s); outstanding := S (outstanding s) |}.
      intros H. by apply (handed_out_moves first top s t at_wait (pool s)) in H.
    + destruct (in_flight (pool s)); [done|]. intros [= <-].
      by apply handed_out_moves.
  - destruct (tasks s !! t) as [[]|] eqn:Ht; try done. intros [= <-].
    apply handed_out_moves; [|done..].
    intros i [= H]. pose proof (fault_errno_pos f). lia.
  - destruct (tasks s !! t) as [[]|] eqn:Ht; try done.
    destruct (in_flight (pool s)); [|done]. intros [= <-].
    by apply handed_out_moves.
Qed.

(** X15: between two replies no inode number is handed out twice.  Tasks
    that call [scoutfs_alloc_ino] on a pool that holds a range below [~0ULL],
    in any order and with any of them interrupted, return with numbers of
    that range only, no two of them with the same number, and the pool
    holds the rest of the range. *)
Theorem scoutfs_alloc_ino_hands_out_once (k : nat) (p : free_ino_pool)
    (es : list pool_event) (s : pool_state) :
  0 ≤ pool_ino p → 0 ≤ pool_nr p → pool_ino p + pool_nr p ≤ U64_MAX →
  Forall no_refill es →
  pool_run es (pool_init k p) = Some s →
  (∀ t i, tasks s !! t = Some (returned 0 i) →
          pool_ino p ≤ i < pool_ino (pool s)) ∧
  (∀ t1 t2 i, tasks s !! t1 = Some (returned 0 i) →
              tasks s !! t2 = Some (returned 0 i) → t1 = t2) ∧
  pool_ino (pool s) + pool_nr (pool s) = pool_ino p + pool_nr p ∧
  0 ≤ pool_nr (pool s).
Proof.
  intros Hino Hnr Htop Hes Hrun.
  assert (handed_out (pool_ino p) (pool_ino p + pool_nr p) s)
    as (_ & Hpos & Hsum & Hrange & Hdist).
  { eapply (pool_run_invariant_on no_refill); [|exact Hes|exact Hrun|].
    - intros e s1 s2. by apply pool_step_handed_out.
    - unfold handed_out, pool_init. cbn [pool tasks].
      split; [lia|]. split; [done|]. split; [done|].
      split.
      + by intros t i [[=] _]%lookup_replicate.
      + by intros t1 t2 i [[=] _]%lookup_replicate. }
  done.
Qed.

Lemma pool_step_ends_at_mark e s s' :
  pool_step e s = Some s' → ends_at_mark s → ends_at_mark s'.
Proof.
  intros Hstep (Hino & Hnr & Hsum & Hfl & Hreq & Hout & Htasks).
  assert (∀ t, tasks s !! t ≠ Some at_request ∧ tasks s !! t ≠ Some at_wait)
    as Hnone.
  { intros t. split; intros Ht; destruct (Htasks t _ Ht)
      as [?|[?|(i & ? & _)]]; done. }
  destruct e as [t|t f|t|i n]; cbn [pool_step] in Hstep.
  - destruct (tasks s !! t) as [[]|] eqn:Ht; try done;
      [|by destruct (Hnone t) as [? _]|by destruct (Hnone t) as [_ ?]].
    assert (∀ p pc,
              0 ≤ pool_ino p → 0 ≤ pool_nr p →
              pool_ino p + pool_nr p = U64_MAX → in_flight p = false →
              (pc = at_lock ∨ pc = returned (- ENOSPC) 0 ∨
               ∃ i, pc = returned 0 i ∧ i < U64_MAX) →
              ends_at_mark (set_task t pc p s)) as Hset.
    { intros p pc ? ? ? ? Hpc. unfold ends_at_mark.
      cbn [pool tasks requests outstanding set_task].
      do 6 (split; [done|]).
      intros t' pc' [(-> & <- & _)|[_ Ht']]%list_lookup_insert_Some; [done|].
      by apply (Htasks t'). }
    destruct (alloc_locked_cases (pool s))
      as [(Heq & _ & Hz & Hne)|[(Heq & Hfl' & _)|[(Heq & _)|(Heq & Hnz)]]];
      rewrite Heq in Hstep; injection Hstep as <-.
    + unfold U64_MAX in *. lia.
    + congruence.
    + apply Hset; try done. right. by left.
    + apply Hset; cbn [pool_ino pool_nr in_flight]; try done.
      * apply Z.mod_pos_bound. lia.
      * lia.
      * rewrite Z.mod_small by (unfold U64_MAX in *; lia). lia.
      * right. right. exists (pool_ino (pool s)). split; [done|]. lia.
  - destruct (tasks s !! t) as [[]|] eqn:Ht; try done.
    by destruct (Hnone t) as [? _].
  - destruct (tasks s !! t) as [[]|] eqn:Ht; try done.
    by destruct (Hnone t) as [_ ?].
  - by rewrite Hout in Hstep.
Qed.

(** X16: a range that ends right below [~0ULL] is taken for the mark that
    no numbers are left.  Tasks that call [scoutfs_alloc_ino] on a pool
    whose range ends at [~0ULL - 1] return with the numbers of the range
    and, once it is used up, with [-ENOSPC]: whatever happens, no task asks
    the server for more numbers and none waits. *)
Theorem scoutfs_alloc_ino_range_ends_at_mark (k : nat) (p : free_ino_pool)
    (es : list pool_event) (s : pool_state) :
  in_flight p = false → 0 ≤ pool_ino p → 0 ≤ pool_nr p →
  pool_ino p + pool_nr p = U64_MAX →
  pool_run es (pool_init k p) = Some s →
  requests s = O ∧
  ∀ t pc, tasks s !! t = Some pc →
          pc = at_lock ∨ pc = returned (- ENOSPC) 0 ∨
          ∃ i, pc = returned 0 i ∧ i < U64_MAX.
Proof.
  intros Hfl Hino Hnr Hsum Hrun.
  assert (ends_at_mark s) as (_ & _ & _ & _ & Hreq & _ & Htasks).
  { eapply pool_run_invariant; [apply pool_step_ends_at_mark|exact Hrun|].
    unfold ends_at_mark, pool_init. cbn [pool tasks requests outstanding].
    do 6 (split; [done|]).
    intros t pc [-> _]%lookup_replicate. by left. }
  done.
Qed.

(** ** Walks that skip inodes and walks that fail *)

Lemma sorted_remove_middle kept si rest :
  StronglySorted Z.lt (kept ++ si :: rest) →
  filter (λ x, x ≠ si) (kept ++ si :: rest) = kept ++ rest.
Proof.
  clear igrab filemap_fdatawrite filemap_fdatawait.
  intros Hs. apply StronglySorted_app in Hs as (Hlt & _ & Hs).
  rewrite filter_app, (sorted_without si rest Hs).
  f_equal. apply filter_all, Forall_forall. intros x Hx.
  specialize (Hlt x si Hx). rewrite elem_of_cons in Hlt.
  specialize (Hlt (or_introl eq_refl)). lia.
Qed.

Lemma sorted_drop_middle kept si rest :
  StronglySorted Z.lt (kept ++ si :: rest) → StronglySorted Z.lt (kept ++ rest).
Proof.
  clear igrab filemap_fdatawrite filemap_fdatawait.
  intros Hs. apply StronglySorted_app in Hs as (Hlt & Hk & Hs).
  apply StronglySorted_cons in Hs as [_ Hr].
  apply StronglySorted_app. split; [|done].
  intros x1 x2 H1 H2. apply Hlt; [done|]. apply elem_of_cons. by right.
Qed.

Lemma walk_writeback_general write kept rest ret visited fuel :
  StronglySorted Z.lt (kept ++ rest) →
  (length rest < fuel)%nat →
  walk_writeback fuel write (kept ++ rest) (head rest) ret visited
  = Some (kept ++ (walked write rest ret).1.1, (walked write rest ret).1.2,
          visited ++ (walked write rest ret).2).
Proof.
  revert kept ret visited fuel.
  induction rest as [|si rest IH]; intros kept ret visited fuel Hs Hfuel.
  { destruct fuel; [cbn in Hfuel; lia|]. cbn. by rewrite !app_nil_r. }
  destruct fuel as [|fuel]; [cbn in Hfuel; lia|].
  cbn [walk_writeback head walked].
  assert (rb_next (kept ++ si :: rest) si = head rest) as Hnext.
  { unfold rb_next. by rewrite (sorted_after kept si rest Hs). }
  assert (kept ++ si :: rest = (kept ++ [si]) ++ rest) as Hmid
    by by rewrite <- app_assoc.
  rewrite Hnext.
  destruct (igrab si) eqn:Hgrab; cbn [negb].
  2:{ rewrite Hmid, IH; [|by rewrite <- Hmid|cbn in Hfuel; lia].
      destruct (walked write rest ret) as [[stay r] v]. cbn [fst snd].
      by rewrite <- app_assoc. }
  fold (walk_call write si).
  destruct (Z.eqb_spec (walk_call write si) 0) as [Hz|Hnz]; cbn [negb].
  2:{ done. }
  assert (RB_EMPTY_NODE (kept ++ si :: rest) si = false) as Hlinked.
  { unfold RB_EMPTY_NODE. rewrite bool_decide_eq_true_2; [done|].
    apply elem_of_app. right. by left. }
  rewrite Hlinked. 
  destruct write; cbn [negb].
  - rewrite Hmid, IH; [|by rewrite <- Hmid|cbn in Hfuel; lia].
    destruct (walked true rest (Some (walk_call true si))) as [[stay r] v].
    cbn [fst snd]. by rewrite <- !app_assoc.
  - unfold remove_writeback_inode. rewrite Hlinked. cbn [negb].
    rewrite (sorted_remove_middle kept si rest Hs).
    rewrite IH; [|by eapply sorted_drop_middle|cbn in Hfuel; lia].
    destruct (walked false rest (Some (walk_call false si))) as [[stay r] v].
    cbn [fst snd]. by rewrite <- !app_assoc.
Qed.

Lemma walked_ok write l ret :
  (∀ j, j ∈ l → igrab j = true → walk_call write j = 0) →
  walked write l ret
  = (if write then l else filter (λ j, igrab j = false) l,
     if existsb igrab l then Some 0 else ret,
     filter (λ j, igrab j = true) l).
Proof.
  revert ret. induction l as [|si rest IH]; intros ret Hok.
  { cbn. by destruct write. }
  cbn [walked existsb].
  assert (∀ j, j ∈ rest → igrab j = true → walk_call write j = 0) as Hok'
    by (intros j Hj; apply Hok, elem_of_cons; by right).
  destruct (igrab si) eqn:Hgrab; cbn [negb orb].
  - rewrite (Hok si) by (done || by left). cbn [Z.eqb negb].
    rewrite (IH _ Hok').
    rewrite (filter_cons_True (λ j, igrab j = true)) by done.
    rewrite (filter_cons_False (λ j, igrab j = false)) by congruence.
    destruct write; by destruct (existsb igrab rest).
  - rewrite (IH _ Hok').
    rewrite (filter_cons_True (λ j, igrab j = false)) by done.
    rewrite (filter_cons_False (λ j, igrab j = true)) by congruence.
    by destruct write.
Qed.

Lemma walked_error write pre i post ret :
  (∀ j, j ∈ pre → igrab j = true → walk_call write j = 0) →
  igrab i = true → walk_call write i ≠ 0 →
  walked write (pre ++ i :: post) ret
  = ((if write then pre else filter (λ j, igrab j = false) pre) ++ i :: post,
     Some (walk_call write i),
     filter (λ j, igrab j = true) pre ++ [i]).
Proof.
  intros Hok Hgrab Hcall. revert ret Hok.
  induction pre as [|si pre IH]; intros ret Hok.
  { cbn [app walked filter]. rewrite Hgrab. cbn [negb].
    rewrite (proj2 (Z.eqb_neq _ _) Hcall). cbn [negb]. by destruct write. }
  cbn [app walked].
  assert (∀ j, j ∈ pre → igrab j = true → walk_call write j = 0) as Hok'
    by (intros j Hj; apply Hok, elem_of_cons; by right).
  destruct (igrab si) eqn:Hg; cbn [negb].
  - rewrite (Hok si) by (done || by left). cbn [Z.eqb negb].
    rewrite (IH _ Hok').
    rewrite (filter_cons_True (λ j, igrab j = true)) by done.
    rewrite (filter_cons_False (λ j, igrab j = false)) by congruence.
    by destruct write.
  - rewrite (IH _ Hok').
    rewrite (filter_cons_True (λ j, igrab j = false)) by done.
    rewrite (filter_cons_False (λ j, igrab j = true)) by congruence.
    by destruct write.
Qed.

(** X17: a walk does not touch an inode that [igrab] cannot get because it
    is being freed.  When the vfs call returns 0 for every inode that is
    held, the walk calls the vfs for these inodes in ascending order and
    returns 0; a walk that waits takes them out of the tree and leaves
    the inodes it could not get in it.  When no inode could be held, [ret]
    was never assigned. *)
Theorem scoutfs_inode_walk_writeback_skips (write : bool) (root : list Z) :
  StronglySorted Z.lt root →
  (∀ j, j ∈ root → igrab j = true → walk_call write j = 0) →
  scoutfs_inode_walk_writeback (S (length root)) write root
  = Some (if write then root else filter (λ j, igrab j = false) root,
          if existsb igrab root then Some 0 else None,
          filter (λ j, igrab j = true) root).
Proof.
  intros Hs Hok. unfold scoutfs_inode_walk_writeback, rb_first.
  rewrite (walk_writeback_general write [] root) by (done || lia).
  by rewrite walked_ok.
Qed.

(** X18: a walk stops at the first inode for which the vfs call fails and
    returns the error of that call.  The inodes before it were dealt with
    as in a walk that succeeds; the inode itself and the inodes behind it
    stay in the tree, in either mode, and the vfs is not called for the
    inodes behind it. *)
Theorem scoutfs_inode_walk_writeback_stops (write : bool) (pre post : list Z)
    (i : Z) :
  StronglySorted Z.lt (pre ++ i :: post) →
  (∀ j, j ∈ pre → igrab j = true → walk_call write j = 0) →
  igrab i = true → walk_call write i ≠ 0 →
  scoutfs_inode_walk_writeback (S (length (pre ++ i :: post))) write
    (pre ++ i :: post)
  = Some ((if write then pre else filter (λ j, igrab j = false) pre)
            ++ i :: post,
          Some (walk_call write i),
          filter (λ j, igrab j = true) pre ++ [i]).
Proof.
  intros Hs Hok Hgrab Hcall. unfold scoutfs_inode_walk_writeback, rb_first.
  rewrite (walk_writeback_general write [] (pre ++ i :: post)) by (done || lia).
  by rewrite walked_error.
Qed.

Lemma remove_inserted root ino root' :
  ino ∉ root → insert_writeback_inode root ino = Some root' →
  filter (λ x, x ≠ ino) root' = root.
Proof.
  clear igrab filemap_fdatawrite filemap_fdatawait.
  revert root'. induction root as [|si rest IH]; intros root' Hni.
  { cbn. intros [= <-]. by rewrite filter_cons_False by (intros H; by apply H). }
  cbn [insert_writeback_inode].
  rewrite not_elem_of_cons in Hni. destruct Hni as [Hne Hni].
  destruct (Z.ltb_spec ino si) as [Hlt|Hge].
  - intros [= <-]. rewrite filter_cons_False by (intros H; by apply H).
    apply filter_all. constructor; [done|].
    apply Forall_forall. by intros x Hx ->.
  - assert ((ino >? si) = true) as -> by lia.
    destruct (insert_writeback_inode rest ino) as [r''|] eqn:Hins; [|done].
    cbn. intros [= <-]. rewrite filter_cons_True by done.
    by rewrite (IH r'').
Qed.

(** X19: [scoutfs_destroy_inode] takes the inode out of the tree of inodes
    with dirty pages if it is in it, and leaves the other inodes in it, in
    order; an inode that is not in the tree is no error.  It undoes
    [scoutfs_inode_queue_writeback]. *)
Theorem scoutfs_destroy_inode_removes (root : list Z) (ino : Z) :
  StronglySorted Z.lt root →
  StronglySorted Z.lt (scoutfs_destroy_inode root ino) ∧
  (∀ x, x ∈ scoutfs_destroy_inode root ino ↔ x ∈ root ∧ x ≠ ino) ∧
  (ino ∉ root →
   scoutfs_destroy_inode root ino = root ∧
   ∃ root', scoutfs_inode_queue_writeback root ino = Some root' ∧
            scoutfs_destroy_inode root' ino = root).
Proof.
  clear igrab filemap_fdatawrite filemap_fdatawait.
  intros Hs. unfold scoutfs_destroy_inode, remove_writeback_inode, RB_EMPTY_NODE.
  split; [|split].
  - destruct (decide (ino ∈ root)) as [Hin|Hni].
    + rewrite bool_decide_eq_true_2 by done. cbn [negb].
      apply list_elem_of_split in Hin as (l1 & l2 & ->).
      rewrite sorted_remove_middle by done. by eapply sorted_drop_middle.
    + by rewrite bool_decide_eq_false_2.
  - intros x. destruct (decide (ino ∈ root)) as [Hin|Hni].
    + rewrite bool_decide_eq_true_2 by done. cbn [negb].
      rewrite list_elem_of_filter. tauto.
    + rewrite bool_decide_eq_false_2 by done. cbn [negb].
      split; [|by intros []]. intros Hx. split; [done|]. by intros ->.
  - intros Hni. rewrite bool_decide_eq_false_2 by done. cbn [negb].
    split; [done|].
    unfold scoutfs_inode_queue_writeback, RB_EMPTY_NODE.
    rewrite bool_decide_eq_false_2 by done. cbn [negb].
    destruct (insert_writeback_inode_spec root ino Hs Hni)
      as (root' & Hins & Hs' & Hin).
    exists root'. split; [done|].
    assert (ino ∈ root') as Hino by (apply Hin; by left).
    rewrite bool_decide_eq_true_2 by done. cbn [negb].
    by apply remove_inserted.
Qed.

(** * Changing the size of a file *)

Section truncate.

(** format.h and data.c are not part of the sources: the flag of an inode
    whose truncate has yet to be completed, the block size and its shift,
    and [scoutfs_data_truncate_items], which removes the block mapping
    items of an inode from a block on and returns 0 or an error; the
    arguments are the inode number and the first and last block. *)
Variable SCOUTFS_INO_FLAG_TRUNCATE : Z.
Variable SCOUTFS_BLOCK_SIZE : Z.
Variable SCOUTFS_BLOCK_SHIFT : Z.
Variable scoutfs_data_truncate_items : Z → Z → Z → Z.

Definition set_ci_flags (f : Z) (si : scoutfs_inode_info) : scoutfs_inode_info :=
  {| ino := ino si; i_size := i_size si; i_nlink := i_nlink si;
     i_uid := i_uid si; i_gid := i_gid si; i_mode := i_mode si;
     i_rdev := i_rdev si; i_atime := i_atime si; i_mtime := i_mtime si;
     i_ctime := i_ctime si; ci_meta_seq := ci_meta_seq si;
     ci_data_seq := ci_data_seq si; ci_data_version := ci_data_version si;
     ci_next_readdir_pos := ci_next_readdir_pos si; ci_flags := f;
     have_item := have_item si; item_majors := item_majors si;
     item_minors := item_minors si; last_refreshed := last_refreshed si |}.

(** [truncate_setsize] of the vfs sets [i_size]; then
    [inode->i_ctime = inode->i_mtime = CURRENT_TIME], with [now] for the
    time that was read. *)
Definition truncate_setsize (new_size : Z) (now : timespec)
    (si : scoutfs_inode_info) : scoutfs_inode_info :=
  {| ino := ino si; i_size := new_size; i_nlink := i_nlink si;
     i_uid := i_uid si; i_gid := i_gid si; i_mode := i_mode si;
     i_rdev := i_rdev si; i_atime := i_atime si; i_mtime := now;
     i_ctime := now; ci_meta_seq := ci_meta_seq si;
     ci_data_seq := ci_data_seq si; ci_data_version := ci_data_version si;
     ci_next_readdir_pos := ci_next_readdir_pos si; ci_flags := ci_flags si;
     have_item := have_item si; item_majors := item_majors si;
     item_minors := item_minors si; last_refreshed := last_refreshed si |}.

(** The inode is passed in and handed back with the return value; [fuel]
    is for the loop of [scoutfs_inode_index_lock_hold]. *)
Definition set_inode_size (fuel : nat) (inode : scoutfs_inode_info)
    (lock : option scoutfs_lock) (new_size : Z) (truncate : bool)
    (now : timespec) : M (Z * scoutfs_inode_info) :=
  if negb (S_ISREG (i_mode inode)) then ret (0, inode) else
  p <- scoutfs_inode_index_lock_hold fuel inode [] new_size true ;;
  let ind_locks := snd p in
  if negb (fst p =? 0) then ret (fst p, inode) else
  let inode := truncate_setsize new_size now inode in
  let inode := if truncate
               then set_ci_flags (Z.lor (ci_flags inode) SCOUTFS_INO_FLAG_TRUNCATE)
                      inode
               else inode in
  inode <- scoutfs_inode_set_data_seq inode ;;
  inode <- scoutfs_update_inode_item inode lock ind_locks ;;
  scoutfs_release_trans ;;;
  scoutfs_inode_index_unlock ind_locks ;;;
  ret (fst p, inode).

Definition clear_truncate_flag (fuel : nat) (inode : scoutfs_inode_info)
    (lock : option scoutfs_lock) : M (Z * scoutfs_inode_info) :=
  p <- scoutfs_inode_index_lock_hold fuel inode [] (i_size inode) false ;;
  let ind_locks := snd p in
  if negb (fst p =? 0) then ret (fst p, inode) else
  let inode := set_ci_flags (Z.land (ci_flags inode)
                               (Z.lnot SCOUTFS_INO_FLAG_TRUNCATE)) inode in
  inode <- scoutfs_update_inode_item inode lock ind_locks ;;
  scoutfs_release_trans ;;;
  scoutfs_inode_index_unlock ind_locks ;;;
  ret (fst p, inode).

(** [ret ? ret : err] is [elvis ret err]. *)
Definition scoutfs_complete_truncate (fuel : nat) (inode : scoutfs_inode_info)
    (lock : option scoutfs_lock) : M (Z * scoutfs_inode_info) :=
  if Z.land (ci_flags inode) SCOUTFS_INO_FLAG_TRUNCATE =? 0
  then ret (0, inode) else
  let start := u64 (Z.shiftr (i_size inode + SCOUTFS_BLOCK_SIZE - 1)
                      SCOUTFS_BLOCK_SHIFT) in
  let r := scoutfs_data_truncate_items (ino inode) start U64_MAX in
  p <- clear_truncate_flag fuel inode lock ;;
  ret (elvis r (fst p), snd p).

Lemma scoutfs_inode_index_lock_hold_cases fuel inode lst size set_data_seq w :
  match scoutfs_inode_index_lock_hold fuel inode lst size set_data_seq w with
  | Ret (r, l') w' => quiet w w' ∧ r ≤ 0 ∧ (faults w = [] → r = 0)
  | Bug _ => False
  | OutOfFuel => (fuel ≤ pending_commits w)%nat
  end.
Proof.
  revert lst w. induction fuel as [|fuel IH]; intros lst w.
  { cbn [scoutfs_inode_index_lock_hold]. unfold out_of_fuel. lia. }
  cbn [scoutfs_inode_index_lock_hold].
  unfold bind at 1. unfold scoutfs_inode_index_start, get. unfold bind at 1.
  unfold scoutfs_inode_index_prepare.
  destruct (prepare_indices_prepares lst (Some inode) (ino inode) (i_mode inode)
              size set_data_seq w) as (r0 & l0 & w0 & -> & Hs0 & Hr0 & Hnf0).
  cbn [fst snd]. unfold bind at 1.
  pose proof (still_quiet _ _ Hs0) as Hq0.
  destruct (decide (r0 = 0)) as [->|Hne].
  - change (0 =? 0) with true. cbn [negb].
    destruct (scoutfs_inode_index_try_lock_hold_spec l0 (trans_seq w) w0)
      as (r & l1 & w1 & -> & Hq1 & Hr & Hone & Hzero & Hnf1).
    cbn [fst snd].
    destruct Hr as [->|Hr].
    + change (1 >? 0) with true. cbv iota.
      destruct (Hone eq_refl) as (Hseq & -> & _ & _).
      specialize (IH [] w1).
      pose proof (quiet_seq _ _ Hq1). pose proof (quiet_pending _ _ Hq1).
      pose proof (quiet_pending _ _ Hq0).
      rewrite (still_trans_seq _ _ Hs0) in *.
      destruct (scoutfs_inode_index_lock_hold fuel inode [] size set_data_seq w1)
        as [[r l2] w2| |]; [|done|lia].
      destruct IH as (Hq2 & Hr2 & Hnf2).
      split; [eapply quiet_trans; [exact Hq0|]; by eapply quiet_trans|].
      split; [done|]. intros Hf. apply Hnf2.
      apply (quiet_faults _ _ Hq1), (quiet_faults _ _ Hq0), Hf.
    + assert ((r >? 0) = false) as -> by lia. unfold ret.
      split; [by eapply quiet_trans|]. split; [done|].
      intros Hf. specialize (Hnf1 (quiet_faults _ _ Hq0 Hf)). lia.
  - rewrite (proj2 (Z.eqb_neq r0 0) Hne). cbn [negb]. unfold ret. cbn [fst].
    assert ((r0 >? 0) = false) as -> by lia.
    split; [done|]. split; [done|]. done.
Qed.

(** What the end of an update of the inode does: the inode item and the
    index items are written, the transaction is released and the index
    locks are dropped. *)
Lemma update_release_unlock inode lock ind_locks (r0 : Z) w (n : nat)
    (h : gmultiset lock_name) :
  index_items_exact inode (items w) →
  holders w = S n → held w = h ⊎ lock_names ind_locks →
  match (inode <- scoutfs_update_inode_item inode lock ind_locks ;;
         scoutfs_release_trans ;;;
         scoutfs_inode_index_unlock ind_locks ;;;
         ret (r0, inode)) w with
  | Ret (r, inode') w' =>
      r = r0 ∧
      inode' = set_item_info (set_ci_meta_seq (trans_seq w) inode)
                 (store_inode (set_ci_meta_seq (trans_seq w) inode)) ∧
      items w' !! inode_key (ino inode) = Some (Some (store_inode inode')) ∧
      index_items_exact inode' (items w') ∧
      (∀ k, (∀ t a b, k ≠ inode_index_key t a b (ino inode)) →
            k ≠ inode_key (ino inode) → items w' !! k = items w !! k) ∧
      trans_seq w' = trans_seq w ∧ held w' = h ∧ holders w' = n ∧
      (faults w = [] → faults w' = [])
  | Bug _ => faults w ≠ []
  | OutOfFuel => False
  end.
Proof.
  intros Hex Hho Hhe. unfold bind at 1.
  pose proof (scoutfs_update_inode_item_cases inode lock ind_locks w Hex) as H.
  cbv zeta in H.
  destruct (scoutfs_update_inode_item inode lock ind_locks w)
    as [inode' w1| |]; [|done..].
  destruct H as (Hin & Hitem & Hex' & Hk & Hts & Hhe1 & Hho1 & Hf).
  unfold bind at 1. unfold scoutfs_release_trans, bind, modify, log, modify.
  match goal with |- context [scoutfs_inode_index_unlock ind_locks ?w2] =>
    destruct (scoutfs_inode_index_unlock_spec ind_locks w2)
      as (w3 & -> & Hq3 & Hho3 & Hts3 & Hf3 & Hhe3 & _)
  end.
  unfold ret.
  cbn [holders held trans_seq faults logged set_trace set_holders]
    in Hho3, Hts3, Hf3, Hhe3.
  pose proof (quiet_items _ _ Hq3) as Hi3.
  cbn [items logged set_trace set_holders] in Hi3.
  split; [done|]. split; [done|]. rewrite Hi3.
  split; [done|]. split; [done|]. split; [done|].
  split; [congruence|]. split; [|split].
  - rewrite Hhe3, Hhe1, Hhe. clear. multiset_solver.
  - rewrite Hho3, Hho1, Hho. done.
  - intros Hnil. rewrite Hf3. by apply Hf.
Qed.

Lemma set_inode_size_cases fuel inode lock new_size truncate now w :
  index_items_exact inode (items w) →
  match set_inode_size fuel inode lock new_size truncate now w with
  | Ret (r, inode') w' =>
      held w' = held w ∧ holders w' = holders w ∧ r ≤ 0 ∧
      (faults w = [] → r = 0 ∧ faults w' = []) ∧
      (r ≠ 0 → inode' = inode ∧ items w' = items w) ∧
      (S_ISREG (i_mode inode) = false → r = 0 ∧ inode' = inode ∧ w' = w) ∧
      (r = 0 → S_ISREG (i_mode inode) = true →
       i_size inode' = new_size ∧ i_mtime inode' = now ∧ i_ctime inode' = now ∧
       ci_data_seq inode' = trans_seq w' ∧ ci_meta_seq inode' = trans_seq w' ∧
       ci_flags inode'
       = (if truncate then Z.lor (ci_flags inode) SCOUTFS_INO_FLAG_TRUNCATE
          else ci_flags inode) ∧
       items w' !! inode_key (ino inode) = Some (Some (store_inode inode')) ∧
       index_items_exact inode' (items w') ∧
       ∀ k, (∀ t a b, k ≠ inode_index_key t a b (ino inode)) →
            k ≠ inode_key (ino inode) → items w' !! k = items w !! k)
  | Bug _ => faults w ≠ []
  | OutOfFuel => (fuel ≤ pending_commits w)%nat
  end.
Proof.
  intros Hex. unfold set_inode_size.
  destruct (S_ISREG (i_mode inode)) eqn:Hreg; cbn [negb].
  2:{ unfold ret. do 3 (split; [done|]). split; [done|]. split; [done|].
      split; [done|]. done. }
  unfold bind at 1.
  pose proof (scoutfs_inode_index_lock_hold_cases fuel inode [] new_size true w)
    as Hcases.
  destruct (scoutfs_inode_index_lock_hold fuel inode [] new_size true w)
    as [[r L] w1| |] eqn:Hrun; [|done..].
  destruct Hcases as (Hq1 & Hr & Hnf). cbn [fst snd].
  assert (distinct_keys []) as Hd0 by constructor.
  assert (unlocked []) as Hu0 by constructor.
  pose proof (scoutfs_inode_index_lock_hold_result _ _ _ _ _ _ _ _ _
                Hd0 Hu0 Hrun) as [Hzero Hnz].
  destruct (Z.eqb_spec r 0) as [->|Hne]; cbn [negb].
  2:{ unfold ret. destruct (Hnz Hne) as (_ & Hho & Hhe & _).
      do 2 (split; [done|]). split; [done|].
      split; [intros Hf; by destruct Hne; apply Hnf|].
      split; [intros _; split; [done|apply (quiet_items _ _ Hq1)]|].
      split; [done|]. done. }
  destruct (Hzero eq_refl) as (Hho & Hhe & _).
  unfold bind at 1. rewrite scoutfs_inode_set_data_seq_run.
  match goal with |- context [scoutfs_update_inode_item ?i _ _] =>
    set (inode2 := i)
  end.
  assert (index_items_exact inode2 (items w1)) as Hex2.
  { rewrite (quiet_items _ _ Hq1). subst inode2.
    by destruct truncate. }
  pose proof (update_release_unlock inode2 lock L 0 w1 (holders w) (held w)
                Hex2 Hho Hhe) as Htail.
  match type of Htail with match ?m with _ => _ end =>
    match goal with |- match ?m' with _ => _ end => change m' with m end
  end.
  destruct (bind _ _ w1) as [[r' inode'] w'| |]; [|..].
  - destruct Htail as (-> & Hin & Hitem & Hex' & Hk & Hts & Hhe' & Hho' & Hf').
    do 2 (split; [done|]). split; [done|].
    split; [intros Hf; split; [done|]; apply Hf', (quiet_faults _ _ Hq1), Hf|].
    split; [done|]. split; [done|]. intros _ _.
    rewrite Hts.
    split; [rewrite Hin; subst inode2; by destruct truncate|].
    split; [rewrite Hin; subst inode2; by destruct truncate|].
    split; [rewrite Hin; subst inode2; by destruct truncate|].
    split; [rewrite Hin; subst inode2; by destruct truncate|].
    split; [by rewrite Hin|].
    split; [rewrite Hin; subst inode2; by destruct truncate|].
    split; [subst inode2; by destruct truncate|].
    split; [done|].
    intros k Hk1 Hk2. rewrite <- (quiet_items _ _ Hq1).
    apply Hk; subst inode2; by destruct truncate.
  - intros Hf. by apply Htail, (quiet_faults _ _ Hq1).
  - done.
Qed.

Lemma clear_truncate_flag_cases fuel inode lock w :
  index_items_exact inode (items w) →
  match clear_truncate_flag fuel inode lock w with
  | Ret (r, inode') w' =>
      held w' = held w ∧ holders w' = holders w ∧ r ≤ 0 ∧
      (faults w = [] → r = 0 ∧ faults w' = []) ∧
      (r ≠ 0 → inode' = inode ∧ items w' = items w) ∧
      (r = 0 →
       ci_flags inode'
       = Z.land (ci_flags inode) (Z.lnot SCOUTFS_INO_FLAG_TRUNCATE) ∧
       i_size inode' = i_size inode ∧
       items w' !! inode_key (ino inode) = Some (Some (store_inode inode')) ∧
       index_items_exact inode' (items w') ∧
       ∀ k, (∀ t a b, k ≠ inode_index_key t a b (ino inode)) →
            k ≠ inode_key (ino inode) → items w' !! k = items w !! k)
  | Bug _ => faults w ≠ []
  | OutOfFuel => (fuel ≤ pending_commits w)%nat
  end.
Proof.
  intros Hex. unfold clear_truncate_flag. unfold bind at 1.
  pose proof (scoutfs_inode_index_lock_hold_cases fuel inode [] (i_size inode)
                false w) as Hcases.
  destruct (scoutfs_inode_index_lock_hold fuel inode [] (i_size inode) false w)
    as [[r L] w1| |] eqn:Hrun; [|done..].
  destruct Hcases as (Hq1 & Hr & Hnf). cbn [fst snd].
  assert (distinct_keys []) as Hd0 by constructor.
  assert (unlocked []) as Hu0 by constructor.
  pose proof (scoutfs_inode_index_lock_hold_result _ _ _ _ _ _ _ _ _
                Hd0 Hu0 Hrun) as [Hzero Hnz].
  destruct (Z.eqb_spec r 0) as [->|Hne]; cbn [negb].
  2:{ unfold ret. destruct (Hnz Hne) as (_ & Hho & Hhe & _).
      do 2 (split; [done|]). split; [done|].
      split; [intros Hf; by destruct Hne; apply Hnf|].
      split; [intros _; split; [done|apply (quiet_items _ _ Hq1)]|].
      done. }
  destruct (Hzero eq_refl) as (Hho & Hhe & _).
  match goal with |- context [scoutfs_update_inode_item ?i _ _] =>
    set (inode2 := i)
  end.
  assert (index_items_exact inode2 (items w1)) as Hex2
    by by rewrite (quiet_items _ _ Hq1).
  pose proof (update_release_unlock inode2 lock L 0 w1 (holders w) (held w)
                Hex2 Hho Hhe) as Htail.
  match type of Htail with match ?m with _ => _ end =>
    match goal with |- match ?m' with _ => _ end => change m' with m end
  end.
  destruct (bind _ _ w1) as [[r' inode'] w'| |]; [|..].
  - destruct Htail as (-> & Hin & Hitem & Hex' & Hk & Hts & Hhe' & Hho' & Hf').
    do 2 (split; [done|]). split; [done|].
    split; [intros Hf; split; [done|]; apply Hf', (quiet_faults _ _ Hq1), Hf|].
    split; [done|]. intros _.
    split; [by rewrite Hin|]. split; [by rewrite Hin|].
    split; [done|]. split; [done|].
    intros k Hk1 Hk2. rewrite <- (quiet_items _ _ Hq1). by apply Hk.
  - intros Hf. by apply Htail, (quiet_faults _ _ Hq1).
  - done.
Qed.

(** X20: [set_inode_size] changes the size of a regular file and keeps its
    index items in line.  When the index items are those that the inode
    info remembers, no call fails and the loop is given enough passes, it
    returns 0; whenever it returns 0 the inode has the new size and the
    meta seq and data seq of the transaction, the inode item is the stored
    form of the inode, and the index items are exactly those of the values
    in the item.  When it returns an error the inode and the items are as
    they were.  In either case the transaction and the locks are held as
    before the call.  For an inode that is not a regular file it does
    nothing. *)
Theorem set_inode_size_in_line (fuel : nat) (inode : scoutfs_inode_info)
    (lock : option scoutfs_lock) (new_size : Z) (truncate : bool)
    (now : timespec) (w : world) :
  index_items_exact inode (items w) →
  (S_ISREG (i_mode inode) = false →
   set_inode_size fuel inode lock new_size truncate now w = Ret (0, inode) w) ∧
  (faults w = [] → (pending_commits w < fuel)%nat →
   ∃ inode' w',
     set_inode_size fuel inode lock new_size truncate now w
     = Ret (0, inode') w') ∧
  (∀ r inode' w',
     set_inode_size fuel inode lock new_size truncate now w
     = Ret (r, inode') w' →
     held w' = held w ∧ holders w' = holders w ∧
     (r ≠ 0 → r < 0 ∧ inode' = inode ∧ items w' = items w) ∧
     (r = 0 → S_ISREG (i_mode inode) = true →
      i_size inode' = new_size ∧
      ci_data_seq inode' = trans_seq w' ∧ ci_meta_seq inode' = trans_seq w' ∧
      items w' !! inode_key (ino inode) = Some (Some (store_inode inode')) ∧
      index_items_exact inode' (items w'))).
Proof.
  intros Hex.
  pose proof (set_inode_size_cases fuel inode lock new_size truncate now w Hex)
    as Hcases.
  split; [|split].
  - intros Hreg. unfold set_inode_size. by rewrite Hreg.
  - intros Hf Hfuel.
    destruct (set_inode_size fuel inode lock new_size truncate now w)
      as [[r inode'] w'| |]; [|done|lia].
    destruct Hcases as (_ & _ & _ & Hnf & _).
    destruct (Hnf Hf) as [-> _]. by eexists _, _.
  - intros r inode' w' Hrun. rewrite Hrun in Hcases.
    destruct Hcases as (Hhe & Hho & Hr & _ & Hne & _ & Hz).
    split; [done|]. split; [done|]. split.
    + intros Hr0. split; [lia|]. by apply Hne.
    + intros Hr0 Hreg.
      destruct (Hz Hr0 Hreg) as (? & _ & _ & ? & ? & _ & ? & ? & _). done.
Qed.

(** X21: [scoutfs_complete_truncate] clears the truncate flag of the inode
    whatever [scoutfs_data_truncate_items] returned.  For an inode whose
    flag is set, when no call into the locks, the transaction and the item
    cache fails, it returns what [scoutfs_data_truncate_items] returned, an
    error included, the flag is cleared in the inode and in the inode item
    that was written, and a later call for that inode returns 0 and does
    nothing. *)
Theorem scoutfs_complete_truncate_clears_flag (fuel : nat)
    (inode : scoutfs_inode_info) (lock : option scoutfs_lock) (w : world) :
  index_items_exact inode (items w) →
  Z.land (ci_flags inode) SCOUTFS_INO_FLAG_TRUNCATE ≠ 0 →
  faults w = [] → (pending_commits w < fuel)%nat →
  ∃ inode' w',
    scoutfs_complete_truncate fuel inode lock w
    = Ret (scoutfs_data_truncate_items (ino inode)
             (u64 (Z.shiftr (i_size inode + SCOUTFS_BLOCK_SIZE - 1)
                     SCOUTFS_BLOCK_SHIFT)) U64_MAX, inode') w' ∧
    Z.land (ci_flags inode') SCOUTFS_INO_FLAG_TRUNCATE = 0 ∧
    items w' !! inode_key (ino inode) = Some (Some (store_inode inode')) ∧
    ∀ fuel' lock' w'',
      scoutfs_complete_truncate fuel' inode' lock' w'' = Ret (0, inode') w''.
Proof.
  intros Hex Hflag Hf Hfuel.
  pose proof (clear_truncate_flag_cases fuel inode lock w Hex) as Hcases.
  unfold scoutfs_complete_truncate at 1.
  rewrite (proj2 (Z.eqb_neq _ _) Hflag). unfold bind.
  destruct (clear_truncate_flag fuel inode lock w)
    as [[r inode'] w'| |]; [|done|lia].
  destruct Hcases as (_ & _ & _ & Hnf & _ & Hz).
  destruct (Hnf Hf) as [-> _].
  destruct (Hz eq_refl) as (Hfl & _ & Hitem & _).
  assert (Z.land (ci_flags inode') SCOUTFS_INO_FLAG_TRUNCATE = 0) as Hclear.
  { rewrite Hfl, <- Z.land_assoc.
    rewrite (Z.land_comm (Z.lnot _)), Z.land_lnot_diag. apply Z.land_0_r. }
  exists inode', w'. unfold ret, elvis. cbn [fst snd].
  split; [by destruct (_ =? 0) eqn:Heq; [apply Z.eqb_eq in Heq as ->|]|].
  split; [done|]. split; [done|].
  intros fuel' lock' w''. unfold scoutfs_complete_truncate.
  by rewrite Hclear.
Qed.

End truncate.

End inode.

(** ** The theorems at concrete inputs *)

(** Inode 5 is cached with size 10 and its size becomes 20; the item cache
    creates the new index item and fails the delete of the old one. *)
Lemma update_index_items_undo_witness :
  ∃ w',
    update_index_items example_range (Some (example_inode 10 0)) 5
      SCOUTFS_INODE_INDEX_SIZE_TYPE 20 0 []
      (example_world (example_items 1) [None; Some F_EIO] [])
    = Ret (- EIO) w' ∧
    items w' !! inode_index_key SCOUTFS_INODE_INDEX_SIZE_TYPE 20 0 5 = None.
Proof.
  destruct (update_index_items_undo example_range (example_inode 10 0) 5
              SCOUTFS_INODE_INDEX_SIZE_TYPE 20 0 []
              (example_world (example_items 1) [None; Some F_EIO] [])
              F_EIO [] eq_refl eq_refl) as (w' & Hrun & _ & Hitems).
  exists w'. split; [exact Hrun|]. by apply Hitems.
Defined.

(** An update to the cached size 20 does nothing; an update from the cached
    size 10 to 20 can be run twice. *)
Lemma update_index_items_unchanged_is_noop_witness :
  update_index_items example_range (Some (example_inode 20 0)) 5
    SCOUTFS_INODE_INDEX_SIZE_TYPE 20 0 [] (example_world (example_items 1) [] [])
  = Ret 0 (example_world (example_items 1) [] []) ∧
  ∃ w1 w2,
    update_index_items example_range (Some (example_inode 10 0)) 5
      SCOUTFS_INODE_INDEX_SIZE_TYPE 20 0 [] (example_world (example_items 1) [] [])
    = Ret 0 w1 ∧
    update_index_items example_range (Some (example_inode 10 0)) 5
      SCOUTFS_INODE_INDEX_SIZE_TYPE 20 0 [] w1 = Ret 0 w2 ∧
    items w2 = items w1.
Proof.
  destruct (update_index_items_unchanged_is_noop example_range
              (Some (example_inode 10 0)) (example_inode 20 0)
              (example_sinode 20 1) 5 33188 SCOUTFS_INODE_INDEX_SIZE_TYPE 20 0 []
              (example_world (example_items 1) [] [])) as (H1 & H2 & _).
  split; [by apply H1|by apply H2].
Defined.

(** The first pass of a size change of inode 5 from 10 to 20, during which
    a commit finishes: what it prepares, locks and holds. *)
Definition example_pass_world : world := example_world (example_items 1) [] [true].

Definition example_prepared : result (Z * list index_lock) :=
  scoutfs_inode_index_prepare example_range [] (example_inode 10 0) 20 true
    example_pass_world.

Definition example_locked : result (Z * list index_lock) :=
  match example_prepared with
  | Ret (_, l) w0 => lock_index_locks (list_sort l) w0
  | _ => OutOfFuel
  end.

Definition example_held : result Z :=
  match example_locked with
  | Ret _ w1 => scoutfs_hold_trans w1
  | _ => OutOfFuel
  end.

Definition result_world {A} (r : result A) : world :=
  match r with
  | Ret _ w => w
  | _ => example_pass_world
  end.

Definition result_list (r : result (Z * list index_lock)) : list index_lock :=
  match r with
  | Ret (_, l) _ => l
  | _ => []
  end.

Lemma scoutfs_inode_index_lock_hold_retries_witness :
  (∃ w',
     scoutfs_inode_index_try_lock_hold (result_list example_prepared) 7
       (result_world example_prepared)
     = Ret (1, []) w' ∧
     holders w' = O ∧ held w' = ∅ ∧
     scoutfs_inode_index_lock_hold example_range 2 (example_inode 10 0) [] 20
       true example_pass_world
     = scoutfs_inode_index_lock_hold example_range 1 (example_inode 10 0) [] 20
         true w') ∧
  ∃ r l' w',
    scoutfs_inode_index_lock_hold example_range 2 (example_inode 10 0) [] 20
      true example_pass_world = Ret (r, l') w' ∧ r ≤ 0.
Proof.
  destruct (scoutfs_inode_index_lock_hold_retries example_range
              (example_inode 10 0) [] (result_list example_prepared)
              (result_list example_locked) 20 true 1 example_pass_world
              (result_world example_prepared) (result_world example_locked)
              (result_world example_held)) as [H1 H2].
  split; [|exact H2].
  destruct H1 as (w' & Htry & _ & Hho & Hhe & Hloop);
    [by vm_compute..|].
  exists w'. split; [exact Htry|]. split; [exact Hho|]. split; [exact Hhe|].
  exact Hloop.
Defined.

(** A first run of [delete_inode_items] on inode 5, which has no links, in
    which the delete of the inode item (the thirteenth call) is failed: the
    index items are gone, the inode item and the orphan item are left. *)
Definition example_first_run : result Z :=
  delete_inode_items example_range 1 5
    (example_world (example_items 0) (replicate 12 None ++ [Some F_EIO]) []).


Lemma delete_inode_items_nlink_nonzero_witness :
  ∃ w',
    delete_inode_items example_range 1 5 (example_world (example_items 1) [] [])
      = Ret (- EIO) w' ∧
    items w' = example_items 1.
Proof.
  destruct (delete_inode_items_nlink_nonzero example_range 1 5
              (example_world (example_items 1) [] []) (example_sinode 10 1))
    as (w' & Hrun & Hitems & _); [by vm_compute..|].
  by exists w'.
Defined.

Lemma delete_inode_items_no_inode_item_witness :
  ∃ w',
    delete_inode_items example_range 1 5 (example_world ∅ [] []) = Ret 0 w' ∧
    items w' = ∅.
Proof.
  destruct (delete_inode_items_no_inode_item example_range 1 5
              (example_world ∅ [] [])) as (w' & Hrun & Hitems & _);
    [by vm_compute..|].
  by exists w'.
Defined.

(** C8 as the spec words it does not hold: with no inode item for inode 5
    and no call failed, [delete_inode_items] does not return [-ENOENT]. *)
Lemma delete_inode_items_no_inode_item_not_ENOENT :
  ¬ (∀ (fuel : nat) (ino : Z) (w : world),
       items w !! inode_key ino = None →
       hd_fault w = None →
       next_of (tail (faults w)) = None →
       ∃ w', delete_inode_items example_range fuel ino w = Ret (- ENOENT) w').
Proof.
  intros H.
  destruct (H 1%nat 5 (example_world ∅ [] [])) as [w' Hw'];
    [by vm_compute..|].
  vm_compute in Hw'. discriminate Hw'.
Qed.

(** A lock of refresh generation 4 everywhere. *)
Definition example_refresh_gen (lock : scoutfs_lock) : Z := 4.

Definition example_refreshed : result (Z * scoutfs_inode_info) :=
  scoutfs_inode_refresh example_refresh_gen (example_inode 10 0)
    {| lk_name := ino_lock 5 |} 0 (example_world (example_items 1) [] []).

Definition result_inode (r : result (Z * scoutfs_inode_info)) : scoutfs_inode_info :=
  match r with
  | Ret (_, i) _ => i
  | _ => example_inode 0 0
  end.

Lemma scoutfs_inode_refresh_same_gen_witness :
  scoutfs_inode_refresh example_refresh_gen (example_inode 10 4)
    {| lk_name := ino_lock 5 |} 0 (example_world (example_items 1) [] [])
  = Ret (0, example_inode 10 4) (example_world (example_items 1) [] []) ∧
  last_refreshed (result_inode example_refreshed) = 4 ∧
  scoutfs_inode_refresh example_refresh_gen (result_inode example_refreshed)
    {| lk_name := ino_lock 5 |} 0 (example_world ∅ [] [])
  = Ret (0, result_inode example_refreshed) (example_world ∅ [] []).
Proof.
  split; [|split; [by vm_compute|]].
  - by apply (proj1 (scoutfs_inode_refresh_same_gen example_refresh_gen
                       (example_inode 10 4) (example_inode 10 4)
                       {| lk_name := ino_lock 5 |} {| lk_name := ino_lock 5 |}
                       0 0 (example_world (example_items 1) [] [])
                       (example_world (example_items 1) [] [])
                       (example_world (example_items 1) [] []))).
  - apply (proj2 (scoutfs_inode_refresh_same_gen example_refresh_gen
                    (example_inode 10 0) (result_inode example_refreshed)
                    {| lk_name := ino_lock 5 |} {| lk_name := ino_lock 5 |} 0 0
                    (example_world (example_items 1) [] [])
                    (result_world example_refreshed)
                    (example_world ∅ [] []))); by vm_compute.
Defined.

(** An empty pool whose last number was 99. *)
Definition example_pool : free_ino_pool :=
  {| pool_ino := 100; pool_nr := 0; in_flight := false |}.




(** The pool after [scoutfs_inode_fill_pool] was called with all ones and
    0: the tasks that waited return [-ENOSPC] one by one. *)
Lemma scoutfs_alloc_ino_exhausted_witness :
  pool_step (run 1)
    {| pool := scoutfs_inode_fill_pool U64_MAX 0 example_pool;
       tasks := [returned (- ENOSPC) 0; at_lock]; requests := 1;
       outstanding := 0 |}
  = Some {| pool := scoutfs_inode_fill_pool U64_MAX 0 example_pool;
            tasks := [returned (- ENOSPC) 0; returned (- ENOSPC) 0];
            requests := 1; outstanding := 0 |}.
Proof.
  apply (scoutfs_alloc_ino_exhausted
           {| pool := scoutfs_inode_fill_pool U64_MAX 0 example_pool;
              tasks := [returned (- ENOSPC) 0; at_lock]; requests := 1;
              outstanding := 0 |} 1); reflexivity.
Defined.

(** The inodes 3, 1 and 2 are queued in this order, and 2 once more; no
    inode is being freed and the vfs calls return 0. *)
Lemma scoutfs_inode_walk_writeback_drains_witness :
  (root ← scoutfs_inode_queue_writeback [] 3;
   root ← scoutfs_inode_queue_writeback root 1;
   root ← scoutfs_inode_queue_writeback root 2;
   scoutfs_inode_queue_writeback root 2) = Some [1; 2; 3] ∧
  scoutfs_inode_walk_writeback (λ _, true) (λ _, 0) (λ _, 0) 4 true [1; 2; 3]
    = Some ([1; 2; 3], Some 0, [1; 2; 3]) ∧
  scoutfs_inode_walk_writeback (λ _, true) (λ _, 0) (λ _, 0) 4 false [1; 2; 3]
    = Some ([], Some 0, [1; 2; 3]).
Proof.
  destruct (scoutfs_inode_walk_writeback_drains (λ _, true) (λ _, 0) (λ _, 0)
              [1; 2; 3] 2) as (_ & Hwait & Hwrite).
  { repeat (constructor; try done). }
  split; [reflexivity|]. split; [by apply Hwrite|by apply Hwait].
Defined.

(** The size of inode 5 is about to change from 10 to 20; no call fails and
    no commit finishes. *)
Definition example_hold : result (Z * list index_lock) :=
  scoutfs_inode_index_lock_hold example_range 1 (example_inode 10 0) [] 20 true
    (example_world (example_items 1) [] []).

Lemma scoutfs_inode_index_lock_hold_covers_witness :
  holders (result_world example_hold) = 1%nat ∧
  covered example_range (result_list example_hold) 5
    SCOUTFS_INODE_INDEX_SIZE_TYPE 20 0 ∧
  covered example_range (result_list example_hold) 5
    SCOUTFS_INODE_INDEX_SIZE_TYPE 10 0.
Proof.
  destruct (scoutfs_inode_index_lock_hold_covers example_range 1
              (example_inode 10 0) 20 true
              (example_world (example_items 1) [] [])
              (result_world example_hold) (result_list example_hold))
    as (Hho & _ & Hcov); [by vm_compute|].
  split; [exact Hho|].
  destruct (Hcov (SCOUTFS_INODE_INDEX_SIZE_TYPE, 20, 0)) as [Hins Hdel];
    [by left|done|].
  split; [by apply Hins|by apply Hdel].
Defined.

(** One entry, and the transaction cannot be held: the lock that was taken
    is dropped again. *)
Definition example_try : result (Z * list index_lock) :=
  scoutfs_inode_index_try_lock_hold
    [clamped example_range 5 SCOUTFS_INODE_INDEX_SIZE_TYPE 20 0] 7
    (example_world (example_items 1) [None; Some F_EIO] []).

Lemma scoutfs_inode_index_try_lock_hold_releases_witness :
  example_try = Ret (- EIO, []) (result_world example_try) ∧
  held (result_world example_try) = ∅ ∧
  holders (result_world example_try) = O.
Proof.
  destruct (scoutfs_inode_index_try_lock_hold_releases
              [clamped example_range 5 SCOUTFS_INODE_INDEX_SIZE_TYPE 20 0] 7
              (example_world (example_items 1) [None; Some F_EIO] []))
    as (r & l' & w' & Hrun & Hne & _).
  { by repeat constructor. }
  assert (example_try = Ret (- EIO, []) (result_world example_try)) as Hc
    by by vm_compute.
  split; [exact Hc|].
  unfold example_try in Hc at 1. rewrite Hc in Hrun.
  injection Hrun as <- <- <-.
  destruct Hne as (_ & Hho & Hhe); [done|]. by split.
Defined.

(** The allocation of the second entry fails: the first entry stays on the
    list, without a lock. *)
Definition example_hold_enomem : result (Z * list index_lock) :=
  scoutfs_inode_index_lock_hold example_range 1 (example_inode 10 0) [] 20 true
    (example_world (example_items 1) [None; Some F_ENOMEM] []).

Lemma scoutfs_inode_index_lock_hold_fails_clean_witness :
  example_hold_enomem
  = Ret (- ENOMEM, [clamped example_range 5 SCOUTFS_INODE_INDEX_SIZE_TYPE 20 0])
      (result_world example_hold_enomem) ∧
  held (result_world example_hold_enomem) = ∅ ∧
  holders (result_world example_hold_enomem) = O.
Proof.
  split; [by vm_compute|].
  destruct (scoutfs_inode_index_lock_hold_fails_clean example_range 1
              (example_inode 10 0) 20 true
              (example_world (example_items 1) [None; Some F_ENOMEM] [])
              (result_world example_hold_enomem) (- ENOMEM)
              (result_list example_hold_enomem))
    as (_ & Hho & Hhe & _); [by vm_compute|done|].
  by split.
Defined.

(** The run of [example_first_run], which stops at the failed delete of the
    inode item, holds nothing when it returns. *)
Lemma delete_inode_items_releases_witness :
  held (result_world example_first_run) = ∅ ∧
  holders (result_world example_first_run) = O.
Proof.
  apply (delete_inode_items_releases example_range 1 5
           (example_world (example_items 0) (replicate 12 None ++ [Some F_EIO]) [])
           (result_world example_first_run) (- EIO)).
  by vm_compute.
Defined.

(** Inode 5 is deleted while inode 6 has an item too. *)
Definition example_two_inodes : result Z :=
  delete_inode_items example_range 1 5
    (example_world (<[inode_key 6 := Some (example_sinode 1 1)]> (example_items 0))
       [] []).

Lemma delete_inode_items_keeps_others_witness :
  example_two_inodes = Ret 0 (result_world example_two_inodes) ∧
  items (result_world example_two_inodes) !! inode_key 6
  = Some (Some (example_sinode 1 1)).
Proof.
  split; [by vm_compute|].
  destruct (delete_inode_items_keeps_others example_range 1 5
              (example_world
                 (<[inode_key 6 := Some (example_sinode 1 1)]> (example_items 0))
                 [] [])
              (result_world example_two_inodes) 0) as [_ Hk]; [by vm_compute|].
  rewrite (Hk (inode_key 6)); [by vm_compute|done].
Defined.

(** Inode 5, which has no links, is deleted and no call fails. *)
Definition example_reclaim : result Z :=
  delete_inode_items example_range 1 5 (example_world (example_items 0) [] []).

Lemma delete_inode_items_reclaims_witness :
  example_reclaim = Ret 0 (result_world example_reclaim) ∧
  items (result_world example_reclaim) !! inode_key 5 = None ∧
  items (result_world example_reclaim) !! orphan_key 1 5 = None.
Proof.
  destruct (delete_inode_items_reclaims example_range 1 5
              (example_world (example_items 0) [] []) (example_sinode 10 0))
    as (w' & Hrun & (Hi & Ho & _) & _);
    [by vm_compute|done|done|vm_compute; lia|].
  assert (example_reclaim = Ret 0 (result_world example_reclaim)) as Hc
    by by vm_compute.
  split; [exact Hc|].
  unfold example_reclaim in Hc at 1. rewrite Hc in Hrun.
  injection Hrun as <-. split; [exact Hi|exact Ho].
Defined.

Lemma scoutfs_orphan_inode_remove_witness :
  ∃ w1 w3,
    scoutfs_orphan_inode (example_inode 10 0) (example_world ∅ [] []) = Ret 0 w1 ∧
    items w1 !! orphan_key 1 5 = Some None ∧
    remove_orphan_item 5 w1 = Ret 0 w3 ∧ items w3 = ∅.
Proof.
  destruct (scoutfs_orphan_inode_remove (example_inode 10 0)
              (example_world ∅ [] [])) as (w1 & w2 & w3 & w4 & H1 & Hi1 & _);
    [done|by vm_compute|].
  exists w1. eexists. split; [exact H1|].
  split; [rewrite Hi1; by vm_compute|].
  injection H1 as <-. by vm_compute.
Defined.

(** Inode 5, whose item and index items have size 10, after its size was
    set to 20. *)
Definition example_resized : scoutfs_inode_info :=
  {| ino := 5; i_size := 20; i_nlink := 1; i_uid := 0; i_gid := 0;
     i_mode := 33188; i_rdev := 0; i_atime := zero_time;
     i_mtime := zero_time; i_ctime := zero_time; ci_meta_seq := 3;
     ci_data_seq := 3; ci_data_version := 0; ci_next_readdir_pos := 0;
     ci_flags := 0; have_item := true;
     item_majors := {| at_size := 10; at_meta_seq := 3; at_data_seq := 3 |};
     item_minors := {| at_size := 0; at_meta_seq := 0; at_data_seq := 0 |};
     last_refreshed := 0 |}.

Lemma example_items_exact : index_items_exact example_resized (example_items 1).
Proof.
  intros type major minor. unfold example_items.
  rewrite lookup_insert_ne by done.
  destruct type; cbn [example_resized have_item i_mode item_majors item_minors
                        idx at_size at_meta_seq at_data_seq ino];
    change (inode_has_index 33188 _) with true; cbn [andb].
  - destruct (Z.eqb_spec major 10) as [->|];
      destruct (Z.eqb_spec minor 0) as [->|]; cbn [andb]; try done;
      rewrite !lookup_insert_ne by congruence; apply lookup_empty.
  - destruct (Z.eqb_spec major 3) as [->|];
      destruct (Z.eqb_spec minor 0) as [->|]; cbn [andb]; try done;
      rewrite !lookup_insert_ne by congruence; apply lookup_empty.
  - destruct (Z.eqb_spec major 3) as [->|];
      destruct (Z.eqb_spec minor 0) as [->|]; cbn [andb]; try done;
      rewrite !lookup_insert_ne by congruence; apply lookup_empty.
Qed.

Definition example_updated : result scoutfs_inode_info :=
  scoutfs_update_inode_item example_range example_resized None []
    (example_world (example_items 1) [] []).

Lemma scoutfs_update_inode_item_in_line_witness :
  ∃ inode' w',
    example_updated = Ret inode' w' ∧
    size (store_inode inode') = 20 ∧ meta_seq (store_inode inode') = 7 ∧
    items w' !! inode_key 5 = Some (Some (store_inode inode')) ∧
    items w' !! inode_index_key SCOUTFS_INODE_INDEX_SIZE_TYPE 20 0 5 = Some None ∧
    items w' !! inode_index_key SCOUTFS_INODE_INDEX_SIZE_TYPE 10 0 5 = None ∧
    items w' !! inode_index_key SCOUTFS_INODE_INDEX_META_SEQ_TYPE 7 0 5
    = Some None.
Proof.
  destruct (scoutfs_update_inode_item_in_line example_range example_resized
              None [] (example_world (example_items 1) [] [])
              example_items_exact) as (Hret & Hpost & _).
  destruct (Hret eq_refl) as (inode' & w' & Hrun).
  destruct (Hpost inode' w' Hrun) as (Hms & Hhave & Hitem & Hex & _).
  exists inode', w'. split; [exact Hrun|].
  assert (inode' = set_item_info (set_ci_meta_seq 7 example_resized)
                     (store_inode (set_ci_meta_seq 7 example_resized))) as ->.
  { unfold example_updated in Hrun. vm_compute in Hrun.
    injection Hrun as <- _. reflexivity. }
  split; [reflexivity|]. split; [reflexivity|]. split; [exact Hitem|].
  split; [|split]; rewrite Hex; reflexivity.
Defined.

Lemma store_inode_load_inode_witness :
  store_inode (load_inode (example_inode 0 0) (example_sinode 10 1))
  = example_sinode 10 1 ∧
  load_inode (example_inode 10 0) (store_inode (example_inode 10 0))
  = example_inode 10 0.
Proof.
  destruct (store_inode_load_inode (example_inode 0 0) (example_sinode 10 1))
    as [Hitem _].
  destruct (store_inode_load_inode (example_inode 10 0) (example_sinode 10 1))
    as [_ Hinode].
  split.
  - apply Hitem. unfold item_fits, time_fits. cbn. lia.
  - rewrite Hinode; [reflexivity|]. unfold inode_fits, time_fits. cbn. lia.
Defined.

(** Three tasks find the numbers 100 and 101 in the pool: two of them get
    one each and the third has to ask for more. *)
Definition example_handed : pool_state :=
  {| pool := {| pool_ino := 102; pool_nr := 0; in_flight := true |};
     tasks := [returned 0 100; returned 0 101; at_request];
     requests := 0; outstanding := 0 |}.

Lemma scoutfs_alloc_ino_hands_out_once_witness :
  pool_run [run 0; run 1; run 2]
    (pool_init 3 {| pool_ino := 100; pool_nr := 2; in_flight := false |})
  = Some example_handed ∧
  (∀ t i, tasks example_handed !! t = Some (returned 0 i) → 100 ≤ i < 102) ∧
  (∀ t1 t2 i, tasks example_handed !! t1 = Some (returned 0 i) →
              tasks example_handed !! t2 = Some (returned 0 i) → t1 = t2).
Proof.
  split; [reflexivity|].
  destruct (scoutfs_alloc_ino_hands_out_once 3
              {| pool_ino := 100; pool_nr := 2; in_flight := false |}
              [run 0; run 1; run 2] example_handed)
    as (Hrange & Hdist & _);
    [cbn; lia|cbn; lia|by vm_compute|by repeat constructor|reflexivity|].
  split; [exact Hrange|exact Hdist].
Defined.

(** The pool holds the one number below [~0ULL]: the first task gets it, the
    second is told that there are no numbers left, and nobody asks the
    server. *)
Definition example_last_range : pool_state :=
  {| pool := {| pool_ino := U64_MAX; pool_nr := 0; in_flight := false |};
     tasks := [returned 0 (U64_MAX - 1); returned (- ENOSPC) 0];
     requests := 0; outstanding := 0 |}.

Lemma scoutfs_alloc_ino_range_ends_at_mark_witness :
  pool_run [run 0; run 1]
    (pool_init 2 {| pool_ino := U64_MAX - 1; pool_nr := 1; in_flight := false |})
  = Some example_last_range ∧
  requests example_last_range = O.
Proof.
  split; [reflexivity|].
  apply (scoutfs_alloc_ino_range_ends_at_mark 2
           {| pool_ino := U64_MAX - 1; pool_nr := 1; in_flight := false |}
           [run 0; run 1] example_last_range);
    [reflexivity|by vm_compute|by vm_compute|reflexivity|reflexivity].
Defined.

(** Inode 2 is being freed: a walk that waits over 1, 2 and 3 leaves it in
    the tree. *)
Lemma scoutfs_inode_walk_writeback_skips_witness :
  scoutfs_inode_walk_writeback (λ i, negb (i =? 2)) (λ _, 0) (λ _, 0) 4 false
    [1; 2; 3]
  = Some ([2], Some 0, [1; 3]).
Proof.
  apply (scoutfs_inode_walk_writeback_skips (λ i, negb (i =? 2)) (λ _, 0)
           (λ _, 0) false [1; 2; 3]).
  - repeat (constructor; try done).
  - done.
Defined.

(** The wait for the pages of inode 3 fails with [-EIO]: inode 1 was dealt
    with, inode 2 is being freed, and 3 and 4 stay in the tree. *)
Lemma scoutfs_inode_walk_writeback_stops_witness :
  scoutfs_inode_walk_writeback (λ i, negb (i =? 2)) (λ _, 0)
    (λ i, if i =? 3 then - EIO else 0) 5 false [1; 2; 3; 4]
  = Some ([2; 3; 4], Some (- EIO), [1; 3]).
Proof.
  apply (scoutfs_inode_walk_writeback_stops (λ i, negb (i =? 2)) (λ _, 0)
           (λ i, if i =? 3 then - EIO else 0) false [1; 2] [4] 3).
  - repeat (constructor; try done).
  - intros j [->|[->|[]%elem_of_nil]%elem_of_cons]%elem_of_cons; done.
  - done.
  - done.
Defined.

Lemma scoutfs_destroy_inode_removes_witness :
  scoutfs_inode_queue_writeback [1; 3] 2 = Some [1; 2; 3] ∧
  scoutfs_destroy_inode [1; 2; 3] 2 = [1; 3] ∧
  scoutfs_destroy_inode [1; 3] 2 = [1; 3].
Proof.
  split; [reflexivity|].
  destruct (scoutfs_destroy_inode_removes [1; 3] 2) as (_ & _ & Hrt).
  { repeat (constructor; try done). }
  destruct Hrt as (Hsame & root' & Hq & Hd).
  { intros [[=]|[[=]|[]%elem_of_nil]%elem_of_cons]%elem_of_cons. }
  injection Hq as <-. split; [exact Hd|exact Hsame].
Defined.

(** The size of inode 5 is set to 20 with the truncate flag.  The flag is
    bit 0 and a block has 4096 bytes; [scoutfs_data_truncate_items] fails. *)
Definition example_set_size : result (Z * scoutfs_inode_info) :=
  set_inode_size example_range 1 1 (example_inode 10 0) None 20 true zero_time
    (example_world (example_items 1) [] []).

Lemma set_inode_size_in_line_witness :
  ∃ inode' w',
    example_set_size = Ret (0, inode') w' ∧
    i_size inode' = 20 ∧ ci_data_seq inode' = 7 ∧
    items w' !! inode_key 5 = Some (Some (store_inode inode')) ∧
    items w' !! inode_index_key SCOUTFS_INODE_INDEX_SIZE_TYPE 20 0 5 = Some None ∧
    items w' !! inode_index_key SCOUTFS_INODE_INDEX_SIZE_TYPE 10 0 5 = None ∧
    held w' = ∅ ∧ holders w' = O.
Proof.
  destruct (set_inode_size_in_line example_range 1 1 (example_inode 10 0) None
              20 true zero_time (example_world (example_items 1) [] [])
              example_items_exact) as (_ & Hret & Hpost).
  destruct Hret as (inode' & w' & Hrun); [done|vm_compute; lia|].
  destruct (Hpost 0 inode' w' Hrun) as (Hhe & Hho & _ & Hz).
  destruct (Hz eq_refl eq_refl) as (Hsize & Hds & Hms & Hitem & Hex).
  exists inode', w'. split; [exact Hrun|]. split; [exact Hsize|].
  assert (trans_seq w' = 7 ∧ item_majors inode'
          = {| at_size := 20; at_meta_seq := 7; at_data_seq := 7 |} ∧
          have_item inode' = true ∧ i_mode inode' = 33188 ∧ ino inode' = 5 ∧
          item_minors inode'
          = {| at_size := 0; at_meta_seq := 0; at_data_seq := 0 |})
    as (Hts & Hmaj & Hhave & Hmode & Hino & Hmin).
  { unfold example_set_size in Hrun. vm_compute in Hrun.
    injection Hrun as <- <-. by vm_compute. }
  split; [by rewrite Hds|]. split; [exact Hitem|].
  unfold index_items_exact in Hex. rewrite Hino, Hhave, Hmode, Hmaj, Hmin in Hex.
  split; [by rewrite Hex|]. split; [by rewrite Hex|].
  split; [exact Hhe|exact Hho].
Defined.

Definition example_truncating : scoutfs_inode_info := set_ci_flags 1 example_resized.

Lemma scoutfs_complete_truncate_clears_flag_witness :
  ∃ inode' w',
    scoutfs_complete_truncate example_range 1 4096 12 (λ _ _ _, - EIO) 1
      example_truncating None (example_world (example_items 1) [] [])
    = Ret (- EIO, inode') w' ∧
    Z.land (ci_flags inode') 1 = 0 ∧
    scoutfs_complete_truncate example_range 1 4096 12 (λ _ _ _, - EIO) 1
      inode' None w'
    = Ret (0, inode') w'.
Proof.
  destruct (scoutfs_complete_truncate_clears_flag example_range 1 4096 12
              (λ _ _ _, - EIO) 1 example_truncating None
              (example_world (example_items 1) [] []) example_items_exact)
    as (inode' & w' & Hrun & Hclear & _ & Hagain);
    [done|done|vm_compute; lia|].
  exists inode', w'. split; [exact Hrun|]. split; [exact Hclear|]. apply Hagain.
Defined.
